(** * Chess rules engine: a shallow embedding of [lib/chess] and its properties

    The engine is a TypeScript module of functions over plain records and
    an 8x8 array of squares.  Numbers are embedded as [Z], optional fields
    as [option], arrays as lists.

    The one recursion of the module that is not bounded by the data,
    [isSquareAttacked] calling [getRawMoves] calling [isSquareAttacked]
    again through the castling branch of the king, is embedded with a
    call-depth budget: a result [None] stands for a call that does not
    return, and a larger budget never changes a result ([makeMove_mono]).

    The functions are first embedded on board values.  [Imperative] then
    follows the assignments of [getLegalMoves] and [makeMove] on a store of
    row arrays, and [makeMove_refines] relates the two.

    What surrounds the engine is embedded after it: the display of a
    clock, the countdown of [useGameTimer], the handlers of [useGameRoom],
    the room codes, and the clicks of the board component. *)

From Stdlib Require Import ZArith List Bool Lia String Ascii.
From Stdlib Require DecimalString DecimalPos.
Import ListNotations.
Local Open Scope Z_scope.

(** ** Data model *)

Inductive PieceType := king | queen | rook | bishop | knight | pawn.
Inductive PieceColor := white | black.

(** [hasMoved?: boolean] is an optional field: the pieces of the initial
    board do not carry it. *)
Record Piece := mkPiece {
  type : PieceType;
  color : PieceColor;
  hasMoved : option bool
}.

Definition Square := option Piece.

(** [Square[][]]: a list of rows.  Every board the engine builds is 8x8. *)
Definition Board := list (list Square).

Record Position := mkPos { row : Z; col : Z }.

Inductive CastleSide := kingside | queenside.

Record Move := mkMove {
  from : Position;
  to : Position;
  piece : Piece;
  captured : option Piece;
  promotion : option PieceType;
  castling : option CastleSide;
  enPassant : option bool;
  notation : option string
}.

Inductive GameStatus :=
  waiting | playing | checkmate | stalemate | draw | resigned.

Record GameState := mkState {
  board : Board;
  turn : PieceColor;
  status : GameStatus;
  moves : list Move;
  whiteTime : Z;
  blackTime : Z;
  lastMove : option Move;
  enPassantTarget : option Position;
  winner : option PieceColor;
  drawOffer : option PieceColor
}.

(** ** Equality tests ([===] on the string enums and on coordinates) *)

Definition type_eqb (a b : PieceType) : bool :=
  match a, b with
  | king, king | queen, queen | rook, rook
  | bishop, bishop | knight, knight | pawn, pawn => true
  | _, _ => false
  end.

Definition color_eqb (a b : PieceColor) : bool :=
  match a, b with
  | white, white | black, black => true
  | _, _ => false
  end.

Definition status_eqb (a b : GameStatus) : bool :=
  match a, b with
  | waiting, waiting | playing, playing | checkmate, checkmate
  | stalemate, stalemate | draw, draw | resigned, resigned => true
  | _, _ => false
  end.

(** [m.row === p.row && m.col === p.col] *)
Definition pos_eqb (m p : Position) : bool :=
  (row m =? row p) && (col m =? col p).

(** Truthiness of the optional flag: [!piece.hasMoved] is [negb (moved piece)]. *)
Definition moved (p : Piece) : bool :=
  match hasMoved p with
  | Some true => true
  | _ => false
  end.

(** [{ ...piece, hasMoved: true }] *)
Definition markMoved (p : Piece) : Piece :=
  mkPiece (type p) (color p) (Some true).

Definition opponent (c : PieceColor) : PieceColor :=
  match c with white => black | black => white end.

(** ** Board access *)

(** [board[r][c]] for array indices.  On an 8x8 board an index outside the
    grid is never used by the engine; here it reads as [null]. *)
Definition board_at (b : Board) (r c : nat) : Square :=
  nth c (nth r b []) None.

(** [board[r][c]] for number-typed coordinates. *)
Definition board_ix (b : Board) (r c : Z) : Square :=
  if (0 <=? r) && (0 <=? c) then board_at b (Z.to_nat r) (Z.to_nat c)
  else None.

Fixpoint list_set {A : Type} (l : list A) (i : nat) (v : A) : list A :=
  match l, i with
  | [], _ => []
  | _ :: t, O => v :: t
  | x :: t, S k => x :: list_set t k v
  end.

(** [board[r][c] = v] on an existing cell. *)
Definition board_set (b : Board) (r c : Z) (v : Square) : Board :=
  if (0 <=? r) && (0 <=? c) then
    list_set b (Z.to_nat r) (list_set (nth (Z.to_nat r) b []) (Z.to_nat c) v)
  else b.

Definition isValidPosition (pos : Position) : bool :=
  (row pos >=? 0) && (row pos <? 8) && (col pos >=? 0) && (col pos <? 8).

Definition getPiece (b : Board) (pos : Position) : Square :=
  if negb (isValidPosition pos) then None
  else board_ix b (row pos) (col pos).

(** [board.map(row => row.map(piece => piece ? { ...piece } : null))] *)
Definition cloneBoard (b : Board) : Board :=
  map (fun r => map (fun sq : Square =>
                       match sq with
                       | Some p => Some (mkPiece (type p) (color p) (hasMoved p))
                       | None => None
                       end) r) b.

(** ** Initial position *)

Definition pieceOrder : list PieceType :=
  [rook; knight; bishop; queen; king; bishop; knight; rook].

Definition fresh (t : PieceType) (c : PieceColor) : Square :=
  Some (mkPiece t c None).

Definition createInitialBoard : Board :=
  let empty : Board := repeat (repeat None 8) 8 in
  let cols := [0; 1; 2; 3; 4; 5; 6; 7] in
  let pawns :=
    fold_left (fun b c => board_set (board_set b 1 c (fresh pawn black))
                                    6 c (fresh pawn white)) cols empty in
  fold_left (fun b c =>
               let t := nth (Z.to_nat c) pieceOrder pawn in
               board_set (board_set b 0 c (fresh t black)) 7 c (fresh t white))
            cols pawns.

(** ** Time control *)

(** [timeControl.split('+')] *)
Fixpoint splitOn (sep : ascii) (s : string) : list string :=
  match s with
  | EmptyString => [EmptyString]
  | String ch rest =>
      if Ascii.eqb ch sep then EmptyString :: splitOn sep rest
      else match splitOn sep rest with
           | seg :: segs => String ch seg :: segs
           | [] => [String ch EmptyString]
           end
  end.

(** A reading of JavaScript's [Number] on strings: [None] is NaN.  The
    engine is parametric in it; [NumberDec] below is the instance used to run
    the engine on digit strings, on which it agrees with [Number] up to
    2^53 (and the empty string reads as 0). *)
Definition digit_of (c : ascii) : option Z :=
  let n := Z.of_nat (nat_of_ascii c) in
  if (48 <=? n) && (n <=? 57) then Some (n - 48) else None.

Fixpoint readDigits (acc : Z) (s : string) : option Z :=
  match s with
  | EmptyString => Some acc
  | String c r =>
      match digit_of c with
      | Some d => readDigits (acc * 10 + d) r
      | None => None
      end
  end.

Definition NumberDec (s : string) : option Z := readDigits 0 s.

Section TimeControl.

Variable Number : string -> option Z.

(** [minutes || 10]: NaN and 0 are falsy. *)
Definition orDefault (n : option Z) (d : Z) : Z :=
  match n with
  | Some z => if z =? 0 then d else z
  | None => d
  end.

(** [const [minutes] = timeControl.split('+').map(Number)].  The argument
    is optional and defaults to ['10+0']. *)
Definition createInitialGameState (timeControl : option string) : GameState :=
  let tc := match timeControl with Some s => s | None => "10+0"%string end in
  let minutes := Number (hd EmptyString (splitOn "+"%char tc)) in
  let timeInSeconds := orDefault minutes 10 * 60 in
  {| board := createInitialBoard;
     turn := white;
     status := waiting;
     moves := [];
     whiteTime := timeInSeconds;
     blackTime := timeInSeconds;
     lastMove := None;
     enPassantTarget := None;
     winner := None;
     drawOffer := None |}.

Definition parseTimeControl (timeControl : string) : Z * Z :=
  let parts := map Number (splitOn "+"%char timeControl) in
  (orDefault (nth 0 parts None) 10, orDefault (nth 1 parts None) 0).

End TimeControl.

(** ** Move generation and attack detection *)

Notation "x <- e ;; k" :=
  (match e with Some x => k | None => None end)
  (at level 61, e at next level, right associativity, only parsing).

Definition occupied (b : Board) (p : Position) : bool :=
  match getPiece b p with Some _ => true | None => false end.

(** The [while] loop of [addSlidingMoves]; [n] bounds its iterations, and
    eight are enough on the 8x8 grid (lemma [slide_enough]). *)
Fixpoint slide (n : nat) (b : Board) (r c dr dc : Z) (clr : PieceColor)
         (acc : list Position) : list Position :=
  match n with
  | O => acc
  | S k =>
      if isValidPosition (mkPos r c) then
        match getPiece b (mkPos r c) with
        | None => slide k b (r + dr) (c + dc) dr dc clr (acc ++ [mkPos r c])
        | Some target =>
            if negb (color_eqb (color target) clr) then acc ++ [mkPos r c]
            else acc
        end
      else acc
  end.

Definition addSlidingMoves (b : Board) (pos : Position) (dr dc : Z)
           (clr : PieceColor) (acc : list Position) : list Position :=
  slide 8 b (row pos + dr) (col pos + dc) dr dc clr acc.

Definition knightMoves : list (Z * Z) :=
  [(-2, -1); (-2, 1); (-1, -2); (-1, 2); (1, -2); (1, 2); (2, -1); (2, 1)].

Definition bishopDirs : list (Z * Z) := [(-1, -1); (-1, 1); (1, -1); (1, 1)].
Definition rookDirs : list (Z * Z) := [(-1, 0); (1, 0); (0, -1); (0, 1)].
Definition queenDirs : list (Z * Z) := bishopDirs ++ rookDirs.

(** The loops [for dr = -1..1, for dc = -1..1] of the king, without (0,0). *)
Definition kingSteps : list (Z * Z) :=
  [(-1, -1); (-1, 0); (-1, 1); (0, -1); (0, 1); (1, -1); (1, 0); (1, 1)].

Definition direction (c : PieceColor) : Z :=
  match c with white => -1 | black => 1 end.

(** A step onto a square that is empty or holds an enemy piece (knight, king). *)
Definition stepMoves (b : Board) (pos : Position) (p : Piece)
           (offs : list (Z * Z)) : list Position :=
  fold_left (fun acc d =>
               let newPos := mkPos (row pos + fst d) (col pos + snd d) in
               if isValidPosition newPos then
                 match getPiece b newPos with
                 | None => acc ++ [newPos]
                 | Some target =>
                     if negb (color_eqb (color target) (color p))
                     then acc ++ [newPos] else acc
                 end
               else acc) offs [].

Definition pawnMoves (b : Board) (pos : Position) (p : Piece)
           (enPassantTarget : option Position) : list Position :=
  let d := direction (color p) in
  let forward := mkPos (row pos + d) (col pos) in
  let fwd :=
    if isValidPosition forward && negb (occupied b forward) then
      let startRow := match color p with white => 6 | black => 1 end in
      if row pos =? startRow then
        let doubleForward := mkPos (row pos + 2 * d) (col pos) in
        if negb (occupied b doubleForward) then [forward; doubleForward]
        else [forward]
      else [forward]
    else [] in
  fold_left (fun acc dc =>
               let capturePos := mkPos (row pos + d) (col pos + dc) in
               if isValidPosition capturePos then
                 let acc1 :=
                   match getPiece b capturePos with
                   | Some target =>
                       if negb (color_eqb (color target) (color p))
                       then acc ++ [capturePos] else acc
                   | None => acc
                   end in
                 match enPassantTarget with
                 | Some e => if pos_eqb capturePos e then acc1 ++ [capturePos]
                             else acc1
                 | None => acc1
                 end
               else acc) [-1; 1] fwd.

Section Generation.

(** [attacked b p c] is the call [isSquareAttacked(b, p, c)]. *)
Variable attacked : Board -> Position -> PieceColor -> option bool.

(** [!a(4) && !a(5) && !a(6)], evaluated left to right. *)
Fixpoint noneAttacked (b : Board) (r : Z) (cols : list Z) (c : PieceColor)
  : option bool :=
  match cols with
  | [] => Some true
  | x :: rest =>
      a <- attacked b (mkPos r x) c ;;
      if a then Some false else noneAttacked b r rest c
  end.

(** One side of the castling test: the corner piece is a rook that has not
    moved, the squares [between] are empty, the squares [safe] are not
    attacked. *)
Definition castleSide (b : Board) (r : Z) (p : Piece) (corner : Z)
           (between safe : list Z) (dest : Z) : option (list Position) :=
  match getPiece b (mkPos r corner) with
  | Some rk =>
      if type_eqb (type rk) rook && negb (moved rk) then
        if forallb (fun x => negb (occupied b (mkPos r x))) between then
          ok <- noneAttacked b r safe (color p) ;;
          Some (if ok then [mkPos r dest] else [])
        else Some []
      else Some []
  | None => Some []
  end.

Definition kingMoves (b : Board) (pos : Position) (p : Piece)
  : option (list Position) :=
  let steps := stepMoves b pos p kingSteps in
  if negb (moved p) then
    ks <- castleSide b (row pos) p 7 [5; 6] [4; 5; 6] 6 ;;
    qs <- castleSide b (row pos) p 0 [1; 2; 3] [4; 3; 2] 2 ;;
    Some (steps ++ ks ++ qs)
  else Some steps.

Definition getRawMovesF (b : Board) (pos : Position)
           (enPassantTarget : option Position) : option (list Position) :=
  match getPiece b pos with
  | None => Some []
  | Some p =>
      match type p with
      | pawn => Some (pawnMoves b pos p enPassantTarget)
      | knight => Some (stepMoves b pos p knightMoves)
      | bishop =>
          Some (fold_left (fun acc d =>
                   addSlidingMoves b pos (fst d) (snd d) (color p) acc)
                 bishopDirs [])
      | rook =>
          Some (fold_left (fun acc d =>
                   addSlidingMoves b pos (fst d) (snd d) (color p) acc)
                 rookDirs [])
      | queen =>
          Some (fold_left (fun acc d =>
                   addSlidingMoves b pos (fst d) (snd d) (color p) acc)
                 queenDirs [])
      | king => kingMoves b pos p
      end
  end.

End Generation.

(** The 64 squares in the order of the nested [for row / for col] loops. *)
Definition squares : list (nat * nat) := list_prod (seq 0 8) (seq 0 8).

Definition posOf (rc : nat * nat) : Position :=
  mkPos (Z.of_nat (fst rc)) (Z.of_nat (snd rc)).

Section Attack.

(** [raw b p] is the call [getRawMoves(b, p)], without en-passant target. *)
Variable raw : Board -> Position -> option (list Position).

Fixpoint scanAttack (b : Board) (pos : Position) (attackerColor : PieceColor)
         (sqs : list (nat * nat)) : option bool :=
  match sqs with
  | [] => Some false
  | rc :: rest =>
      match board_at b (fst rc) (snd rc) with
      | Some p =>
          if color_eqb (color p) attackerColor then
            ms <- raw b (posOf rc) ;;
            if existsb (fun m => pos_eqb m pos) ms then Some true
            else scanAttack b pos attackerColor rest
          else scanAttack b pos attackerColor rest
      | None => scanAttack b pos attackerColor rest
      end
  end.

Definition isSquareAttackedF (b : Board) (pos : Position)
           (defenderColor : PieceColor) : option bool :=
  scanAttack b pos (opponent defenderColor) squares.

End Attack.

(** [isSquareAttacked] and [getRawMoves] call each other; [fuel] bounds the
    depth of nested [isSquareAttacked] calls and [None] is returned when it
    is exhausted. *)
Fixpoint isSquareAttacked (fuel : nat) (b : Board) (pos : Position)
         (defenderColor : PieceColor) : option bool :=
  match fuel with
  | O => None
  | S k =>
      isSquareAttackedF
        (fun b' p' => getRawMovesF (isSquareAttacked k) b' p' None)
        b pos defenderColor
  end.

Definition getRawMoves (fuel : nat) (b : Board) (pos : Position)
           (enPassantTarget : option Position) : option (list Position) :=
  getRawMovesF (isSquareAttacked fuel) b pos enPassantTarget.

Fixpoint findKingIn (b : Board) (c : PieceColor) (sqs : list (nat * nat))
  : option Position :=
  match sqs with
  | [] => None
  | rc :: rest =>
      match board_at b (fst rc) (snd rc) with
      | Some p =>
          if type_eqb (type p) king && color_eqb (color p) c
          then Some (posOf rc) else findKingIn b c rest
      | None => findKingIn b c rest
      end
  end.

Definition findKing (b : Board) (c : PieceColor) : option Position :=
  findKingIn b c squares.

Section Check.

Variable attacked : Board -> Position -> PieceColor -> option bool.

Definition isInCheckF (b : Board) (c : PieceColor) : option bool :=
  match findKing b c with
  | None => Some false
  | Some kingPos => attacked b kingPos c
  end.

End Check.

Definition isInCheck (fuel : nat) (b : Board) (c : PieceColor) : option bool :=
  isInCheckF (isSquareAttacked fuel) b c.

(** ** Legal moves *)

(** The scratch board of [getLegalMoves] for one candidate [move]: a clone
    of the board with the piece put on the destination, the origin emptied,
    and the passed pawn removed on an en-passant capture. *)
Definition capturedPawnRow (p : Piece) (r : Z) : Z :=
  match color p with white => r + 1 | black => r - 1 end.

Definition isEnPassant (p : Piece) (enPassantTarget : option Position)
           (dest : Position) : bool :=
  type_eqb (type p) pawn &&
  match enPassantTarget with
  | Some e => pos_eqb dest e
  | None => false
  end.

Definition testBoard (b : Board) (pos : Position) (p : Piece)
           (enPassantTarget : option Position) (move : Position) : Board :=
  let tb := cloneBoard b in
  let tb := board_set tb (row move) (col move) (Some (markMoved p)) in
  let tb := board_set tb (row pos) (col pos) None in
  if isEnPassant p enPassantTarget move
  then board_set tb (capturedPawnRow p (row move)) (col move) None
  else tb.

Section Legal.

Variable fuel : nat.

Fixpoint filterLegal (b : Board) (pos : Position) (p : Piece)
         (enPassantTarget : option Position) (rawMoves : list Position)
  : option (list Position) :=
  match rawMoves with
  | [] => Some []
  | move :: rest =>
      chk <- isInCheck fuel (testBoard b pos p enPassantTarget move) (color p) ;;
      l <- filterLegal b pos p enPassantTarget rest ;;
      Some (if chk then l else move :: l)
  end.

Definition getLegalMoves (b : Board) (pos : Position)
           (enPassantTarget : option Position) : option (list Position) :=
  match getPiece b pos with
  | None => Some []
  | Some p =>
      rawMoves <- getRawMoves fuel b pos enPassantTarget ;;
      filterLegal b pos p enPassantTarget rawMoves
  end.

(** The [outer:] loop of [makeMove]: does some piece of [nextTurn] have a
    legal move?  It stops at the first piece that has one. *)
Fixpoint scanLegal (b : Board) (nextTurn : PieceColor)
         (enPassantTarget : option Position) (sqs : list (nat * nat))
  : option bool :=
  match sqs with
  | [] => Some false
  | rc :: rest =>
      match board_at b (fst rc) (snd rc) with
      | Some p =>
          if color_eqb (color p) nextTurn then
            ms <- getLegalMoves b (posOf rc) enPassantTarget ;;
            match ms with
            | _ :: _ => Some true
            | [] => scanLegal b nextTurn enPassantTarget rest
            end
          else scanLegal b nextTurn enPassantTarget rest
      | None => scanLegal b nextTurn enPassantTarget rest
      end
  end.

End Legal.

(** ** Notation *)

Definition showZ (z : Z) : string :=
  DecimalString.NilZero.string_of_int (Z.to_int z).

(** ['abcdefgh'[c]], as it reads when appended to a string. *)
Definition fileOf (c : Z) : string :=
  if 0 <=? c then
    match String.get (Z.to_nat c) "abcdefgh" with
    | Some ch => String ch EmptyString
    | None => "undefined"
    end
  else "undefined".

Definition pieceLetters (t : PieceType) : string :=
  match t with
  | king => "K" | queen => "Q" | rook => "R"
  | bishop => "B" | knight => "N" | pawn => ""
  end.

Definition truthy (o : option bool) : bool :=
  match o with Some true => true | _ => false end.

Definition isSome {A : Type} (o : option A) : bool :=
  match o with Some _ => true | None => false end.

Definition generateNotation (b : Board) (move : Move) : string :=
  let toFile := fileOf (col (to move)) in
  let toRank := 8 - row (to move) in
  match castling move with
  | Some kingside => "O-O"
  | Some queenside => "O-O-O"
  | None =>
      let n1 := if negb (type_eqb (type (piece move)) pawn)
                then pieceLetters (type (piece move)) else "" in
      let n2 := if isSome (captured move) || truthy (enPassant move) then
                  (n1 ++ (if type_eqb (type (piece move)) pawn
                          then fileOf (col (from move)) else "") ++ "x")
                else n1 in
      let n3 := n2 ++ toFile ++ showZ toRank in
      match promotion move with
      | Some t => n3 ++ "=" ++ pieceLetters t
      | None => n3
      end
  end%string.

(** ** Move application *)

Definition isCastling (p : Piece) (src dst : Position) : bool :=
  type_eqb (type p) king && (Z.abs (col dst - col src) =? 2).

Definition isDoubleStep (p : Piece) (src dst : Position) : bool :=
  type_eqb (type p) pawn && (Z.abs (row dst - row src) =? 2).

Definition isPromotion (p : Piece) (dst : Position) : bool :=
  type_eqb (type p) pawn && ((row dst =? 0) || (row dst =? 7)).

(** The board after the move, as the assignments to [newBoard] build it.
    On a castling move the corner square holds the rook (lemma
    [castling_rook_present]); were it empty, the spread of [null] has no
    piece to copy and the model writes [null]. *)
Definition newBoardOf (b : Board) (p : Piece) (src dst : Position)
           (enPassantTarget : option Position) (promo : option PieceType)
  : Board :=
  let nb := cloneBoard b in
  let nb :=
    if isCastling p src dst then
      let isKingside := col dst >? col src in
      let rookFromCol := if isKingside then 7 else 0 in
      let rookToCol := if isKingside then 5 else 3 in
      let nb := board_set nb (row src) rookToCol
                  (option_map markMoved (board_ix nb (row src) rookFromCol)) in
      board_set nb (row src) rookFromCol None
    else nb in
  let nb :=
    if isEnPassant p enPassantTarget dst
    then board_set nb (capturedPawnRow p (row dst)) (col dst) None
    else nb in
  let nb :=
    if isPromotion p dst then
      board_set nb (row dst) (col dst)
        (Some (mkPiece (match promo with Some t => t | None => queen end)
                       (color p) (Some true)))
    else board_set nb (row dst) (col dst) (Some (markMoved p)) in
  board_set nb (row src) (col src) None.

(** The [Move] record appended to the history. *)
Definition moveOf (b : Board) (p : Piece) (src dst : Position)
           (enPassantTarget : option Position) (promo : option PieceType)
  : Move :=
  let nb := cloneBoard b in
  let cast :=
    if isCastling p src dst
    then Some (if col dst >? col src then kingside else queenside)
    else None in
  let ep := isEnPassant p enPassantTarget dst in
  let capt :=
    if ep then board_ix nb (capturedPawnRow p (row dst)) (col dst)
    else getPiece nb dst in
  let pr :=
    if isPromotion p dst
    then Some (match promo with Some t => t | None => queen end)
    else None in
  let m := mkMove src dst (mkPiece (type p) (color p) (hasMoved p)) capt pr cast
                  (if ep then Some true else None) None in
  mkMove src dst (piece m) capt pr cast (enPassant m)
         (Some (generateNotation b m)).

Definition newEnPassantTargetOf (p : Piece) (src dst : Position)
  : option Position :=
  if isDoubleStep p src dst
  then Some (mkPos ((row src + row dst) / 2) (col src))
  else None.

(** [makeMove]: the outer [option] is the call returning at all, the inner
    one is [GameState | null]. *)
Definition makeMove (fuel : nat) (state : GameState) (src dst : Position)
           (promo : option PieceType) : option (option GameState) :=
  match getPiece (board state) src with
  | None => Some None
  | Some p =>
      if negb (color_eqb (color p) (turn state)) then Some None
      else
        legalMoves <- getLegalMoves fuel (board state) src
                        (enPassantTarget state) ;;
        if negb (existsb (fun m => pos_eqb m dst) legalMoves) then Some None
        else
          let ept := enPassantTarget state in
          let newBoard := newBoardOf (board state) p src dst ept promo in
          let move := moveOf (board state) p src dst ept promo in
          let newEnPassantTarget := newEnPassantTargetOf p src dst in
          let nextTurn := opponent (turn state) in
          let status0 := if status_eqb (status state) waiting then playing
                         else status state in
          hasLegalMoves <- scanLegal fuel newBoard nextTurn
                             newEnPassantTarget squares ;;
          sw <- (if hasLegalMoves then Some (status0, None)
                 else
                   chk <- isInCheck fuel newBoard nextTurn ;;
                   Some (if chk then (checkmate, Some (turn state))
                         else (stalemate, None))) ;;
          Some (Some {| board := newBoard;
                        turn := nextTurn;
                        status := fst sw;
                        moves := moves state ++ [move];
                        whiteTime := whiteTime state;
                        blackTime := blackTime state;
                        lastMove := Some move;
                        enPassantTarget := newEnPassantTarget;
                        winner := snd sw;
                        drawOffer := drawOffer state |})
  end.

(** ** Predicates and sample positions used in the statements *)

(** No square of the grid holds a king of colour [c]. *)
Definition noKing (b : Board) (c : PieceColor) : Prop :=
  forall pos p, getPiece b pos = Some p -> type p = king -> color p <> c.

Definition noKingb (b : Board) (c : PieceColor) : bool :=
  forallb (fun rc => match getPiece b (posOf rc) with
                     | Some p => negb (type_eqb (type p) king &&
                                       color_eqb (color p) c)
                     | None => true
                     end) squares.

(** A board with the white king alone on e1. *)
Definition loneWhiteKing : Board :=
  board_set (repeat (repeat None 8) 8) 7 4 (fresh king white).

(** The standard starting position, written out: black's back rank on row
    0, white's on row 7, rook knight bishop queen king bishop knight rook
    from file a to file h. *)
Definition backRank (c : PieceColor) : list Square :=
  [fresh rook c; fresh knight c; fresh bishop c; fresh queen c;
   fresh king c; fresh bishop c; fresh knight c; fresh rook c].

Definition pawnRank (c : PieceColor) : list Square := repeat (fresh pawn c) 8.

Definition emptyRank : list Square := repeat None 8.

Definition standardBoard : Board :=
  [backRank black; pawnRank black; emptyRank; emptyRank;
   emptyRank; emptyRank; pawnRank white; backRank white].

Definition countPieces (t : PieceType) (b : Board) : nat :=
  List.length (filter (fun sq : Square =>
                    match sq with
                    | Some p => type_eqb (type p) t
                    | None => false
                    end) (List.concat b)).

(** The text holds no ['+']. *)
Definition noPlus (s : string) : Prop :=
  forall c, In c (list_ascii_of_string s) -> c <> "+"%char.

(** Record updates and sample states. *)
Definition withStatus (s : GameState) (st : GameStatus) : GameState :=
  mkState (board s) (turn s) st (moves s) (whiteTime s) (blackTime s)
          (lastMove s) (enPassantTarget s) (winner s) (drawOffer s).

Definition withDrawOffer (s : GameState) (d : option PieceColor) : GameState :=
  mkState (board s) (turn s) (status s) (moves s) (whiteTime s) (blackTime s)
          (lastMove s) (enPassantTarget s) (winner s) d.

Definition startState : GameState :=
  createInitialGameState NumberDec (Some "10+0"%string).

(** [status0] of [makeMove]: [waiting] becomes [playing]. *)
Definition started (st : GameStatus) : GameStatus :=
  if status_eqb st waiting then playing else st.

Definition terminal (st : GameStatus) : Prop :=
  st = checkmate \/ st = stalemate \/ st = draw \/ st = resigned.

(** The shape every board of the engine has: eight rows of eight squares. *)
Definition wfBoard (b : Board) : Prop :=
  List.length b = 8%nat /\ Forall (fun r => List.length r = 8%nat) b.

Definition wfBoardb (b : Board) : bool :=
  Nat.eqb (List.length b) 8 &&
  forallb (fun r => Nat.eqb (List.length r) 8) b.

(** A position with a white pawn on a7 about to promote: white king e1,
    black king h6, both marked as moved. *)
Definition promotionBoard : Board :=
  let e : Board := repeat (repeat None 8) 8 in
  let e := board_set e 1 0 (Some (mkPiece pawn white (Some true))) in
  let e := board_set e 7 4 (Some (mkPiece king white (Some true))) in
  board_set e 2 7 (Some (mkPiece king black (Some true))).

Definition promotionState : GameState :=
  mkState promotionBoard white playing [] 600 600 None None None None.

(** [promotion || 'queen'] *)
Definition promotedType (promo : option PieceType) : PieceType :=
  match promo with Some t => t | None => queen end.

(** The side [c] has no legal destination for any of its pieces on [b];
    the side [c] has a piece with a legal destination. *)
Definition noLegalMove (fuel : nat) (b : Board) (c : PieceColor)
           (ept : option Position) : Prop :=
  forall pos p, getPiece b pos = Some p -> color p = c ->
                getLegalMoves fuel b pos ept = Some [].

Definition someLegalMove (fuel : nat) (b : Board) (c : PieceColor)
           (ept : option Position) : Prop :=
  exists pos p m ms, getPiece b pos = Some p /\ color p = c /\
                     getLegalMoves fuel b pos ept = Some (m :: ms).

(** Play a list of moves (from, to) without promotion choice, stopping at
    the first call that is rejected or does not return. *)
Fixpoint playAll (fuel : nat) (s : GameState)
         (ms : list (Position * Position)) : option GameState :=
  match ms with
  | [] => Some s
  | m :: rest =>
      match makeMove fuel s (fst m) (snd m) None with
      | Some (Some s1) => playAll fuel s1 rest
      | _ => None
      end
  end.

(** 1. f3 e5 2. g4, black to play Qh4 mate; and the position after it. *)
Definition beforeFoolsMate : GameState :=
  Eval vm_compute in
    match playAll 2 startState
            [(mkPos 6 5, mkPos 5 5); (mkPos 1 4, mkPos 3 4);
             (mkPos 6 6, mkPos 4 6)] with
    | Some s => s
    | None => startState
    end.

Definition afterFoolsMate : GameState :=
  Eval vm_compute in
    match playAll 2 beforeFoolsMate [(mkPos 0 3, mkPos 4 7)] with
    | Some s => s
    | None => startState
    end.

(** The castling conditions of the king [p] standing on row [r]: the king
    has not moved, an unmoved rook stands on the [corner] column of the row,
    the columns [between] are empty, and none of the columns [safe] is
    attacked by the opponent. *)
Definition castleReady (fuel : nat) (b : Board) (r : Z) (p : Piece)
           (corner : Z) (between safe : list Z) : Prop :=
  moved p = false /\
  (exists rk, getPiece b (mkPos r corner) = Some rk /\
              type rk = rook /\ moved rk = false) /\
  (forall x, In x between -> getPiece b (mkPos r x) = None) /\
  (forall x, In x safe ->
             isSquareAttacked fuel b (mkPos r x) (color p) = Some false).

(** King and rook after castling: the king [p] of [s] from [src] to column
    [kingTo], the rook from column [corner] to column [rookTo], both marked
    as moved, their squares of origin empty, the move recorded as [side]. *)
Definition castled (s s' : GameState) (p : Piece) (src : Position)
           (corner rookTo kingTo : Z) (side : CastleSide) : Prop :=
  exists rk,
    getPiece (board s) (mkPos (row src) corner) = Some rk /\
    type rk = rook /\
    getPiece (board s') (mkPos (row src) kingTo) = Some (markMoved p) /\
    getPiece (board s') (mkPos (row src) rookTo) = Some (markMoved rk) /\
    getPiece (board s') src = None /\
    getPiece (board s') (mkPos (row src) corner) = None /\
    option_map castling (lastMove s') = Some (Some side).

(** White king e1 and rooks a1, h1, none of which has moved; black king b8,
    marked as moved. *)
Definition castlingBoard : Board :=
  let e : Board := repeat (repeat None 8) 8 in
  let e := board_set e 7 4 (fresh king white) in
  let e := board_set e 7 7 (fresh rook white) in
  let e := board_set e 7 0 (fresh rook white) in
  board_set e 0 1 (Some (mkPiece king black (Some true))).

Definition castlingState : GameState :=
  mkState castlingBoard white playing [] 600 600 None None None None.

(** An unmoved white king on d1 with a white bishop on e1 and an unmoved
    white rook on h1; black king b8. *)
Definition kingOnD1Board : Board :=
  let e : Board := repeat (repeat None 8) 8 in
  let e := board_set e 7 3 (fresh king white) in
  let e := board_set e 7 4 (fresh bishop white) in
  let e := board_set e 7 7 (fresh rook white) in
  board_set e 0 1 (Some (mkPiece king black (Some true))).

Definition kingOnD1State : GameState :=
  mkState kingOnD1Board white playing [] 600 600 None None None None.

(** [castlingState] after white has castled kingside. *)
Definition afterKingsideCastle : GameState :=
  Eval vm_compute in
    match playAll 2 castlingState [(mkPos 7 4, mkPos 7 6)] with
    | Some s => s
    | None => castlingState
    end.

(** The game 1. e4 e5 2. Nf3 Nf6 3. Be2, black to move; and the scratch
    board on which [getLegalMoves] tries the reply Bf8-e7. *)
Definition openingMoves : list (Position * Position) :=
  [(mkPos 6 4, mkPos 4 4); (mkPos 1 4, mkPos 3 4);
   (mkPos 7 6, mkPos 5 5); (mkPos 0 6, mkPos 2 5);
   (mkPos 7 5, mkPos 6 4)].

Definition afterBe2 : GameState :=
  Eval vm_compute in
    match playAll 2 startState openingMoves with
    | Some s => s
    | None => startState
    end.

Definition boardBe7 : Board :=
  Eval vm_compute in
    testBoard (board afterBe2) (mkPos 0 5) (mkPiece bishop black None)
              None (mkPos 1 4).

(** The three cases in which [makeMove] rejects: no piece on [src], a piece
    of the colour that is not to move, or a destination that is not among
    the legal destinations of [src]. *)
Definition rejected (fuel : nat) (s : GameState) (src dst : Position) : Prop :=
  getPiece (board s) src = None \/
  (exists p, getPiece (board s) src = Some p /\ color p <> turn s) \/
  (exists p legal,
      getPiece (board s) src = Some p /\ color p = turn s /\
      getLegalMoves fuel (board s) src (enPassantTarget s) = Some legal /\
      ~ In dst legal).

(** ** The engine on a store of arrays

    The functions above treat a board as a value.  In the program a board
    is an array of row arrays, and [getLegalMoves] and [makeMove] assign to
    the squares of row arrays.  The module below follows these assignments
    on a store: a row array is a cell of the store, a board is the list of
    the addresses of its rows, [cloneBoard] allocates eight new rows, and an
    assignment [board[r][c] = v] overwrites the cell of row [r].  A state
    object holds the address list of its board; its other fields are plain
    values, which the program never assigns to.  Reading functions
    ([getPiece], [getRawMoves], [isInCheck]) are applied to the board value
    found in the store at the time of the call. *)
Module Imperative.

(** The value-level definitions whose names are reused below. *)
Abbreviation BoardValue := Board (only parsing).
Abbreviation StateValue := GameState (only parsing).
Abbreviation stateValue := mkState (only parsing).
Abbreviation cloneValue := cloneBoard (only parsing).

Abbreviation loc := nat (only parsing).
Definition Heap := list (list Square).
Definition BoardRef := list loc.

(** The board value behind a reference. *)
Definition readBoard (h : Heap) (br : BoardRef) : Board :=
  map (fun l => nth l h []) br.

(** A computation on the store that may not return. *)
Definition M (A : Type) : Type := Heap -> option (A * Heap).

Definition ret {A} (a : A) : M A := fun h => Some (a, h).

Definition bind {A B} (m : M A) (k : A -> M B) : M B :=
  fun h => match m h with
           | Some (a, h1) => k a h1
           | None => None
           end.

(** A pure call on the current contents of a board, [None] when it does
    not return. *)
Definition call {A} (br : BoardRef) (f : Board -> option A) : M A :=
  fun h => match f (readBoard h br) with
           | Some a => Some (a, h)
           | None => None
           end.

Definition look {A} (br : BoardRef) (f : Board -> A) : M A :=
  fun h => Some (f (readBoard h br), h).

(** [board.map(row => row.map(...))]: new row arrays at the end of the
    store. *)
Definition cloneBoard (br : BoardRef) : M BoardRef :=
  fun h => Some (seq (List.length h) (List.length br),
                 h ++ cloneValue (readBoard h br)).

(** [board[r][c] = v]. *)
Definition assign (br : BoardRef) (r c : Z) (v : Square) : M unit :=
  fun h =>
    if (0 <=? r) && (0 <=? c) then
      match nth_error br (Z.to_nat r) with
      | Some l => Some (tt, list_set h l (list_set (nth l h []) (Z.to_nat c) v))
      | None => Some (tt, h)
      end
    else Some (tt, h).

Notation "x <-- m ;; k" := (bind m (fun x => k))
  (at level 61, m at next level, right associativity).
Notation "m ;;; k" := (bind m (fun _ => k))
  (at level 61, right associativity).

Definition when (c : bool) (m : M unit) : M unit :=
  if c then m else ret tt.

Section Legal.

Variable fuel : nat.

Fixpoint filterLegal (br : BoardRef) (pos : Position) (p : Piece)
         (enPassantTarget : option Position) (rawMoves : list Position)
  : M (list Position) :=
  match rawMoves with
  | [] => ret []
  | move :: rest =>
      tb <-- cloneBoard br ;;
      assign tb (row move) (col move) (Some (markMoved p)) ;;;
      assign tb (row pos) (col pos) None ;;;
      when (isEnPassant p enPassantTarget move)
           (assign tb (capturedPawnRow p (row move)) (col move) None) ;;;
      chk <-- call tb (fun b => isInCheck fuel b (color p)) ;;
      l <-- filterLegal br pos p enPassantTarget rest ;;
      ret (if chk then l else move :: l)
  end.

Definition getLegalMoves (br : BoardRef) (pos : Position)
           (enPassantTarget : option Position) : M (list Position) :=
  sq <-- look br (fun b => getPiece b pos) ;;
  match sq with
  | None => ret []
  | Some p =>
      rawMoves <-- call br (fun b => getRawMoves fuel b pos enPassantTarget) ;;
      filterLegal br pos p enPassantTarget rawMoves
  end.

Fixpoint scanLegal (br : BoardRef) (nextTurn : PieceColor)
         (enPassantTarget : option Position) (sqs : list (nat * nat))
  : M bool :=
  match sqs with
  | [] => ret false
  | rc :: rest =>
      sq <-- look br (fun b => board_at b (fst rc) (snd rc)) ;;
      match sq with
      | Some p =>
          if color_eqb (color p) nextTurn then
            ms <-- getLegalMoves br (posOf rc) enPassantTarget ;;
            match ms with
            | _ :: _ => ret true
            | [] => scanLegal br nextTurn enPassantTarget rest
            end
          else scanLegal br nextTurn enPassantTarget rest
      | None => scanLegal br nextTurn enPassantTarget rest
      end
  end.

End Legal.

(** A state object: the board by reference, the other fields by value. *)
Record GameState := mkState {
  board : BoardRef;
  turn : PieceColor;
  status : GameStatus;
  moves : list Move;
  whiteTime : Z;
  blackTime : Z;
  lastMove : option Move;
  enPassantTarget : option Position;
  winner : option PieceColor;
  drawOffer : option PieceColor
}.

(** The state as a value, with the board as the store holds it. *)
Definition deref (h : Heap) (s : GameState) : StateValue :=
  stateValue (readBoard h (board s)) (turn s) (status s) (moves s)
    (whiteTime s) (blackTime s) (lastMove s) (enPassantTarget s)
    (winner s) (drawOffer s).

Definition makeMove (fuel : nat) (state : GameState) (src dst : Position)
           (promo : option PieceType) : M (option GameState) :=
  sq <-- look (board state) (fun b => getPiece b src) ;;
  match sq with
  | None => ret None
  | Some p =>
      if negb (color_eqb (color p) (turn state)) then ret None
      else
        legalMoves <-- getLegalMoves fuel (board state) src
                         (enPassantTarget state) ;;
        if negb (existsb (fun m => pos_eqb m dst) legalMoves) then ret None
        else
          old <-- look (board state) (fun b => b) ;;
          newBoard <-- cloneBoard (board state) ;;
          captured <-- look newBoard (fun b => getPiece b dst) ;;
          cast <-- (if isCastling p src dst then
                      let isKingside := col dst >? col src in
                      let rookFromCol := if isKingside then 7 else 0 in
                      let rookToCol := if isKingside then 5 else 3 in
                      rk <-- look newBoard
                               (fun b => board_ix b (row src) rookFromCol) ;;
                      assign newBoard (row src) rookToCol
                             (option_map markMoved rk) ;;;
                      assign newBoard (row src) rookFromCol None ;;;
                      ret (Some (if isKingside then kingside else queenside))
                    else ret None) ;;
          let ep := isEnPassant p (enPassantTarget state) dst in
          capt <-- (if ep then
                      c <-- look newBoard
                              (fun b => board_ix b
                                          (capturedPawnRow p (row dst))
                                          (col dst)) ;;
                      assign newBoard (capturedPawnRow p (row dst))
                             (col dst) None ;;;
                      ret c
                    else ret captured) ;;
          let newEnPassantTarget := newEnPassantTargetOf p src dst in
          pr <-- (if isPromotion p dst then
                    assign newBoard (row dst) (col dst)
                      (Some (mkPiece (promotedType promo) (color p)
                                     (Some true))) ;;;
                    ret (Some (promotedType promo))
                  else
                    assign newBoard (row dst) (col dst)
                      (Some (markMoved p)) ;;;
                    ret None) ;;
          assign newBoard (row src) (col src) None ;;;
          let m := mkMove src dst (mkPiece (type p) (color p) (hasMoved p))
                          capt pr cast (if ep then Some true else None)
                          None in
          let move := mkMove src dst (piece m) capt pr cast (enPassant m)
                             (Some (generateNotation old m)) in
          let nextTurn := opponent (turn state) in
          let status0 := if status_eqb (status state) waiting then playing
                         else status state in
          hasLegalMoves <-- scanLegal fuel newBoard nextTurn
                              newEnPassantTarget squares ;;
          sw <-- (if hasLegalMoves then ret (status0, None)
                  else
                    chk <-- call newBoard
                              (fun b => isInCheck fuel b nextTurn) ;;
                    ret (if chk then (checkmate, Some (turn state))
                         else (stalemate, None))) ;;
          ret (Some {| board := newBoard;
                       turn := nextTurn;
                       status := fst sw;
                       moves := moves state ++ [move];
                       whiteTime := whiteTime state;
                       blackTime := blackTime state;
                       lastMove := Some move;
                       enPassantTarget := newEnPassantTarget;
                       winner := snd sw;
                       drawOffer := drawOffer state |})
  end.

(** Every address of the reference is allocated in the store. *)
Definition allocated (h : Heap) (br : BoardRef) : Prop :=
  Forall (fun l => (l < List.length h)%nat) br.

End Imperative.

(** The outcome of a store computation against that of the value-level
    function: both fail to return, or both return the same result and the
    store has only grown at its end. *)
Definition refines {A} (m : Imperative.M A) (h : Imperative.Heap)
           (v : option A) : Prop :=
  match v with
  | Some a => exists ext, m h = Some (a, h ++ ext)
  | None => m h = None
  end.

(** A store holding the eight rows of the initial board, and the initial
    state object over it. *)
Definition startHeap : Imperative.Heap := createInitialBoard.

Definition startObject : Imperative.GameState :=
  Imperative.mkState (seq 0 8) white waiting [] 600 600 None None None None.

(** [v'] agrees with [v] wherever [v] is a result. *)
Definition below {A} (v v' : option A) : Prop :=
  forall a, v = Some a -> v' = Some a.

(** ** Predicates of the further properties *)

(** The square [m] holds no piece of the colour of [p]. *)
Definition notOwn (b : Board) (p : Piece) (m : Position) : Prop :=
  match getPiece b m with
  | Some t => color t <> color p
  | None => True
  end.

(** The square [k] steps from [pos] in direction [(dr, dc)]. *)
Definition stepFrom (pos : Position) (dr dc : Z) (k : Z) : Position :=
  mkPos (row pos + k * dr) (col pos + k * dc).

(** The squares strictly between [pos] and its [k]-th step are on the grid
    and empty. *)
Definition clearPath (b : Board) (pos : Position) (dr dc : Z) (k : Z) : Prop :=
  forall j, 0 < j < k ->
            isValidPosition (stepFrom pos dr dc j) = true /\
            getPiece b (stepFrom pos dr dc j) = None.

(** The directions of a sliding piece. *)
Definition slideDirs (t : PieceType) : list (Z * Z) :=
  match t with
  | bishop => bishopDirs
  | rook => rookDirs
  | queen => queenDirs
  | _ => []
  end.

(** [startRow] of the pawn branch of [getRawMoves]. *)
Definition pawnStartRow (c : PieceColor) : Z :=
  match c with white => 6 | black => 1 end.

(** The squares [makeMove] assigns to: origin and destination, the square of
    the pawn captured en passant, and the two squares of the castling rook. *)
Definition touched (p : Piece) (src dst : Position)
           (enPassantTarget : option Position) : list Position :=
  [src; dst] ++
  (if isEnPassant p enPassantTarget dst
   then [mkPos (capturedPawnRow p (row dst)) (col dst)] else []) ++
  (if isCastling p src dst
   then [mkPos (row src) (if col dst >? col src then 5 else 3);
         mkPos (row src) (if col dst >? col src then 7 else 0)]
   else []).

(** ** Display of a clock *)








(** ** The game clock ([useGameTimer]) *)

Module GameTimer.

(** The two clocks of the hook, in seconds, and [lastUpdateRef.current],
    in milliseconds. *)
Record Clocks := mkClocks {
  whiteTime : Z;
  blackTime : Z;
  lastUpdate : Z
}.

Definition timeOf (clr : PieceColor) (t : Clocks) : Z :=
  match clr with white => whiteTime t | black => blackTime t end.

(** The updater given to [setWhiteTime] and [setBlackTime]: the new value
    of the clock and the calls of [onTimeout] it makes. *)
Definition countDown (clr : PieceColor) (elapsed prev : Z)
  : Z * list PieceColor :=
  let newTime := Z.max 0 (prev - elapsed) in
  (newTime, if (newTime =? 0) && (prev >? 0) then [clr] else []).

(** The interval callback, run when [Date.now()] is [now]; [turn] is
    [gameState.turn] as the effect captured it. *)
Definition tick (turn : PieceColor) (now : Z) (t : Clocks)
  : Clocks * list PieceColor :=
  let elapsed := (now - lastUpdate t) / 1000 in
  if elapsed <? 1 then (t, [])
  else
    match turn with
    | white =>
        let (newTime, calls) := countDown white elapsed (whiteTime t) in
        (mkClocks newTime (blackTime t) now, calls)
    | black =>
        let (newTime, calls) := countDown black elapsed (blackTime t) in
        (mkClocks (whiteTime t) newTime now, calls)
    end.

(** The callback run at each of the times [nows], in this order, while the
    same side is to move. *)
Fixpoint run (turn : PieceColor) (nows : list Z) (t : Clocks)
  : Clocks * list PieceColor :=
  match nows with
  | [] => (t, [])
  | now :: rest =>
      let (t1, calls1) := tick turn now t in
      let (t2, calls2) := run turn rest t1 in
      (t2, calls1 ++ calls2)
  end.

Definition addIncrement (increment : Z) (clr : PieceColor) (t : Clocks)
  : Clocks :=
  if increment >? 0 then
    match clr with
    | white => mkClocks (whiteTime t + increment) (blackTime t) (lastUpdate t)
    | black => mkClocks (whiteTime t) (blackTime t + increment) (lastUpdate t)
    end
  else t.

End GameTimer.

(** ** The room ([useGameRoom])

    The handlers of the hook read the state [room], [gameState] and
    [playerColor] (each may be [null]) and call [setGameState]; the write to
    the database that follows changes no local state, except in
    [makeChessMove], which rolls back when the write fails.  A handler is
    modelled by the state it installs: [None] when it returns before
    [setGameState]. *)

Module GameRoom.

(** The fields of [Room] that the modelled code reads. *)
Record Room := mkRoom {
  playerWhiteId : option string;
  playerBlackId : option string
}.

(** [!roomData.player_white_id]: [null] and the empty string are falsy. *)
Definition vacant (seat : option string) : bool :=
  match seat with
  | None => true
  | Some s => String.eqb s ""
  end.

(** [roomData.player_white_id === playerId] *)
Definition heldBy (seat : option string) (playerId : string) : bool :=
  match seat with
  | Some s => String.eqb s playerId
  | None => false
  end.

(** The colour assignment of [fetchRoom] for a player's code: the colour
    given and the seats afterwards, or [None] for 'Room is full'. *)
Definition assignColor (r : Room) (playerId : string)
  : option (PieceColor * Room) :=
  if vacant (playerWhiteId r) then
    Some (white, mkRoom (Some playerId) (playerBlackId r))
  else if heldBy (playerWhiteId r) playerId then Some (white, r)
  else if vacant (playerBlackId r) then
    Some (black, mkRoom (playerWhiteId r) (Some playerId))
  else if heldBy (playerBlackId r) playerId then Some (black, r)
  else None.

(** [(gs.whiteTime as number) || 600] *)
Definition orElse (n d : Z) : Z := if n =? 0 then d else n.

(** The game state that [fetchRoom] and the handler of a room update build
    from a stored state: nine fields are copied, the two clocks with a
    default, and [drawOffer] is not among them. *)
Definition parseGameState (gs : GameState) : GameState :=
  {| board := board gs;
     turn := turn gs;
     status := status gs;
     moves := moves gs;
     whiteTime := orElse (whiteTime gs) 600;
     blackTime := orElse (blackTime gs) 600;
     lastMove := lastMove gs;
     enPassantTarget := enPassantTarget gs;
     winner := winner gs;
     drawOffer := None |}.

Definition isPlaying (room : option Room) (gameState : option GameState)
  : option GameState :=
  match room, gameState with
  | Some _, Some gs => if status_eqb (status gs) playing then Some gs else None
  | _, _ => None
  end.

Definition handleTimeout (room : option Room) (gameState : option GameState)
           (loser : PieceColor) : option GameState :=
  match isPlaying room gameState with
  | Some gs =>
      let winner := match loser with white => black | black => white end in
      Some (mkState (board gs) (turn gs) checkmate (moves gs) (whiteTime gs)
                    (blackTime gs) (lastMove gs) (enPassantTarget gs)
                    (Some winner) (drawOffer gs))
  | None => None
  end.

Definition handleResign (room : option Room) (gameState : option GameState)
           (playerColor : option PieceColor) : option GameState :=
  match isPlaying room gameState, playerColor with
  | Some gs, Some pc =>
      let winner := match pc with white => black | black => white end in
      Some (mkState (board gs) (turn gs) resigned (moves gs) (whiteTime gs)
                    (blackTime gs) (lastMove gs) (enPassantTarget gs)
                    (Some winner) (drawOffer gs))
  | _, _ => None
  end.

Definition handleOfferDraw (room : option Room)
           (gameState : option GameState) (playerColor : option PieceColor)
  : option GameState :=
  match isPlaying room gameState, playerColor with
  | Some gs, Some pc =>
      match drawOffer gs with
      | Some _ => None
      | None =>
          Some (mkState (board gs) (turn gs) (status gs) (moves gs)
                        (whiteTime gs) (blackTime gs) (lastMove gs)
                        (enPassantTarget gs) (winner gs) (Some pc))
      end
  | _, _ => None
  end.

Definition handleAcceptDraw (room : option Room)
           (gameState : option GameState) (playerColor : option PieceColor)
  : option GameState :=
  match isPlaying room gameState, playerColor with
  | Some gs, Some _ =>
      Some (mkState (board gs) (turn gs) draw (moves gs) (whiteTime gs)
                    (blackTime gs) (lastMove gs) (enPassantTarget gs)
                    None None)
  | _, _ => None
  end.

Definition handleDeclineDraw (room : option Room)
           (gameState : option GameState) (playerColor : option PieceColor)
  : option GameState :=
  match isPlaying room gameState, playerColor with
  | Some gs, Some _ =>
      Some (mkState (board gs) (turn gs) (status gs) (moves gs)
                    (whiteTime gs) (blackTime gs) (lastMove gs)
                    (enPassantTarget gs) (winner gs) None)
  | _, _ => None
  end.

(** [makeChessMove]: the boolean it resolves to and the local game state
    when it has; [saved] tells whether the write to the database
    succeeded.  The outer [None] is a call of [makeMove] that does not
    return. *)
Definition makeChessMove (fuel : nat) (room : option Room)
           (gameState : option GameState) (playerColor : option PieceColor)
           (saved : bool) (src dst : Position) (promo : option PieceType)
  : option (bool * option GameState) :=
  match room, gameState, playerColor with
  | Some _, Some gs, Some pc =>
      if negb (color_eqb (turn gs) pc) then Some (false, gameState)
      else
        newState <- makeMove fuel gs src dst promo ;;
        match newState with
        | None => Some (false, gameState)
        | Some s' =>
            if saved then Some (true, Some s') else Some (false, gameState)
        end
  | _, _, _ => Some (false, gameState)
  end.

End GameRoom.

(** ** Room codes ([generateRoomCode]) *)

Definition roomCodeChars : string := "ABCDEFGHJKLMNPQRSTUVWXYZ23456789".

(** [chars[k]], as it reads when appended to a string. *)
Definition charAt (k : Z) : string :=
  if 0 <=? k then
    match String.get (Z.to_nat k) roomCodeChars with
    | Some ch => String ch EmptyString
    | None => "undefined"
    end
  else "undefined".

(** [generateRoomCode], given the six values of
    [Math.floor(Math.random() * chars.length)] in the order drawn; the loop
    runs once for each. *)
Definition generateRoomCode (draws : list Z) : string :=
  fold_left (fun code k => (code ++ charAt k)%string) draws EmptyString.

(** ** The board component ([ChessBoard]) *)

Module BoardView.

(** The three pieces of state of the component. *)
Record Selection := mkSelection {
  selectedSquare : option Position;
  legalMoves : list Position;
  promotionSquare : option (Position * Position)
}.

Definition noSelection : Selection := mkSelection None [] None.

(** A call [onMove(from, to, promotion)]. *)
Definition Call : Type := Position * Position * option PieceType.


(** [disabled] as the page passes it. *)
Definition boardDisabled (isSpectator opponentJoined : bool)
           (st : GameStatus) : bool :=
  isSpectator || negb opponentJoined ||
  (negb (status_eqb st playing) && negb (status_eqb st waiting)).

Section Props.

Variable fuel : nat.
Variable board : Board.
Variable turn : PieceColor.
Variable playerColor : option PieceColor.
Variable enPassantTarget : option Position.
Variable disabled : bool.

(** [playerColor && playerColor !== turn] *)
Definition notMyTurn : bool :=
  match playerColor with
  | Some pc => negb (color_eqb pc turn)
  | None => false
  end.

(** [piece && piece.color === turn && (!playerColor || piece.color === playerColor)] *)
Definition selectable (sq : Square) : bool :=
  match sq with
  | Some p =>
      color_eqb (color p) turn &&
      match playerColor with
      | Some pc => color_eqb (color p) pc
      | None => true
      end
  | None => false
  end.

(** [selectedPiece?.type === 'pawn' && (row === 0 || row === 7)] *)
Definition needsPromotion (sq : Square) (r : Z) : bool :=
  match sq with
  | Some p => type_eqb (type p) pawn && ((r =? 0) || (r =? 7))
  | None => false
  end.

(** [handleSquareClick(row, col)]: the state of the component afterwards
    and the calls of [onMove]; [None] when [getLegalMoves] does not
    return. *)
Definition handleSquareClick (ui : Selection) (r c : Z)
  : option (Selection * list Call) :=
  if disabled || notMyTurn then Some (ui, [])
  else
    let pos := mkPos r c in
    let piece := board_ix board r c in
    match selectedSquare ui with
    | Some sel =>
        if existsb (fun m => (row m =? r) && (col m =? c)) (legalMoves ui)
        then
          let selectedPiece := board_ix board (row sel) (col sel) in
          if needsPromotion selectedPiece r then
            Some (mkSelection (selectedSquare ui) (legalMoves ui)
                              (Some (sel, pos)), [])
          else
            Some (mkSelection None [] (promotionSquare ui),
                  [(sel, pos, None)])
        else if selectable piece then
          moves <- getLegalMoves fuel board pos enPassantTarget ;;
          Some (mkSelection (Some pos) moves (promotionSquare ui), [])
        else Some (mkSelection None [] (promotionSquare ui), [])
    | None =>
        if selectable piece then
          moves <- getLegalMoves fuel board pos enPassantTarget ;;
          Some (mkSelection (Some pos) moves (promotionSquare ui), [])
        else Some (mkSelection None [] (promotionSquare ui), [])
    end.

(** [handlePromotion(pieceType)] *)
Definition handlePromotion (ui : Selection) (pieceType : PieceType)
  : Selection * list Call :=
  match promotionSquare ui with
  | Some (src, dst) => (noSelection, [(src, dst, Some pieceType)])
  | None => (ui, [])
  end.

(** What the user can do: click a square of the grid, or press one of the
    buttons of the promotion dialog. *)
Inductive Event :=
| click (r c : Z)
| choose (pieceType : PieceType).

Definition handle (ui : Selection) (e : Event)
  : option (Selection * list Call) :=
  match e with
  | click r c => handleSquareClick ui r c
  | choose t => Some (handlePromotion ui t)
  end.

Fixpoint handleAll (ui : Selection) (es : list Event)
  : option (Selection * list Call) :=
  match es with
  | [] => Some (ui, [])
  | e :: rest =>
      r1 <- handle ui e ;;
      r2 <- handleAll (fst r1) rest ;;
      Some (fst r2, snd r1 ++ snd r2)
  end.


Definition isClick (e : Event) : bool :=
  match e with click _ _ => true | choose _ => false end.

End Props.

End BoardView.



Definition charOk (k : Z) : bool :=
  match list_ascii_of_string (charAt k) with
  | [ch] => existsb (Ascii.eqb ch) (list_ascii_of_string roomCodeChars)
  | _ => false
  end.

(** The position after 1. e4. *)
Definition afterE4 : GameState :=
  Eval vm_compute in
    match playAll 2 startState [(mkPos 6 4, mkPos 4 4)] with
    | Some s => s
    | None => startState
    end.

(** 1. e4 a6 2. e5 d5: white to move can take the pawn on d5 in passing;
    and the position after it has. *)
Definition enPassantReady : GameState :=
  Eval vm_compute in
    match playAll 2 startState
            [(mkPos 6 4, mkPos 4 4); (mkPos 1 0, mkPos 2 0);
             (mkPos 4 4, mkPos 3 4); (mkPos 1 3, mkPos 3 3)] with
    | Some s => s
    | None => startState
    end.

Definition afterEnPassant : GameState :=
  Eval vm_compute in
    match playAll 2 enPassantReady [(mkPos 3 4, mkPos 2 3)] with
    | Some s => s
    | None => startState
    end.

(** [promotionState] after a7-a8 with a rook chosen. *)
Definition afterPromotion : GameState :=
  Eval vm_compute in
    match makeMove 2 promotionState (mkPos 1 0) (mkPos 0 0) (Some rook) with
    | Some (Some s) => s
    | _ => promotionState
    end.

(** A room with both seats free, a game being played from the initial
    position, and that game after white has resigned. *)
Definition emptyRoom : GameRoom.Room := GameRoom.mkRoom None None.

Definition playingState : GameState := withStatus startState playing.

Definition resignedState : GameState :=
  Eval vm_compute in
    match GameRoom.handleResign (Some emptyRoom) (Some playingState)
            (Some white) with
    | Some s => s
    | None => playingState
    end.

(** * Properties *)

(** ** Coordinates and the 64 squares *)

Lemma in_squares (r c : nat) :
  In (r, c) squares <-> (r < 8)%nat /\ (c < 8)%nat.
Proof.
  unfold squares. rewrite in_prod_iff, !in_seq. lia.
Qed.

Lemma getPiece_posOf (b : Board) (rc : nat * nat) :
  In rc squares -> getPiece b (posOf rc) = board_at b (fst rc) (snd rc).
Proof.
  destruct rc as [r c]. rewrite in_squares. intros [Hr Hc].
  unfold getPiece, isValidPosition, board_ix, posOf; simpl.
  replace (Z.of_nat r >=? 0) with true by (symmetry; apply Z.geb_le; lia).
  replace (Z.of_nat c >=? 0) with true by (symmetry; apply Z.geb_le; lia).
  replace (Z.of_nat r <? 8) with true by (symmetry; apply Z.ltb_lt; lia).
  replace (Z.of_nat c <? 8) with true by (symmetry; apply Z.ltb_lt; lia).
  replace (0 <=? Z.of_nat r) with true by (symmetry; apply Z.leb_le; lia).
  replace (0 <=? Z.of_nat c) with true by (symmetry; apply Z.leb_le; lia).
  simpl. now rewrite !Nat2Z.id.
Qed.

Lemma isValidPosition_iff (pos : Position) :
  isValidPosition pos = true <->
  0 <= row pos < 8 /\ 0 <= col pos < 8.
Proof.
  unfold isValidPosition.
  rewrite !andb_true_iff, !Z.geb_le, !Z.ltb_lt. lia.
Qed.

Lemma valid_in_squares (pos : Position) :
  isValidPosition pos = true ->
  exists rc, In rc squares /\ posOf rc = pos.
Proof.
  rewrite isValidPosition_iff. intros [Hr Hc].
  exists (Z.to_nat (row pos), Z.to_nat (col pos)). split.
  - apply in_squares. lia.
  - destruct pos as [r c]; unfold posOf; simpl in *.
    now rewrite !Z2Nat.id by lia.
Qed.

Lemma getPiece_valid (b : Board) (pos : Position) (p : Piece) :
  getPiece b pos = Some p -> isValidPosition pos = true.
Proof.
  unfold getPiece. destruct (isValidPosition pos); simpl; congruence.
Qed.

Lemma pos_eqb_eq (m p : Position) : pos_eqb m p = true <-> m = p.
Proof.
  unfold pos_eqb. rewrite andb_true_iff, !Z.eqb_eq.
  destruct m, p; simpl. split.
  - intros [-> ->]; reflexivity.
  - intros H; inversion H; auto.
Qed.

Lemma pos_eqb_refl (p : Position) : pos_eqb p p = true.
Proof. now apply pos_eqb_eq. Qed.

Lemma type_eqb_eq (a b : PieceType) : type_eqb a b = true <-> a = b.
Proof. destruct a, b; simpl; split; congruence. Qed.

Lemma color_eqb_eq (a b : PieceColor) : color_eqb a b = true <-> a = b.
Proof. destruct a, b; simpl; split; congruence. Qed.

Lemma existsb_pos_In (p : Position) (l : list Position) :
  existsb (fun m => pos_eqb m p) l = true <-> In p l.
Proof.
  rewrite existsb_exists. split.
  - intros [x [Hin Heq]]. apply pos_eqb_eq in Heq. now subst.
  - intros Hin. exists p. split; [assumption | apply pos_eqb_refl].
Qed.

(** ** Missing king *)

Lemma noKingb_sound (b : Board) (c : PieceColor) :
  noKingb b c = true -> noKing b c.
Proof.
  unfold noKingb, noKing. rewrite forallb_forall.
  intros H pos p Hp Hk Hc.
  destruct (valid_in_squares _ (getPiece_valid _ _ _ Hp)) as [rc [Hin <-]].
  specialize (H rc Hin). rewrite Hp in H.
  apply negb_true_iff in H.
  rewrite Hk, Hc in H. simpl in H.
  assert (color_eqb c c = true) by now apply color_eqb_eq.
  congruence.
Qed.

Lemma findKingIn_none (b : Board) (c : PieceColor) (sqs : list (nat * nat)) :
  noKing b c -> incl sqs squares -> findKingIn b c sqs = None.
Proof.
  intros Hno. induction sqs as [|rc rest IH]; intros Hincl; simpl.
  - reflexivity.
  - assert (Hin : In rc squares) by (apply Hincl; now left).
    assert (Hrest : incl rest squares)
      by (intros x Hx; apply Hincl; now right).
    pose proof (getPiece_posOf b rc Hin) as Hget.
    destruct (board_at b (fst rc) (snd rc)) as [p|] eqn:Hat; auto.
    destruct (type_eqb (type p) king) eqn:Ht; simpl; auto.
    destruct (color_eqb (color p) c) eqn:Hc; auto.
    exfalso. apply type_eqb_eq in Ht. apply color_eqb_eq in Hc.
    exact (Hno _ _ Hget Ht Hc).
Qed.

(** C10. On a board without a king of colour [c], [isInCheck(board, c)]
    returns [false] whatever [isSquareAttacked] would do: the attack test is
    not consulted, so the result does not depend on it nor on any call-depth
    budget, zero included. *)
Theorem isInCheck_without_king (b : Board) (c : PieceColor) :
  noKing b c ->
  findKing b c = None /\
  (forall attacked, isInCheckF attacked b c = Some false) /\
  (forall fuel, isInCheck fuel b c = Some false).
Proof.
  intros Hno.
  assert (Hk : findKing b c = None)
    by (apply findKingIn_none; [assumption | apply incl_refl]).
  split; [assumption|].
  split; intros; unfold isInCheck, isInCheckF; now rewrite Hk.
Qed.

Lemma isInCheck_without_king_witness :
  noKing loneWhiteKing black /\ isInCheck 0 loneWhiteKing black = Some false.
Proof.
  assert (H : noKing loneWhiteKing black)
    by (apply noKingb_sound; vm_compute; reflexivity).
  split; [exact H|].
  exact (proj2 (proj2 (isInCheck_without_king _ _ H)) 0%nat).
Defined.

(** ** Initial state and time control *)

Lemma splitOn_nonempty (sep : ascii) (s : string) : splitOn sep s <> [].
Proof.
  destruct s as [|ch rest]; simpl; [discriminate|].
  destruct (Ascii.eqb ch sep); [discriminate|].
  destruct (splitOn sep rest); discriminate.
Qed.

(** The first field of [split('+')] is the text before the first ['+']. *)
Lemma splitOn_first (mins rest : string) :
  noPlus mins ->
  hd EmptyString (splitOn "+"%char (mins ++ String "+"%char rest)) = mins.
Proof.
  induction mins as [|ch m IH]; intros Hno; simpl.
  - reflexivity.
  - destruct (Ascii.eqb ch "+"%char) eqn:E.
    + apply Ascii.eqb_eq in E. exfalso. apply (Hno ch); simpl; auto.
    + assert (Hm : noPlus m)
        by (intros c Hc; apply Hno; simpl; auto).
      specialize (IH Hm).
      destruct (splitOn "+"%char (m ++ String "+"%char rest)) as [|seg segs] eqn:Es.
      * exfalso. exact (splitOn_nonempty _ _ Es).
      * simpl in *. now subst.
Qed.

Lemma createInitialBoard_standard : createInitialBoard = standardBoard.
Proof. reflexivity. Qed.

(** C9 (as amended).  [createInitialGameState("10+0")] has the standard
    board with its 16 pawns, white to move, status [waiting] and both clocks
    at 600.  For an input [mins+inc] both clocks are [m * 60] when [mins]
    reads as a number [m] other than 0 (exactly representable, with its
    product by 60), and 600 when it reads as 0 or as NaN.  The text after the
    first ['+'] plays no part. *)
Theorem createInitialGameState_spec (Number : string -> option Z) :
  (Number "10"%string = Some 10 ->
   let s := createInitialGameState Number (Some "10+0"%string) in
   board s = standardBoard /\ countPieces pawn (board s) = 16%nat /\
   turn s = white /\ status s = waiting /\
   whiteTime s = 600 /\ blackTime s = 600) /\
  (forall mins inc m,
     noPlus mins -> Number mins = Some m -> m <> 0 ->
     Z.abs m * 60 <= 2 ^ 53 ->
     let s := createInitialGameState Number
                (Some (mins ++ String "+"%char inc))%string in
     whiteTime s = m * 60 /\ blackTime s = m * 60) /\
  (forall mins inc,
     noPlus mins -> Number mins = None \/ Number mins = Some 0 ->
     let s := createInitialGameState Number
                (Some (mins ++ String "+"%char inc))%string in
     whiteTime s = 600 /\ blackTime s = 600).
Proof.
  split; [|split].
  - intros H10. unfold createInitialGameState. simpl. rewrite H10.
    repeat split; reflexivity.
  - intros mins inc m Hno Hm Hnz _.
    unfold createInitialGameState; simpl.
    rewrite (splitOn_first mins inc Hno), Hm. simpl.
    destruct (m =? 0) eqn:E; [apply Z.eqb_eq in E; contradiction|].
    split; reflexivity.
  - intros mins inc Hno Hm.
    unfold createInitialGameState; simpl.
    rewrite (splitOn_first mins inc Hno).
    destruct Hm as [-> | ->]; simpl; split; reflexivity.
Qed.

Lemma noPlus_digits_25 : noPlus "25".
Proof.
  intros c Hc. simpl in Hc.
  destruct Hc as [<- | [<- | []]]; discriminate.
Qed.

Lemma noPlus_empty : noPlus "".
Proof. intros c []. Qed.

Lemma createInitialGameState_spec_witness :
  (let s := createInitialGameState NumberDec (Some "10+0"%string) in
   board s = standardBoard /\ countPieces pawn (board s) = 16%nat /\
   turn s = white /\ status s = waiting /\
   whiteTime s = 600 /\ blackTime s = 600) /\
  (let s := createInitialGameState NumberDec (Some "25+10"%string) in
   whiteTime s = 1500 /\ blackTime s = 1500) /\
  (let s := createInitialGameState NumberDec (Some "+3"%string) in
   whiteTime s = 600 /\ blackTime s = 600).
Proof.
  pose proof (createInitialGameState_spec NumberDec) as [H1 [H2 H3]].
  split; [|split].
  - apply H1. reflexivity.
  - apply (H2 "25"%string "10"%string 25).
    + exact noPlus_digits_25.
    + reflexivity.
    + lia.
    + vm_compute. discriminate.
  - apply (H3 ""%string "3"%string).
    + exact noPlus_empty.
    + right. reflexivity.
Defined.

(** C9, counterexample: the well-formed input ["0+5"] has [minutes = 0],
    and the clocks are set to 600, not to [0 * 60]. *)
Lemma createInitialGameState_zero_minutes :
  let s := createInitialGameState NumberDec (Some "0+5"%string) in
  NumberDec "0"%string = Some 0 /\
  whiteTime s = 600 /\ blackTime s = 600 /\ whiteTime s <> 0 * 60.
Proof.
  vm_compute. repeat split; discriminate.
Qed.

(** ** Shape of [makeMove] *)

(** What an accepted call has computed. *)
Lemma makeMove_accepted fuel s src dst promo s' :
  makeMove fuel s src dst promo = Some (Some s') ->
  exists p legal hasLegal,
    getPiece (board s) src = Some p /\ color p = turn s /\
    getLegalMoves fuel (board s) src (enPassantTarget s) = Some legal /\
    In dst legal /\
    scanLegal fuel (newBoardOf (board s) p src dst (enPassantTarget s) promo)
      (opponent (turn s)) (newEnPassantTargetOf p src dst) squares
    = Some hasLegal /\
    (if hasLegal
     then status s' = started (status s) /\ winner s' = None
     else exists chk,
         isInCheck fuel
           (newBoardOf (board s) p src dst (enPassantTarget s) promo)
           (opponent (turn s)) = Some chk /\
         status s' = (if chk then checkmate else stalemate) /\
         winner s' = (if chk then Some (turn s) else None)) /\
    board s' = newBoardOf (board s) p src dst (enPassantTarget s) promo /\
    turn s' = opponent (turn s) /\
    moves s' =
      moves s ++ [moveOf (board s) p src dst (enPassantTarget s) promo] /\
    lastMove s' = Some (moveOf (board s) p src dst (enPassantTarget s) promo) /\
    enPassantTarget s' = newEnPassantTargetOf p src dst /\
    drawOffer s' = drawOffer s /\
    whiteTime s' = whiteTime s /\ blackTime s' = blackTime s.
Proof.
  unfold makeMove. intros H.
  destruct (getPiece (board s) src) as [p|] eqn:Hp; [|discriminate].
  destruct (color_eqb (color p) (turn s)) eqn:Hc; cbn [negb] in H;
    [|discriminate].
  apply color_eqb_eq in Hc.
  destruct (getLegalMoves fuel (board s) src (enPassantTarget s))
    as [legal|] eqn:Hl; [|discriminate].
  destruct (existsb (fun m => pos_eqb m dst) legal) eqn:Hin;
    cbn [negb] in H; [|discriminate].
  apply existsb_pos_In in Hin.
  destruct (scanLegal fuel _ _ _ squares) as [hasLegal|] eqn:Hs;
    [|discriminate].
  exists p, legal, hasLegal.
  destruct hasLegal.
  - injection H as <-. cbn [board turn status moves whiteTime blackTime
      lastMove enPassantTarget winner drawOffer fst snd].
    unfold started. repeat (split; [solve [auto]|]). auto.
  - destruct (isInCheck fuel _ _) as [chk|] eqn:Hchk; [|discriminate].
    injection H as <-. cbn [board turn status moves whiteTime blackTime
      lastMove enPassantTarget winner drawOffer fst snd].
    repeat (split; [solve [auto]|]).
    split.
    + exists chk. destruct chk; cbn [fst snd]; auto.
    + repeat (split; [solve [auto]|]). auto.
Qed.

(** Name the facts of [makeMove_accepted] for an accepted call [H]. *)
Ltac accepted H :=
  apply makeMove_accepted in H;
  destruct H as (q & legal & hl & Hq & Hcol & Hl & Hin & Hscan & Hst &
                 Hb & Hturn & Hmoves & Hlast & He & Hd & Hwt & Hbt).

(** [makeMove] returns [null] exactly in the three cases of its two guards. *)
Lemma makeMove_null_iff fuel s src dst promo :
  makeMove fuel s src dst promo = Some None <->
  rejected fuel s src dst.
Proof.
  unfold rejected, makeMove.
  destruct (getPiece (board s) src) as [p|] eqn:Hp.
  2:{ split; auto. }
  destruct (color_eqb (color p) (turn s)) eqn:Hc; cbn [negb].
  2:{ split; auto. intros _. right; left. exists p. split; auto.
      intros E. apply color_eqb_eq in E. congruence. }
  apply color_eqb_eq in Hc.
  destruct (getLegalMoves fuel (board s) src (enPassantTarget s))
    as [legal|] eqn:Hl.
  2:{ split; [discriminate|].
      intros [H | [[q [Hq Hn]] | [q [l [Hq [_ [Hl' _]]]]]]];
        congruence. }
  destruct (existsb (fun m => pos_eqb m dst) legal) eqn:Hin; cbn [negb].
  - apply existsb_pos_In in Hin. split.
    + destruct (scanLegal fuel _ _ _ squares) as [[|]|]; try discriminate.
      destruct (isInCheck fuel _ _); discriminate.
    + intros [H | [[q [Hq Hn]] | [q [l [Hq [_ [Hl' Hn]]]]]]];
        congruence.
  - split; auto. intros _. right; right. exists p, legal.
    repeat split; auto.
    intros Hd. apply existsb_pos_In in Hd. congruence.
Qed.

(** C1 (as amended).  [makeMove] returns [null] exactly when there is no
    piece on [from], or that piece is not of the colour to move, or [to] is
    not among the legal destinations of [from].  [state.status] is not
    consulted: replacing it by any other status, terminal ones included,
    changes neither the rejection nor the acceptance of a move. *)
Theorem makeMove_rejects_iff fuel s src dst promo :
  (makeMove fuel s src dst promo = Some None <->
   getPiece (board s) src = None \/
   (exists p, getPiece (board s) src = Some p /\ color p <> turn s) \/
   (exists p legal,
       getPiece (board s) src = Some p /\ color p = turn s /\
       getLegalMoves fuel (board s) src (enPassantTarget s) = Some legal /\
       ~ In dst legal)) /\
  (forall st,
      (makeMove fuel (withStatus s st) src dst promo = Some None <->
       makeMove fuel s src dst promo = Some None) /\
      ((exists s1, makeMove fuel (withStatus s st) src dst promo
                   = Some (Some s1)) <->
       (exists s2, makeMove fuel s src dst promo = Some (Some s2)))).
Proof.
  split.
  - exact (makeMove_null_iff fuel s src dst promo).
  - intros st. unfold makeMove, withStatus.
    cbn [board turn status moves whiteTime blackTime
         lastMove enPassantTarget winner drawOffer].
    destruct (getPiece (board s) src) as [p|].
    2:{ split; [tauto|]. split; intros [x Hx]; discriminate. }
    destruct (negb (color_eqb (color p) (turn s))).
    1:{ split; [tauto|]. split; intros [x Hx]; discriminate. }
    destruct (getLegalMoves fuel (board s) src (enPassantTarget s))
      as [legal|].
    2:{ split; [tauto|]. split; intros [x Hx]; discriminate. }
    destruct (negb (existsb (fun m => pos_eqb m dst) legal)).
    1:{ split; [tauto|]. split; intros [x Hx]; discriminate. }
    destruct (scanLegal fuel _ _ _ squares) as [[|]|].
    + split; [split; discriminate|]. split; intros _; eexists; reflexivity.
    + destruct (isInCheck fuel _ _).
      * split; [split; discriminate|].
        split; intros _; eexists; reflexivity.
      * split; [tauto|]. split; intros [x Hx]; discriminate.
    + split; [tauto|]. split; intros [x Hx]; discriminate.
Qed.

(** C1, counterexample: in the starting position with status [resigned],
    the move e2-e4 is accepted, and the new state is still [resigned]. *)
Lemma makeMove_accepts_after_resignation :
  terminal (status (withStatus startState resigned)) /\
  exists s',
    makeMove 2 (withStatus startState resigned) (mkPos 6 4) (mkPos 4 4) None
    = Some (Some s') /\
    turn s' = black /\ status s' = resigned.
Proof.
  split.
  - unfold terminal; simpl; auto.
  - eexists. split; [vm_compute; reflexivity|]. split; reflexivity.
Qed.

(** C2 (as amended).  An accepted move leaves [drawOffer] as it was: the
    returned state carries the offer of the input state, pending or not. *)
Theorem makeMove_keeps_drawOffer fuel s src dst promo s' :
  makeMove fuel s src dst promo = Some (Some s') ->
  drawOffer s' = drawOffer s.
Proof.
  intros H. accepted H. exact Hd.
Qed.

Lemma makeMove_keeps_drawOffer_witness :
  exists s',
    makeMove 2 (withDrawOffer startState (Some white))
             (mkPos 6 4) (mkPos 4 4) None = Some (Some s') /\
    drawOffer s' = Some white.
Proof.
  eexists. split.
  - vm_compute. reflexivity.
  - exact (makeMove_keeps_drawOffer 2
             (withDrawOffer startState (Some white))
             (mkPos 6 4) (mkPos 4 4) None _ eq_refl).
Defined.

(** C2, counterexample: black has offered a draw, white plays e2-e4, and
    the offer is still there. *)
Lemma makeMove_drawOffer_survives :
  exists s',
    makeMove 2 (withDrawOffer startState (Some black))
             (mkPos 6 4) (mkPos 4 4) None = Some (Some s') /\
    drawOffer s' <> None.
Proof.
  eexists. split; [vm_compute; reflexivity|]. simpl. discriminate.
Qed.

(** ** Reading and writing squares *)

Lemma wfBoardb_sound (b : Board) : wfBoardb b = true -> wfBoard b.
Proof.
  unfold wfBoardb, wfBoard. rewrite andb_true_iff, forallb_forall, Forall_forall.
  intros [Hl Hr]. split.
  - now apply Nat.eqb_eq.
  - intros r Hin. apply Nat.eqb_eq. now apply Hr.
Qed.

Lemma list_set_length {A} (l : list A) (i : nat) (v : A) :
  List.length (list_set l i v) = List.length l.
Proof.
  revert i. induction l as [|x t IH]; intros [|i]; simpl; auto.
Qed.

Lemma list_set_nth_same {A} (l : list A) (i : nat) (v d : A) :
  (i < List.length l)%nat -> nth i (list_set l i v) d = v.
Proof.
  revert i. induction l as [|x t IH]; intros [|i] H; simpl in *;
    try lia; auto.
  apply IH. lia.
Qed.

Lemma list_set_nth_other {A} (l : list A) (i j : nat) (v d : A) :
  i <> j -> nth j (list_set l i v) d = nth j l d.
Proof.
  revert i j. induction l as [|x t IH]; intros [|i] [|j] H; simpl;
    auto; try congruence.
Qed.

Lemma cloneBoard_id (b : Board) : cloneBoard b = b.
Proof.
  unfold cloneBoard. rewrite <- (map_id b) at 2. apply map_ext.
  intros r. rewrite <- (map_id r) at 2. apply map_ext.
  intros [[t c h]|]; reflexivity.
Qed.

Lemma wfBoard_row (b : Board) (r : nat) :
  wfBoard b -> (r < 8)%nat -> List.length (nth r b []) = 8%nat.
Proof.
  intros [Hl Hr] Hlt. rewrite Forall_forall in Hr.
  apply Hr. apply nth_In. lia.
Qed.

Lemma board_set_wf (b : Board) (r c : Z) (v : Square) :
  wfBoard b -> wfBoard (board_set b r c v).
Proof.
  intros Hwf. unfold board_set.
  destruct ((0 <=? r) && (0 <=? c)); [|assumption].
  destruct Hwf as [Hl Hr]. split.
  - now rewrite list_set_length.
  - rewrite Forall_forall in *. intros x Hx.
    apply In_nth with (d := []) in Hx. destruct Hx as [n [Hn <-]].
    rewrite list_set_length in Hn.
    destruct (Nat.eq_dec (Z.to_nat r) n) as [<- | Hne].
    + rewrite list_set_nth_same by assumption.
      rewrite list_set_length. apply Hr. now apply nth_In.
    + rewrite list_set_nth_other by assumption.
      apply Hr. now apply nth_In.
Qed.

Lemma board_ix_set_same (b : Board) (r c : Z) (v : Square) :
  wfBoard b -> 0 <= r < 8 -> 0 <= c < 8 ->
  board_ix (board_set b r c v) r c = v.
Proof.
  intros Hwf Hr Hc. unfold board_ix, board_set, board_at.
  replace (0 <=? r) with true by (symmetry; apply Z.leb_le; lia).
  replace (0 <=? c) with true by (symmetry; apply Z.leb_le; lia).
  cbn [andb].
  rewrite list_set_nth_same by (destruct Hwf as [-> _]; lia).
  apply list_set_nth_same.
  rewrite wfBoard_row by (assumption || lia). lia.
Qed.

Lemma board_ix_set_other (b : Board) (r c r' c' : Z) (v : Square) :
  r <> r' \/ c <> c' ->
  board_ix (board_set b r c v) r' c' = board_ix b r' c'.
Proof.
  intros Hne. unfold board_ix, board_set, board_at.
  destruct ((0 <=? r') && (0 <=? c')) eqn:E'; [|reflexivity].
  destruct ((0 <=? r) && (0 <=? c)) eqn:E; [|reflexivity].
  apply andb_true_iff in E, E'. rewrite !Z.leb_le in E, E'.
  destruct (Nat.eq_dec (Z.to_nat r) (Z.to_nat r')) as [Er | Er].
  - assert (r = r') by lia. subst r'.
    destruct (Nat.lt_ge_cases (Z.to_nat r) (List.length b)) as [Hlt | Hge].
    + rewrite list_set_nth_same by assumption.
      apply list_set_nth_other. lia.
    + assert (Hn : forall l : list (list Square),
                 (List.length l <= Z.to_nat r)%nat ->
                 nth (Z.to_nat r) l [] = []) by (intros; now apply nth_overflow).
      rewrite (Hn (list_set b _ _)) by (rewrite list_set_length; lia).
      now rewrite (Hn b) by lia.
  - now rewrite list_set_nth_other by assumption.
Qed.

Lemma getPiece_board_ix (b : Board) (pos : Position) :
  isValidPosition pos = true -> getPiece b pos = board_ix b (row pos) (col pos).
Proof. unfold getPiece. now intros ->. Qed.

Lemma getPiece_set_same (b : Board) (pos : Position) (v : Square) :
  wfBoard b -> isValidPosition pos = true ->
  getPiece (board_set b (row pos) (col pos) v) pos = v.
Proof.
  intros Hwf Hv. rewrite getPiece_board_ix by assumption.
  apply isValidPosition_iff in Hv.
  apply board_ix_set_same; tauto.
Qed.

Lemma getPiece_set_other (b : Board) (r c : Z) (pos : Position) (v : Square) :
  r <> row pos \/ c <> col pos ->
  getPiece (board_set b r c v) pos = getPiece b pos.
Proof.
  intros Hne. unfold getPiece.
  destruct (isValidPosition pos); cbn [negb]; [|reflexivity].
  now apply board_ix_set_other.
Qed.

(** ** Legal moves are pseudo-legal moves *)

Lemma filterLegal_incl fuel b pos p ept rawMoves l :
  filterLegal fuel b pos p ept rawMoves = Some l -> incl l rawMoves.
Proof.
  revert l. induction rawMoves as [|m rest IH]; intros l H; cbn [filterLegal] in H.
  - injection H as <-. apply incl_refl.
  - destruct (isInCheck fuel _ _) as [chk|]; [|discriminate].
    destruct (filterLegal fuel b pos p ept rest) as [l0|]; [|discriminate].
    injection H as <-. specialize (IH l0 eq_refl).
    destruct chk.
    + now apply incl_tl.
    + intros x [<- | Hx]; [now left | right; now apply IH].
Qed.

Lemma getLegalMoves_raw fuel b pos ept p legal :
  getPiece b pos = Some p ->
  getLegalMoves fuel b pos ept = Some legal ->
  exists rawMoves,
    getRawMoves fuel b pos ept = Some rawMoves /\
    filterLegal fuel b pos p ept rawMoves = Some legal /\
    incl legal rawMoves.
Proof.
  intros Hp H. unfold getLegalMoves in H. rewrite Hp in H.
  destruct (getRawMoves fuel b pos ept) as [rawMoves|]; [|discriminate].
  exists rawMoves. repeat split; auto.
  eapply filterLegal_incl; eauto.
Qed.

(** ** Pawn moves *)

(** The squares a pawn on [pos] can be offered: one ahead in its own or a
    neighbouring file, or two ahead in its own file from the starting row. *)
Definition pawnTarget (pos : Position) (p : Piece) (m : Position) : Prop :=
  isValidPosition m = true /\
  ((row m = row pos + direction (color p) /\
    (col m = col pos \/ col m = col pos - 1 \/ col m = col pos + 1)) \/
   (m = mkPos (row pos + 2 * direction (color p)) (col pos))).

Lemma Forall_snoc {A} (P : A -> Prop) (l : list A) (x : A) :
  Forall P l -> P x -> Forall P (l ++ [x]).
Proof.
  intros Hl Hx. apply Forall_app. split; [assumption|]. now constructor.
Qed.

Lemma pawnMoves_targets b pos p ept :
  isValidPosition pos = true ->
  Forall (pawnTarget pos p) (pawnMoves b pos p ept).
Proof.
  intros Hv. unfold pawnMoves.
  set (d := direction (color p)).
  assert (Hfwd : forall m, isValidPosition m = true ->
                 row m = row pos + d -> col m = col pos \/
                 col m = col pos - 1 \/ col m = col pos + 1 ->
                 pawnTarget pos p m)
    by (intros m H1 H2 H3; split; [assumption | left; split; assumption]).
  match goal with
  | |- Forall _ (fold_left ?f _ ?fwd) =>
      assert (Hf : Forall (pawnTarget pos p) fwd);
      [| assert (Hstep : forall acc dc, dc = -1 \/ dc = 1 ->
                   Forall (pawnTarget pos p) acc ->
                   Forall (pawnTarget pos p) (f acc dc)) ]
  end.
  - destruct (isValidPosition (mkPos (row pos + d) (col pos))) eqn:E1;
      cbn [andb]; [|constructor].
    destruct (negb (occupied b _)); [|constructor].
    assert (H1 : pawnTarget pos p (mkPos (row pos + d) (col pos)))
      by (apply Hfwd; cbn [row col]; auto).
    destruct (row pos =? _) eqn:Es;
      [|apply Forall_cons; [assumption | constructor]].
    destruct (negb (occupied b _));
      [|apply Forall_cons; [assumption | constructor]].
    apply Forall_cons; [assumption|].
    apply Forall_cons; [|constructor]. split.
    + apply isValidPosition_iff in Hv. apply isValidPosition_iff.
      apply Z.eqb_eq in Es. cbn [row col]. subst d.
      destruct (color p); cbn [direction] in *; lia.
    + now right.
  - clear Hf. intros acc dc Hdc Hacc. cbv beta.
    destruct (isValidPosition (mkPos (row pos + d) (col pos + dc))) eqn:E;
      [|assumption].
    assert (Hc : pawnTarget pos p (mkPos (row pos + d) (col pos + dc)))
      by (apply Hfwd; cbn [row col]; auto; lia).
    assert (Hacc1 : Forall (pawnTarget pos p)
              match getPiece b (mkPos (row pos + d) (col pos + dc)) with
              | Some target =>
                  if negb (color_eqb (color target) (color p))
                  then acc ++ [mkPos (row pos + d) (col pos + dc)] else acc
              | None => acc
              end).
    { destruct (getPiece b _) as [t|]; [|assumption].
      destruct (negb (color_eqb (color t) (color p))); [|assumption].
      now apply Forall_snoc. }
    destruct ept as [e|]; [|assumption].
    destruct (pos_eqb _ e); [|assumption]. now apply Forall_snoc.
  - cbn [fold_left]. apply Hstep; [now right|].
    apply Hstep; [now left|]. assumption.
Qed.

Lemma legal_pawn_target fuel b pos ept p legal m :
  getPiece b pos = Some p -> type p = pawn ->
  getLegalMoves fuel b pos ept = Some legal -> In m legal ->
  pawnTarget pos p m.
Proof.
  intros Hp Ht Hl Hin.
  destruct (getLegalMoves_raw _ _ _ _ _ _ Hp Hl) as [rawMoves [Hr [_ Hincl]]].
  unfold getRawMoves, getRawMovesF in Hr. rewrite Hp, Ht in Hr.
  injection Hr as <-.
  pose proof (pawnMoves_targets b pos p ept (getPiece_valid _ _ _ Hp)) as HF.
  rewrite Forall_forall in HF. apply HF. now apply Hincl.
Qed.

(** ** En-passant target *)

(** C7.  After an accepted move the en-passant target is the square the
    pawn passed over when the move was a two-square pawn advance, and it is
    absent after every other accepted move, whatever the target of the input
    state was. *)
Theorem enPassantTarget_after_move fuel s src dst promo s' p :
  makeMove fuel s src dst promo = Some (Some s') ->
  getPiece (board s) src = Some p ->
  let twoAhead := mkPos (row src + 2 * direction (color p)) (col src) in
  let skipped := mkPos (row src + direction (color p)) (col src) in
  (type p = pawn /\ dst = twoAhead -> enPassantTarget s' = Some skipped) /\
  (~ (type p = pawn /\ dst = twoAhead) -> enPassantTarget s' = None).
Proof.
  intros H Hp twoAhead skipped.
  accepted H.
  assert (q = p) by congruence. subst q.
  rewrite He. unfold newEnPassantTargetOf, isDoubleStep.
  destruct (type_eqb (type p) pawn) eqn:Et; cbn [andb].
  - apply type_eqb_eq in Et.
    pose proof (legal_pawn_target _ _ _ _ _ _ _ Hp Et Hl Hin) as [_ Htg].
    split.
    + intros [_ ->]. subst twoAhead skipped. cbn [row col].
      replace (Z.abs (row src + 2 * direction (color p) - row src) =? 2)
        with true
        by (symmetry; apply Z.eqb_eq; destruct (color p); cbn [direction]; lia).
      f_equal. f_equal.
      replace (row src + (row src + 2 * direction (color p)))
        with ((row src + direction (color p)) * 2) by lia.
      apply Z.div_mul. lia.
    + intros Hn. destruct Htg as [[Hr _] | Hdd].
      * replace (Z.abs (row dst - row src) =? 2) with false; [reflexivity|].
        symmetry. apply Z.eqb_neq. rewrite Hr.
        destruct (color p); cbn [direction]; lia.
      * exfalso. apply Hn. split; assumption.
  - split; [|reflexivity].
    intros [Ht _]. apply type_eqb_eq in Ht. congruence.
Qed.

Lemma enPassantTarget_after_move_witness :
  exists s',
    makeMove 2 startState (mkPos 6 4) (mkPos 4 4) None = Some (Some s') /\
    enPassantTarget s' = Some (mkPos 5 4).
Proof.
  eexists. split.
  - vm_compute. reflexivity.
  - refine (proj1 (enPassantTarget_after_move 2 startState (mkPos 6 4)
                     (mkPos 4 4) None _ (mkPiece pawn white None)
                     eq_refl eq_refl) _).
    split; reflexivity.
Defined.

(** ** Promotion *)

Lemma getPiece_set (b : Board) (r c : Z) (v : Square) (pos : Position) :
  wfBoard b -> isValidPosition pos = true ->
  getPiece (board_set b r c v) pos =
  if (r =? row pos) && (c =? col pos) then v else getPiece b pos.
Proof.
  intros Hwf Hv.
  destruct ((r =? row pos) && (c =? col pos)) eqn:E.
  - apply andb_true_iff in E. rewrite !Z.eqb_eq in E. destruct E; subst.
    now apply getPiece_set_same.
  - apply andb_false_iff in E. rewrite !Z.eqb_neq in E.
    now apply getPiece_set_other.
Qed.

Lemma cloneBoard_wf (b : Board) : wfBoard b -> wfBoard (cloneBoard b).
Proof. now rewrite cloneBoard_id. Qed.

Create HintDb wf.
#[local] Hint Resolve board_set_wf cloneBoard_wf : wf.

(** C8 (as amended).  When an accepted move takes a pawn to row 0 or row 7,
    the square it arrives on holds a piece of the pawn's colour, marked as
    moved, whose type is the requested promotion type whatever that type is
    (king and pawn included), and a queen when no type is requested; the move
    record carries the same type. *)
Theorem promotion_piece fuel s src dst promo s' p :
  wfBoard (board s) ->
  makeMove fuel s src dst promo = Some (Some s') ->
  getPiece (board s) src = Some p ->
  type p = pawn -> row dst = 0 \/ row dst = 7 ->
  getPiece (board s') dst
    = Some (mkPiece (promotedType promo) (color p) (Some true)) /\
  option_map promotion (lastMove s') = Some (Some (promotedType promo)).
Proof.
  intros Hwf H Hp Hty Hrow. accepted H.
  assert (q = p) by congruence. subst q.
  pose proof (legal_pawn_target _ _ _ _ _ _ _ Hp Hty Hl Hin) as [Hv Htg].
  assert (Hpr : isPromotion p dst = true).
  { unfold isPromotion. rewrite Hty. cbn [type_eqb andb].
    apply orb_true_iff. rewrite !Z.eqb_eq. assumption. }
  split.
  - rewrite Hb. unfold newBoardOf, isCastling.
    rewrite Hty, Hpr. cbn [type_eqb andb].
    rewrite getPiece_set_other.
    2:{ left. destruct Htg as [[Hr _] | ->]; cbn [row];
        destruct (color p); cbn [direction] in *; lia. }
    apply getPiece_set_same; [|assumption].
    destruct (isEnPassant p (enPassantTarget s) dst); auto with wf.
  - rewrite Hlast. unfold moveOf. rewrite Hpr. reflexivity.
Qed.

Lemma promotion_piece_witness :
  exists s',
    makeMove 2 promotionState (mkPos 1 0) (mkPos 0 0) (Some knight)
    = Some (Some s') /\
    getPiece (board s') (mkPos 0 0)
    = Some (mkPiece knight white (Some true)).
Proof.
  eexists. split.
  - vm_compute. reflexivity.
  - refine (proj1 (promotion_piece 2 promotionState (mkPos 1 0) (mkPos 0 0)
                     (Some knight) _ (mkPiece pawn white (Some true))
                     _ eq_refl eq_refl eq_refl _)).
    + apply wfBoardb_sound. reflexivity.
    + left. reflexivity.
Defined.

(** C8, counterexample: with the promotion argument ['king'], which is not
    one of queen, rook, bishop and knight, the pawn becomes a king, not a
    queen. *)
Lemma promotion_to_king :
  exists s',
    makeMove 2 promotionState (mkPos 1 0) (mkPos 0 0) (Some king)
    = Some (Some s') /\
    option_map type (getPiece (board s') (mkPos 0 0)) = Some king /\
    option_map type (getPiece (board s') (mkPos 0 0)) <> Some queen.
Proof.
  eexists. split; [vm_compute; reflexivity|].
  split; [reflexivity | discriminate].
Qed.

(** ** Checkmate and stalemate *)

Lemma scanLegal_false fuel b c ept sqs :
  scanLegal fuel b c ept sqs = Some false ->
  forall rc p, In rc sqs -> board_at b (fst rc) (snd rc) = Some p ->
               color p = c -> getLegalMoves fuel b (posOf rc) ept = Some [].
Proof.
  induction sqs as [|x rest IH]; intros H rc p Hin Hat Hc.
  - destruct Hin.
  - cbn [scanLegal] in H.
    destruct Hin as [-> | Hin].
    + rewrite Hat in H.
      replace (color_eqb (color p) c) with true in H
        by (symmetry; now apply color_eqb_eq).
      destruct (getLegalMoves fuel b (posOf rc) ept) as [[|m ms]|];
        congruence.
    + apply IH with (p := p); auto.
      destruct (board_at b (fst x) (snd x)) as [q|]; [|assumption].
      destruct (color_eqb (color q) c); [|assumption].
      destruct (getLegalMoves fuel b (posOf x) ept) as [[|m ms]|];
        congruence.
Qed.

Lemma scanLegal_true fuel b c ept sqs :
  scanLegal fuel b c ept sqs = Some true ->
  exists rc p m ms,
    In rc sqs /\ board_at b (fst rc) (snd rc) = Some p /\ color p = c /\
    getLegalMoves fuel b (posOf rc) ept = Some (m :: ms).
Proof.
  induction sqs as [|x rest IH]; intros H; cbn [scanLegal] in H.
  - discriminate.
  - assert (Hrest : scanLegal fuel b c ept rest = Some true ->
                    exists rc p m ms,
                      In rc (x :: rest) /\
                      board_at b (fst rc) (snd rc) = Some p /\ color p = c /\
                      getLegalMoves fuel b (posOf rc) ept = Some (m :: ms)).
    { intros Hr. destruct (IH Hr) as (rc & p & m & ms & Hi & Hrest).
      exists rc, p, m, ms. split; [now right | assumption]. }
    destruct (board_at b (fst x) (snd x)) as [q|] eqn:Hat; [|auto].
    destruct (color_eqb (color q) c) eqn:Hc; [|auto].
    destruct (getLegalMoves fuel b (posOf x) ept) as [[|m ms]|] eqn:Hg;
      [auto | | discriminate].
    exists x, q, m, ms. apply color_eqb_eq in Hc.
    repeat split; auto. now left.
Qed.

Lemma scanLegal_noLegalMove fuel b c ept :
  scanLegal fuel b c ept squares = Some false -> noLegalMove fuel b c ept.
Proof.
  intros H pos p Hp Hc.
  destruct (valid_in_squares _ (getPiece_valid _ _ _ Hp)) as [rc [Hin <-]].
  apply (scanLegal_false _ _ _ _ _ H rc p); auto.
  now rewrite <- getPiece_posOf.
Qed.

Lemma scanLegal_someLegalMove fuel b c ept :
  scanLegal fuel b c ept squares = Some true -> someLegalMove fuel b c ept.
Proof.
  intros H. apply scanLegal_true in H.
  destruct H as (rc & p & m & ms & Hin & Hat & Hc & Hg).
  exists (posOf rc), p, m, ms. repeat split; auto.
  now rewrite getPiece_posOf.
Qed.

Lemma legal_moves_exclusive fuel b c ept :
  noLegalMove fuel b c ept -> someLegalMove fuel b c ept -> False.
Proof.
  intros Hno (pos & p & m & ms & Hp & Hc & Hg).
  rewrite (Hno pos p Hp Hc) in Hg. discriminate.
Qed.

(** C5 (as amended).  After an accepted move, either the side to move next
    has no legal destination for any of its pieces on the new board, or it
    has one.  In the first case the status is [checkmate] with the side that
    just moved as winner when the king of the side to move is in check, and
    [stalemate] without winner otherwise.  In the second case there is no
    winner and the status is that of the input state, with [waiting] turned
    into [playing]: it is [playing] when the input state was [waiting] or
    [playing]. *)
Theorem terminal_detection fuel s src dst promo s' :
  makeMove fuel s src dst promo = Some (Some s') ->
  (noLegalMove fuel (board s') (turn s') (enPassantTarget s') \/
   someLegalMove fuel (board s') (turn s') (enPassantTarget s')) /\
  (noLegalMove fuel (board s') (turn s') (enPassantTarget s') ->
   (isInCheck fuel (board s') (turn s') = Some true /\
    status s' = checkmate /\ winner s' = Some (turn s)) \/
   (isInCheck fuel (board s') (turn s') = Some false /\
    status s' = stalemate /\ winner s' = None)) /\
  (someLegalMove fuel (board s') (turn s') (enPassantTarget s') ->
   status s' = started (status s) /\ winner s' = None /\
   (status s = waiting \/ status s = playing -> status s' = playing)).
Proof.
  intros H. accepted H.
  rewrite Hb, Hturn, He.
  destruct hl.
  - pose proof (scanLegal_someLegalMove _ _ _ _ Hscan) as Hsome.
    destruct Hst as [Hs Hw].
    split; [now right|]. split.
    + intros Hno. exfalso. exact (legal_moves_exclusive _ _ _ _ Hno Hsome).
    + intros _. repeat split; auto.
      rewrite Hs. intros [-> | ->]; reflexivity.
  - pose proof (scanLegal_noLegalMove _ _ _ _ Hscan) as Hno.
    destruct Hst as [chk [Hchk [Hs Hw]]].
    split; [now left|]. split.
    + intros _. rewrite Hchk. destruct chk; [left | right]; auto.
    + intros Hsome. exfalso.
      exact (legal_moves_exclusive _ _ _ _ Hno Hsome).
Qed.

Lemma terminal_detection_witness :
  makeMove 2 beforeFoolsMate (mkPos 0 3) (mkPos 4 7) None
  = Some (Some afterFoolsMate) /\
  noLegalMove 2 (board afterFoolsMate) white (enPassantTarget afterFoolsMate) /\
  ((isInCheck 2 (board afterFoolsMate) white = Some true /\
    status afterFoolsMate = checkmate /\ winner afterFoolsMate = Some black) \/
   (isInCheck 2 (board afterFoolsMate) white = Some false /\
    status afterFoolsMate = stalemate /\ winner afterFoolsMate = None)).
Proof.
  assert (H : makeMove 2 beforeFoolsMate (mkPos 0 3) (mkPos 4 7) None
              = Some (Some afterFoolsMate)) by (vm_compute; reflexivity).
  assert (Hno : noLegalMove 2 (board afterFoolsMate) white
                  (enPassantTarget afterFoolsMate))
    by (apply scanLegal_noLegalMove; vm_compute; reflexivity).
  split; [exact H|]. split; [exact Hno|].
  exact (proj1 (proj2 (terminal_detection _ _ _ _ _ _ H)) Hno).
Defined.

(** C5, counterexample: from the starting position with status [draw],
    e2-e4 is accepted; black has legal moves (the a-pawn has two) and the
    status of the new state is [draw], not [playing]. *)
Lemma status_after_move_on_drawn_game :
  exists s',
    makeMove 2 (withStatus startState draw) (mkPos 6 4) (mkPos 4 4) None
    = Some (Some s') /\
    getLegalMoves 2 (board s') (mkPos 1 0) (enPassantTarget s')
    = Some [mkPos 2 0; mkPos 3 0] /\
    status s' = draw /\ status s' <> playing.
Proof.
  eexists. split; [vm_compute; reflexivity|].
  split; [vm_compute; reflexivity|].
  split; [reflexivity | discriminate].
Qed.

(** ** Castling *)

Lemma stepMoves_within b pos p offs (Q : Position -> Prop) :
  (forall d, In d offs -> Q (mkPos (row pos + fst d) (col pos + snd d))) ->
  Forall Q (stepMoves b pos p offs).
Proof.
  unfold stepMoves.
  assert (G : forall acc, Forall Q acc ->
              (forall d, In d offs ->
                         Q (mkPos (row pos + fst d) (col pos + snd d))) ->
              Forall Q (fold_left
                (fun acc d =>
                   let newPos := mkPos (row pos + fst d) (col pos + snd d) in
                   if isValidPosition newPos then
                     match getPiece b newPos with
                     | None => acc ++ [newPos]
                     | Some target =>
                         if negb (color_eqb (color target) (color p))
                         then acc ++ [newPos] else acc
                     end
                   else acc) offs acc)).
  { induction offs as [|d rest IH]; intros acc Hacc HQ; cbn [fold_left].
    - assumption.
    - apply IH; [|intros; apply HQ; now right].
      cbv zeta.
      destruct (isValidPosition _); [|assumption].
      assert (Hd : Q (mkPos (row pos + fst d) (col pos + snd d)))
        by (apply HQ; now left).
      destruct (getPiece b _) as [t|].
      + destruct (negb _); [now apply Forall_snoc | assumption].
      + now apply Forall_snoc. }
  intros HQ. apply G; [constructor | assumption].
Qed.

Lemma kingSteps_near b pos p m :
  In m (stepMoves b pos p kingSteps) -> Z.abs (col m - col pos) <= 1.
Proof.
  intros Hin.
  pose proof (stepMoves_within b pos p kingSteps
                (fun m => Z.abs (col m - col pos) <= 1)) as HF.
  rewrite Forall_forall in HF. apply HF; [|assumption].
  intros d Hd. cbn [col]. unfold kingSteps in Hd. cbn [In] in Hd.
  repeat (destruct Hd as [<- | Hd]; [cbn [snd]; lia|]). destruct Hd.
Qed.

Lemma noneAttacked_true attacked b r cols c :
  noneAttacked attacked b r cols c = Some true <->
  (forall x, In x cols -> attacked b (mkPos r x) c = Some false).
Proof.
  induction cols as [|x rest IH]; cbn [noneAttacked].
  - split; [intros _ y [] | reflexivity].
  - destruct (attacked b (mkPos r x) c) as [[|]|] eqn:E.
    + split; [discriminate|]. intros H.
      specialize (H x (or_introl eq_refl)). congruence.
    + rewrite IH. split.
      * intros H y [<- | Hy]; auto.
      * intros H y Hy. apply H. now right.
    + split; [discriminate|]. intros H.
      specialize (H x (or_introl eq_refl)). congruence.
Qed.

Lemma occupied_false b pos : occupied b pos = false <-> getPiece b pos = None.
Proof. unfold occupied. destruct (getPiece b pos); split; congruence. Qed.

(** What one side of the castling test returns. *)
Lemma castleSide_spec attacked b r p corner between safe dest l :
  castleSide attacked b r p corner between safe dest = Some l ->
  (l = [mkPos r dest] \/ l = []) /\
  (l = [mkPos r dest] <->
   (exists rk, getPiece b (mkPos r corner) = Some rk /\
               type rk = rook /\ moved rk = false) /\
   (forall x, In x between -> getPiece b (mkPos r x) = None) /\
   (forall x, In x safe -> attacked b (mkPos r x) (color p) = Some false)).
Proof.
  unfold castleSide. intros H.
  destruct (getPiece b (mkPos r corner)) as [rk|] eqn:Hrk.
  2:{ injection H as <-. split; [now right|].
      split; [discriminate|]. intros [[x [Hx _]] _]. discriminate. }
  destruct (type_eqb (type rk) rook && negb (moved rk)) eqn:Hrook.
  2:{ injection H as <-. split; [now right|].
      split; [discriminate|]. intros [[x [Hx [Ht Hm]]] _].
      injection Hx as <-. rewrite Ht, Hm in Hrook. discriminate. }
  apply andb_true_iff in Hrook. destruct Hrook as [Ht Hm].
  apply type_eqb_eq in Ht. apply negb_true_iff in Hm.
  destruct (forallb (fun x => negb (occupied b (mkPos r x))) between) eqn:Hb.
  2:{ injection H as <-. split; [now right|].
      split; [discriminate|]. intros [_ [He _]].
      assert (forallb (fun x => negb (occupied b (mkPos r x))) between = true).
      { apply forallb_forall. intros x Hx. apply negb_true_iff.
        apply occupied_false. now apply He. }
      congruence. }
  assert (He : forall x, In x between -> getPiece b (mkPos r x) = None).
  { intros x Hx. rewrite forallb_forall in Hb. specialize (Hb x Hx).
    apply negb_true_iff in Hb. now apply occupied_false. }
  destruct (noneAttacked attacked b r safe (color p)) as [ok|] eqn:Hna;
    [|discriminate].
  injection H as <-. destruct ok.
  - split; [now left|]. split; [|reflexivity].
    intros _. split; [exists rk; auto|]. split; [assumption|].
    now apply noneAttacked_true.
  - split; [now right|]. split; [discriminate|].
    intros [_ [_ Hs]]. apply noneAttacked_true in Hs. congruence.
Qed.

(** For a king on the e-file each castling destination is offered exactly
    under the castling conditions of its side. *)
Lemma castling_offered fuel b pos p ept ms :
  getPiece b pos = Some p -> type p = king -> col pos = 4 ->
  getRawMoves fuel b pos ept = Some ms ->
  (In (mkPos (row pos) 6) ms <->
   castleReady fuel b (row pos) p 7 [5; 6] [4; 5; 6]) /\
  (In (mkPos (row pos) 2) ms <->
   castleReady fuel b (row pos) p 0 [1; 2; 3] [4; 3; 2]).
Proof.
  intros Hp Hk Hc H.
  unfold getRawMoves, getRawMovesF in H. rewrite Hp, Hk in H.
  unfold kingMoves in H.
  assert (Hsteps : forall k, Z.abs (k - 4) = 2 ->
            ~ In (mkPos (row pos) k) (stepMoves b pos p kingSteps)).
  { intros k Hk2 Hin. apply kingSteps_near in Hin. cbn [col] in Hin. lia. }
  unfold castleReady.
  destruct (moved p) eqn:Hm; cbn [negb] in H.
  - injection H as <-.
    split; (split; [intros Hin; exfalso; revert Hin; apply Hsteps; lia
                   | intros [Hf _]; discriminate]).
  - destruct (castleSide _ b (row pos) p 7 _ _ 6) as [ks|] eqn:Hks;
      [|discriminate].
    destruct (castleSide _ b (row pos) p 0 _ _ 2) as [qs|] eqn:Hqs;
      [|discriminate].
    injection H as <-.
    apply castleSide_spec in Hks. destruct Hks as [Hk1 Hk2].
    apply castleSide_spec in Hqs. destruct Hqs as [Hq1 Hq2].
    split.
    + rewrite <- (and_assoc _ _ _) in Hk2. split.
      * intros Hin. apply in_app_or in Hin.
        destruct Hin as [Hin | Hin];
          [exfalso; revert Hin; apply Hsteps; lia|].
        apply in_app_or in Hin. destruct Hin as [Hin | Hin].
        -- split; [reflexivity|]. apply and_assoc. apply Hk2.
           destruct Hk1 as [-> | ->]; [reflexivity | destruct Hin].
        -- exfalso. destruct Hq1 as [-> | ->]; [|destruct Hin].
           destruct Hin as [Hin | []]. injection Hin. lia.
      * intros [_ Hcond]. apply and_assoc in Hcond. apply Hk2 in Hcond.
        rewrite Hcond. apply in_or_app. right. apply in_or_app. left.
        now left.
    + rewrite <- (and_assoc _ _ _) in Hq2. split.
      * intros Hin. apply in_app_or in Hin.
        destruct Hin as [Hin | Hin];
          [exfalso; revert Hin; apply Hsteps; lia|].
        apply in_app_or in Hin. destruct Hin as [Hin | Hin].
        -- exfalso. destruct Hk1 as [-> | ->]; [|destruct Hin].
           destruct Hin as [Hin | []]. injection Hin. lia.
        -- split; [reflexivity|]. apply and_assoc. apply Hq2.
           destruct Hq1 as [-> | ->]; [reflexivity | destruct Hin].
      * intros [_ Hcond]. apply and_assoc in Hcond. apply Hq2 in Hcond.
        rewrite Hcond. apply in_or_app. right. apply in_or_app. right.
        now left.
Qed.

Lemma valid_same_row (pos : Position) (k : Z) :
  isValidPosition pos = true -> 0 <= k < 8 ->
  isValidPosition (mkPos (row pos) k) = true.
Proof.
  rewrite !isValidPosition_iff. cbn [row col]. lia.
Qed.

Lemma moveOf_castling b p src dst ept promo :
  castling (moveOf b p src dst ept promo) =
  if isCastling p src dst
  then Some (if col dst >? col src then kingside else queenside) else None.
Proof. reflexivity. Qed.

Lemma newBoardOf_castle b p r ept promo kingTo :
  type p = king -> kingTo = 6 \/ kingTo = 2 ->
  newBoardOf b p (mkPos r 4) (mkPos r kingTo) ept promo =
  let corner := if kingTo =? 6 then 7 else 0 in
  let rookTo := if kingTo =? 6 then 5 else 3 in
  board_set
    (board_set
       (board_set
          (board_set b r rookTo (option_map markMoved (board_ix b r corner)))
          r corner None)
       r kingTo (Some (markMoved p)))
    r 4 None.
Proof.
  intros Hk Hto. unfold newBoardOf. rewrite cloneBoard_id.
  unfold isCastling, isEnPassant, isPromotion. rewrite Hk.
  cbn [type_eqb andb row col].
  destruct Hto as [-> | ->]; reflexivity.
Qed.

Lemma getPiece_sets b r c v k :
  wfBoard b -> 0 <= r < 8 -> 0 <= k < 8 ->
  getPiece (board_set b r c v) (mkPos r k) =
  if c =? k then v else getPiece b (mkPos r k).
Proof.
  intros Hwf Hr Hk. rewrite getPiece_set.
  - cbn [row col]. now rewrite Z.eqb_refl.
  - assumption.
  - apply isValidPosition_iff. cbn [row col]. lia.
Qed.

Lemma castled_board b p r kingTo :
  wfBoard b -> 0 <= r < 8 -> kingTo = 6 \/ kingTo = 2 ->
  let corner := if kingTo =? 6 then 7 else 0 in
  let rookTo := if kingTo =? 6 then 5 else 3 in
  let nb :=
    board_set
      (board_set
         (board_set
            (board_set b r rookTo (option_map markMoved (board_ix b r corner)))
            r corner None)
         r kingTo (Some (markMoved p)))
      r 4 None in
  getPiece nb (mkPos r kingTo) = Some (markMoved p) /\
  getPiece nb (mkPos r rookTo) = option_map markMoved (board_ix b r corner) /\
  getPiece nb (mkPos r 4) = None /\
  getPiece nb (mkPos r corner) = None.
Proof.
  intros Hwf Hr Hto. 
  destruct Hto as [-> | ->]; cbv zeta; change (6 =? 6) with true;
    change (2 =? 6) with false; cbv iota.
  - repeat split;
      repeat (rewrite getPiece_sets;
              [|solve [auto 10 with wf]|assumption|lia]);
      reflexivity.
  - repeat split;
      repeat (rewrite getPiece_sets;
              [|solve [auto 10 with wf]|assumption|lia]);
      reflexivity.
Qed.

Lemma castling_applied fuel s src promo s' p kingTo :
  kingTo = 6 \/ kingTo = 2 ->
  wfBoard (board s) ->
  getPiece (board s) src = Some p -> type p = king -> col src = 4 ->
  makeMove fuel s src (mkPos (row src) kingTo) promo = Some (Some s') ->
  let corner := if kingTo =? 6 then 7 else 0 in
  let rookTo := if kingTo =? 6 then 5 else 3 in
  let side := if kingTo =? 6 then kingside else queenside in
  let between := if kingTo =? 6 then [5; 6] else [1; 2; 3] in
  let safe := if kingTo =? 6 then [4; 5; 6] else [4; 3; 2] in
  castleReady fuel (board s) (row src) p corner between safe /\
  castled s s' p src corner rookTo kingTo side.
Proof.
  intros Hto Hwf Hp Hk Hc H corner rookTo side between safe.
  destruct src as [r c]. cbn [row col] in *. subst c.
  accepted H.
  assert (q = p) by congruence. subst q.
  pose proof (getPiece_valid _ _ _ Hp) as Hv.
  assert (Hr : 0 <= r < 8)
    by (apply isValidPosition_iff in Hv; cbn [row col] in Hv; tauto).
  destruct (getLegalMoves_raw _ _ _ _ _ _ Hp Hl) as [raw [Hraw [_ Hincl]]].
  apply Hincl in Hin.
  destruct (castling_offered _ _ _ _ _ _ Hp Hk eq_refl Hraw) as [Hks Hqs].
  cbn [row] in Hks, Hqs.
  assert (Hready : castleReady fuel (board s) r p corner between safe).
  { subst corner between safe.
    destruct Hto as [-> | ->]; [now apply Hks | now apply Hqs]. }
  split; [exact Hready|].
  destruct Hready as [_ [[rk [Hrk [Hrt _]]] _]].
  exists rk. cbn [row]. split; [assumption|]. split; [assumption|].
  assert (Hix : board_ix (board s) r corner = Some rk).
  { rewrite <- Hrk. symmetry.
    apply (getPiece_board_ix (board s) (mkPos r corner)).
    apply isValidPosition_iff. cbn [row col].
    subst corner. destruct Hto as [-> | ->]; cbn; lia. }
  pose proof (castled_board (board s) p r kingTo Hwf Hr Hto) as Hcb.
  cbv zeta in Hcb. fold corner rookTo in Hcb.
  rewrite Hix in Hcb. cbn [option_map] in Hcb.
  rewrite Hb, Hlast.
  rewrite (newBoardOf_castle (board s) p r (enPassantTarget s) promo
             kingTo Hk Hto).
  cbv zeta. fold corner rookTo. rewrite Hix. cbn [option_map].
  destruct Hcb as (H1 & H2 & H3 & H4).
  split; [exact H1|]. split; [exact H2|].
  split; [exact H3|]. split; [exact H4|].
  rewrite moveOf_castling. unfold isCastling. rewrite Hk.
  cbn [type_eqb andb col]. subst side.
  destruct Hto as [-> | ->]; reflexivity.
Qed.

(** C6 (as amended).  For a king standing on the e-file (column 4) of an
    8x8 board, and whenever the move generation
    returns, the kingside destination (column 6 of the king's row) is among
    the king's destinations if and only if the king has not moved, an unmoved
    rook stands on column 7 of that row, columns 5 and 6 are empty and
    columns 4, 5 and 6 are not attacked by the opponent; likewise for the
    queenside destination (column 2) with the rook on column 0, columns 1, 2,
    3 empty and columns 4, 3, 2 not attacked.  When such a move is applied,
    the same transition puts the king on its destination and the rook next
    to it (column 5, resp. 3), both marked as moved, and empties their
    squares of origin. *)
Theorem castling_spec fuel s src p :
  wfBoard (board s) ->
  getPiece (board s) src = Some p -> type p = king -> col src = 4 ->
  (forall ept ms,
      getRawMoves fuel (board s) src ept = Some ms ->
      (In (mkPos (row src) 6) ms <->
       castleReady fuel (board s) (row src) p 7 [5; 6] [4; 5; 6]) /\
      (In (mkPos (row src) 2) ms <->
       castleReady fuel (board s) (row src) p 0 [1; 2; 3] [4; 3; 2])) /\
  (forall promo s',
      makeMove fuel s src (mkPos (row src) 6) promo = Some (Some s') ->
      castled s s' p src 7 5 6 kingside) /\
  (forall promo s',
      makeMove fuel s src (mkPos (row src) 2) promo = Some (Some s') ->
      castled s s' p src 0 3 2 queenside).
Proof.
  intros Hwf Hp Hk Hc. split; [|split].
  - intros ept ms Hraw.
    exact (castling_offered fuel (board s) src p ept ms Hp Hk Hc Hraw).
  - intros promo s' H.
    exact (proj2 (castling_applied fuel s src promo s' p 6
                    (or_introl eq_refl) Hwf Hp Hk Hc H)).
  - intros promo s' H.
    exact (proj2 (castling_applied fuel s src promo s' p 2
                    (or_intror eq_refl) Hwf Hp Hk Hc H)).
Qed.

Lemma castling_spec_witness :
  castleReady 2 castlingBoard 7 (mkPiece king white None) 7 [5; 6] [4; 5; 6] /\
  castled castlingState afterKingsideCastle (mkPiece king white None)
          (mkPos 7 4) 7 5 6 kingside.
Proof.
  assert (Hwf : wfBoard (board castlingState))
    by (apply wfBoardb_sound; reflexivity).
  pose proof (castling_spec 2 castlingState (mkPos 7 4)
                (mkPiece king white None) Hwf eq_refl eq_refl eq_refl)
    as [Hoff [Hks _]].
  split.
  - refine (proj1 (proj1 (Hoff None _ _)) _).
    + vm_compute. reflexivity.
    + cbn [In row]. tauto.
  - apply (Hks None). vm_compute. reflexivity.
Defined.

(** C6, counterexample: an unmoved king on d1 is offered g1 although e1,
    between king and rook, is occupied; when that move is applied the king
    goes to g1 and the rook stays on h1. *)
Lemma castling_offered_over_occupied_square :
  exists ms s',
    getRawMoves 2 kingOnD1Board (mkPos 7 3) None = Some ms /\
    In (mkPos 7 6) ms /\
    getPiece kingOnD1Board (mkPos 7 4) = fresh bishop white /\
    makeMove 2 kingOnD1State (mkPos 7 3) (mkPos 7 6) None = Some (Some s') /\
    getPiece (board s') (mkPos 7 7) = fresh rook white /\
    getPiece (board s') (mkPos 7 5) = None.
Proof.
  eexists. eexists.
  split; [vm_compute; reflexivity|].
  split; [cbn [In]; tauto|].
  split; [reflexivity|].
  split; [vm_compute; reflexivity|].
  split; reflexivity.
Qed.

(** ** The attack test and castling call each other *)

Lemma attack_step_black rec :
  rec boardBe7 (mkPos 7 4) white = None ->
  isSquareAttackedF (fun b p => getRawMovesF rec b p None)
    boardBe7 (mkPos 0 4) black = None.
Proof.
  intros H. vm_compute. vm_compute in H. rewrite H. reflexivity.
Qed.

Lemma attack_step_white rec :
  rec boardBe7 (mkPos 0 4) black = None ->
  isSquareAttackedF (fun b p => getRawMovesF rec b p None)
    boardBe7 (mkPos 7 4) white = None.
Proof.
  intros H. vm_compute. vm_compute in H. rewrite H. reflexivity.
Qed.

Lemma attack_diverges fuel :
  isSquareAttacked fuel boardBe7 (mkPos 0 4) black = None /\
  isSquareAttacked fuel boardBe7 (mkPos 7 4) white = None.
Proof.
  induction fuel as [|n [IHb IHw]]; [split; reflexivity|].
  split; cbn [isSquareAttacked].
  - now apply attack_step_black.
  - now apply attack_step_white.
Qed.

Lemma getRawMoves_fuel_free fuel fuel' b pos ept p :
  getPiece b pos = Some p -> type p <> king ->
  getRawMoves fuel b pos ept = getRawMoves fuel' b pos ept.
Proof.
  intros Hp Hk. unfold getRawMoves, getRawMovesF. rewrite Hp.
  destruct (type p); try reflexivity. congruence.
Qed.

Lemma filterLegal_head_diverges fuel b pos p ept m rest :
  isInCheck fuel (testBoard b pos p ept m) (color p) = None ->
  filterLegal fuel b pos p ept (m :: rest) = None.
Proof. intros H. cbn [filterLegal]. now rewrite H. Qed.

Lemma makeMove_diverges fuel s src dst promo p :
  getPiece (board s) src = Some p -> color p = turn s ->
  getLegalMoves fuel (board s) src (enPassantTarget s) = None ->
  makeMove fuel s src dst promo = None.
Proof.
  intros Hp Hc Hl. unfold makeMove. rewrite Hp, Hl.
  replace (color_eqb (color p) (turn s)) with true
    by (symmetry; now apply color_eqb_eq).
  reflexivity.
Qed.

(** C3.  The attack test does consult castling availability: generating the
    moves of an attacking king runs the castling branch, which calls the
    attack test again.  After 1. e4 e5 2. Nf3 Nf6 3. Be2 (five accepted
    moves from the initial state) both kings have their kingside castling
    squares cleared once the bishop leaves f8, and on the scratch board of
    the reply Bf8-e7 the test for e8 calls the test for e1, which calls the
    test for e8 again: no call-depth budget lets [isSquareAttacked],
    [isInCheck], [getLegalMoves] or [makeMove] return. *)
Theorem attack_test_diverges :
  playAll 2 startState openingMoves = Some afterBe2 /\
  testBoard (board afterBe2) (mkPos 0 5) (mkPiece bishop black None)
            None (mkPos 1 4) = boardBe7 /\
  forall fuel,
    isSquareAttacked fuel boardBe7 (mkPos 0 4) black = None /\
    isInCheck fuel boardBe7 black = None /\
    getLegalMoves fuel (board afterBe2) (mkPos 0 5) None = None /\
    makeMove fuel afterBe2 (mkPos 0 5) (mkPos 1 4) None = None.
Proof.
  split; [vm_compute; reflexivity|].
  split; [vm_compute; reflexivity|].
  intros fuel.
  pose proof (attack_diverges fuel) as [Hb _].
  assert (Hchk : isInCheck fuel boardBe7 black = None).
  { unfold isInCheck, isInCheckF.
    replace (findKing boardBe7 black) with (Some (mkPos 0 4))
      by (vm_compute; reflexivity).
    exact Hb. }
  assert (Hl : getLegalMoves fuel (board afterBe2) (mkPos 0 5) None = None).
  { unfold getLegalMoves.
    replace (getPiece (board afterBe2) (mkPos 0 5))
      with (Some (mkPiece bishop black None)) by (vm_compute; reflexivity).
    rewrite (getRawMoves_fuel_free fuel 0 (board afterBe2) (mkPos 0 5) None
               (mkPiece bishop black None))
      by (reflexivity || discriminate).
    replace (getRawMoves 0 (board afterBe2) (mkPos 0 5) None)
      with (Some [mkPos 1 4; mkPos 2 3; mkPos 3 2; mkPos 4 1; mkPos 5 0])
      by (vm_compute; reflexivity).
    apply filterLegal_head_diverges.
    replace (testBoard (board afterBe2) (mkPos 0 5)
               (mkPiece bishop black None) None (mkPos 1 4))
      with boardBe7 by (vm_compute; reflexivity).
    exact Hchk. }
  repeat split; auto.
  apply makeMove_diverges with (p := mkPiece bishop black None); auto.
Qed.

(** ** The store: only fresh rows are written *)

Lemma board_set_length (b : Board) (r c : Z) (v : Square) :
  List.length (board_set b r c v) = List.length b.
Proof.
  unfold board_set. destruct ((0 <=? r) && (0 <=? c)); [|reflexivity].
  apply list_set_length.
Qed.

Lemma cloneBoard_length (b : Board) : List.length (cloneBoard b) = List.length b.
Proof. now rewrite cloneBoard_id. Qed.

Lemma list_set_overflow {A} (l : list A) (i : nat) (v : A) :
  (List.length l <= i)%nat -> list_set l i v = l.
Proof.
  revert i. induction l as [|x t IH]; intros [|i] H; simpl in *;
    try reflexivity; try lia.
  f_equal. apply IH. lia.
Qed.

Lemma list_set_app_r {A} (l1 l2 : list A) (i : nat) (v : A) :
  list_set (l1 ++ l2) (List.length l1 + i) v = l1 ++ list_set l2 i v.
Proof.
  induction l1 as [|x t IH]; simpl; [reflexivity|]. now rewrite IH.
Qed.

Lemma nth_app_r {A} (l1 l2 : list A) (i : nat) (d : A) :
  nth (List.length l1 + i) (l1 ++ l2) d = nth i l2 d.
Proof.
  rewrite app_nth2 by lia. f_equal. lia.
Qed.

Lemma readBoard_app (h ext : Imperative.Heap) (br : Imperative.BoardRef) :
  Imperative.allocated h br ->
  Imperative.readBoard (h ++ ext) br = Imperative.readBoard h br.
Proof.
  unfold Imperative.allocated, Imperative.readBoard. intros Hall.
  apply map_ext_in. intros l Hl. rewrite Forall_forall in Hall.
  apply app_nth1. now apply Hall.
Qed.

Lemma allocated_app (h ext : Imperative.Heap) (br : Imperative.BoardRef) :
  Imperative.allocated h br -> Imperative.allocated (h ++ ext) br.
Proof.
  unfold Imperative.allocated. rewrite !Forall_forall. intros H l Hl.
  rewrite length_app. specialize (H l Hl). lia.
Qed.

Lemma readBoard_fresh (h : Imperative.Heap) (rows : Board) (n : nat) :
  List.length rows = n ->
  Imperative.readBoard (h ++ rows) (seq (List.length h) n) = rows.
Proof.
  intros <-. unfold Imperative.readBoard.
  apply nth_ext with (d := []) (d' := []).
  - now rewrite length_map, length_seq.
  - intros i Hi. rewrite length_map, length_seq in Hi.
    rewrite (nth_indep _ [] (nth 0 (h ++ rows) []))
      by (rewrite length_map, length_seq; assumption).
    change (nth 0 (h ++ rows) []) with ((fun l => nth l (h ++ rows) []) 0%nat).
    rewrite map_nth, seq_nth by assumption.
    apply nth_app_r.
Qed.

Lemma allocated_fresh (h : Imperative.Heap) (rows : Board) (n : nat) :
  List.length rows = n ->
  Imperative.allocated (h ++ rows) (seq (List.length h) n).
Proof.
  intros <-. unfold Imperative.allocated. rewrite Forall_forall.
  intros l Hl. apply in_seq in Hl. rewrite length_app. lia.
Qed.

(** An assignment to a square of a freshly cloned board changes the new
    rows, as [board_set] does on the value, and nothing else. *)
Lemma assign_fresh (h : Imperative.Heap) (rows : Board) (n : nat)
      (r c : Z) (v : Square) :
  List.length rows = n ->
  Imperative.assign (seq (List.length h) n) r c v (h ++ rows)
  = Some (tt, h ++ board_set rows r c v).
Proof.
  intros <-. unfold Imperative.assign, board_set.
  destruct ((0 <=? r) && (0 <=? c)); [|reflexivity].
  destruct (nth_error _ (Z.to_nat r)) as [l|] eqn:E.
  - assert (Hlt : (Z.to_nat r < List.length rows)%nat).
    { assert (Hs : nth_error (seq (List.length h) (List.length rows))
                     (Z.to_nat r) <> None) by congruence.
      apply nth_error_Some in Hs. now rewrite length_seq in Hs. }
    apply nth_error_nth with (d := 0%nat) in E.
    rewrite seq_nth in E by assumption. subst l.
    now rewrite list_set_app_r, nth_app_r.
  - apply nth_error_None in E. rewrite length_seq in E.
    now rewrite list_set_overflow.
Qed.

Lemma bind_look {A B} br (f : Board -> A) (k : A -> Imperative.M B) h :
  Imperative.bind (Imperative.look br f) k h
  = k (f (Imperative.readBoard h br)) h.
Proof. reflexivity. Qed.

Lemma bind_call {A B} br (f : Board -> option A) (k : A -> Imperative.M B) h :
  Imperative.bind (Imperative.call br f) k h
  = match f (Imperative.readBoard h br) with
    | Some a => k a h
    | None => None
    end.
Proof.
  unfold Imperative.bind, Imperative.call.
  now destruct (f (Imperative.readBoard h br)).
Qed.

Lemma bind_ret {A B} (a : A) (k : A -> Imperative.M B) h :
  Imperative.bind (Imperative.ret a) k h = k a h.
Proof. reflexivity. Qed.

Lemma bind_clone {B} br (k : Imperative.BoardRef -> Imperative.M B) h :
  Imperative.bind (Imperative.cloneBoard br) k h
  = k (seq (List.length h) (List.length br))
      (h ++ cloneBoard (Imperative.readBoard h br)).
Proof. reflexivity. Qed.

Lemma bind_assign_fresh {B} h rows n r c v (k : unit -> Imperative.M B) :
  List.length rows = n ->
  Imperative.bind (Imperative.assign (seq (List.length h) n) r c v) k
                  (h ++ rows)
  = k tt (h ++ board_set rows r c v).
Proof.
  intros Hn. unfold Imperative.bind. now rewrite assign_fresh.
Qed.

Lemma bind_look_fresh {A B} h rows n (f : Board -> A)
      (k : A -> Imperative.M B) :
  List.length rows = n ->
  Imperative.bind (Imperative.look (seq (List.length h) n) f) k (h ++ rows)
  = k (f rows) (h ++ rows).
Proof.
  intros Hn. rewrite bind_look. now rewrite readBoard_fresh.
Qed.

Lemma bind_call_fresh {A B} h rows n (f : Board -> option A)
      (k : A -> Imperative.M B) :
  List.length rows = n ->
  Imperative.bind (Imperative.call (seq (List.length h) n) f) k (h ++ rows)
  = match f rows with
    | Some a => k a (h ++ rows)
    | None => None
    end.
Proof.
  intros Hn. rewrite bind_call. now rewrite readBoard_fresh.
Qed.

Lemma readBoard_length h br :
  List.length (Imperative.readBoard h br) = List.length br.
Proof. unfold Imperative.readBoard. apply length_map. Qed.

Lemma filterLegal_step fuel br pos p ept move rest h :
  Imperative.filterLegal fuel br pos p ept (move :: rest) h
  = let b := Imperative.readBoard h br in
    match isInCheck fuel (testBoard b pos p ept move) (color p) with
    | Some chk =>
        Imperative.bind (Imperative.filterLegal fuel br pos p ept rest)
          (fun l => Imperative.ret (if chk then l else move :: l))
          (h ++ testBoard b pos p ept move)
    | None => None
    end.
Proof.
  cbn [Imperative.filterLegal]. cbv zeta.
  rewrite bind_clone.
  set (b := Imperative.readBoard h br).
  assert (Hlen : List.length (cloneBoard b) = List.length br)
    by (rewrite cloneBoard_length; apply readBoard_length).
  rewrite bind_assign_fresh by assumption.
  rewrite bind_assign_fresh by (now rewrite board_set_length).
  assert (Htl : List.length (testBoard b pos p ept move) = List.length br).
  { unfold testBoard. destruct (isEnPassant p ept move);
      now rewrite !board_set_length. }
  unfold testBoard in *. unfold Imperative.when.
  destruct (isEnPassant p ept move).
  - rewrite bind_assign_fresh by (now rewrite !board_set_length).
    now rewrite bind_call_fresh by assumption.
  - rewrite bind_ret. now rewrite bind_call_fresh by assumption.
Qed.

Lemma filterLegal_refines fuel br pos p ept rawMoves h :
  Imperative.allocated h br ->
  refines (Imperative.filterLegal fuel br pos p ept rawMoves) h
          (filterLegal fuel (Imperative.readBoard h br) pos p ept rawMoves).
Proof.
  revert h. induction rawMoves as [|move rest IH]; intros h Hall.
  - exists []. cbn. now rewrite app_nil_r.
  - unfold refines. rewrite filterLegal_step. cbv zeta.
    cbn [filterLegal].
    set (b := Imperative.readBoard h br) in *.
    destruct (isInCheck fuel (testBoard b pos p ept move) (color p))
      as [chk|]; [|reflexivity].
    specialize (IH (h ++ testBoard b pos p ept move) (allocated_app _ _ _ Hall)).
    rewrite (readBoard_app _ _ _ Hall) in IH. fold b in IH.
    unfold refines in IH. unfold Imperative.bind.
    destruct (filterLegal fuel b pos p ept rest) as [l|].
    + destruct IH as [ext IH]. rewrite IH.
      exists (testBoard b pos p ept move ++ ext).
      unfold Imperative.ret. now rewrite app_assoc.
    + now rewrite IH.
Qed.

Lemma getLegalMoves_refines fuel br pos ept h :
  Imperative.allocated h br ->
  refines (Imperative.getLegalMoves fuel br pos ept) h
          (getLegalMoves fuel (Imperative.readBoard h br) pos ept).
Proof.
  intros Hall. unfold Imperative.getLegalMoves, getLegalMoves, refines.
  rewrite bind_look.
  destruct (getPiece (Imperative.readBoard h br) pos) as [p|].
  - rewrite bind_call.
    destruct (getRawMoves fuel (Imperative.readBoard h br) pos ept)
      as [rawMoves|]; [|reflexivity].
    now apply filterLegal_refines.
  - exists []. unfold Imperative.ret. now rewrite app_nil_r.
Qed.

Lemma scanLegal_refines fuel br c ept sqs h :
  Imperative.allocated h br ->
  refines (Imperative.scanLegal fuel br c ept sqs) h
          (scanLegal fuel (Imperative.readBoard h br) c ept sqs).
Proof.
  revert h. induction sqs as [|rc rest IH]; intros h Hall.
  - exists []. cbn. now rewrite app_nil_r.
  - unfold refines. cbn [Imperative.scanLegal scanLegal].
    rewrite bind_look.
    destruct (board_at (Imperative.readBoard h br) (fst rc) (snd rc)) as [p|];
      [|now apply IH].
    destruct (color_eqb (color p) c); [|now apply IH].
    pose proof (getLegalMoves_refines fuel br (posOf rc) ept h Hall) as Hg.
    unfold refines in Hg. unfold Imperative.bind.
    destruct (getLegalMoves fuel (Imperative.readBoard h br) (posOf rc) ept)
      as [ms|]; [|now rewrite Hg].
    destruct Hg as [ext Hg]. rewrite Hg.
    destruct ms as [|m ms].
    + specialize (IH (h ++ ext) (allocated_app _ _ _ Hall)).
      rewrite (readBoard_app _ _ _ Hall) in IH. unfold refines in IH.
      destruct (scanLegal fuel (Imperative.readBoard h br) c ept rest) as [v|].
      * destruct IH as [ext' IH]. exists (ext ++ ext').
        now rewrite app_assoc.
      * assumption.
    + exists ext. reflexivity.
Qed.

Lemma bind_assoc {A B C} (m : Imperative.M A) (k1 : A -> Imperative.M B)
      (k2 : B -> Imperative.M C) h :
  Imperative.bind (Imperative.bind m k1) k2 h
  = Imperative.bind m (fun a => Imperative.bind (k1 a) k2) h.
Proof.
  unfold Imperative.bind. destruct (m h) as [[a h1]|]; reflexivity.
Qed.

Lemma enPassant_not_castling p ept src dst :
  isEnPassant p ept dst = true -> isCastling p src dst = false.
Proof.
  unfold isEnPassant, isCastling. intros H.
  apply andb_true_iff in H. destruct H as [H _].
  apply type_eqb_eq in H. now rewrite H.
Qed.

(** Run the assignments and reads of a freshly cloned board. *)
Ltac fresh_len :=
  solve [rewrite ?board_set_length; assumption].

Ltac exec H :=
  repeat (cbv iota beta in H;
          first [ rewrite bind_assoc in H
                | rewrite bind_ret in H
                | rewrite bind_look_fresh in H by fresh_len
                | rewrite bind_assign_fresh in H by fresh_len ]).

(** The scan for a legal reply and the construction of the new state. *)
Ltac finish_move Hrun Hfin ext1 :=
  match type of Hrun with
  | _ = Imperative.bind (Imperative.scanLegal ?fuel ?nb ?c ?e squares) _
                        (?hh ++ ?R) =>
      let rowsF := fresh "rowsF" in
      let HlenF := fresh "HlenF" in
      let Hs := fresh "Hs" in
      let ext2 := fresh "ext2" in
      set (rowsF := R) in *;
      assert (HlenF : List.length rowsF = List.length nb)
        by (subst rowsF; rewrite length_seq, ?board_set_length; assumption);
      rewrite length_seq in HlenF;
      pose proof (scanLegal_refines fuel nb c e squares (hh ++ rowsF)
                    (allocated_fresh hh rowsF _ HlenF)) as Hs;
      rewrite (readBoard_fresh hh rowsF _ HlenF) in Hs;
      unfold refines in Hs;
      unfold Imperative.bind at 1 in Hrun;
      destruct (scanLegal fuel rowsF c e squares) as [[|]|];
      [ destruct Hs as [ext2 Hs]; rewrite Hs in Hrun;
        cbv iota beta in Hrun; rewrite bind_ret in Hrun;
        unfold Imperative.ret in Hrun;
        exists (ext1 ++ rowsF ++ ext2); eexists;
        split; [rewrite Hrun, !app_assoc; reflexivity|];
        destruct (Hfin rowsF ext2 HlenF) as [Hd Ha];
        split; [|exact Ha];
        unfold Imperative.deref in *;
        cbn [Imperative.board Imperative.turn Imperative.status
             Imperative.moves Imperative.whiteTime Imperative.blackTime
             Imperative.lastMove Imperative.enPassantTarget Imperative.winner
             Imperative.drawOffer fst snd] in *;
        injection Hd as Hd; rewrite Hd; reflexivity
      | destruct Hs as [ext2 Hs]; rewrite Hs in Hrun;
        cbv iota beta in Hrun; rewrite bind_assoc, bind_call in Hrun;
        rewrite readBoard_app in Hrun by (now apply allocated_fresh);
        rewrite (readBoard_fresh hh rowsF _ HlenF) in Hrun;
        destruct (isInCheck fuel rowsF c) as [chk|]; [|assumption];
        rewrite !bind_ret in Hrun; unfold Imperative.ret in Hrun;
        exists (ext1 ++ rowsF ++ ext2); eexists;
        split; [rewrite Hrun, !app_assoc; reflexivity|];
        destruct (Hfin rowsF ext2 HlenF) as [Hd Ha];
        split; [|exact Ha];
        unfold Imperative.deref in *;
        cbn [Imperative.board Imperative.turn Imperative.status
             Imperative.moves Imperative.whiteTime Imperative.blackTime
             Imperative.lastMove Imperative.enPassantTarget Imperative.winner
             Imperative.drawOffer fst snd] in *;
        injection Hd as Hd; rewrite Hd; destruct chk; reflexivity
      | rewrite Hs in Hrun; assumption ]
  end.

Lemma makeMove_refines fuel s src dst promo h :
  Imperative.allocated h (Imperative.board s) ->
  match makeMove fuel (Imperative.deref h s) src dst promo with
  | None => Imperative.makeMove fuel s src dst promo h = None
  | Some None =>
      exists ext, Imperative.makeMove fuel s src dst promo h
                  = Some (None, h ++ ext)
  | Some (Some s') =>
      exists ext so,
        Imperative.makeMove fuel s src dst promo h = Some (Some so, h ++ ext) /\
        Imperative.deref (h ++ ext) so = s' /\
        Imperative.allocated (h ++ ext) (Imperative.board so)
  end.
Proof.
  intros Hall.
  remember (Imperative.makeMove fuel s src dst promo h) as run eqn:Hrun.
  unfold Imperative.makeMove in Hrun.
  unfold makeMove, Imperative.deref.
  cbn [board turn status moves whiteTime blackTime lastMove enPassantTarget
       winner drawOffer].
  unfold newBoardOf, moveOf, promotedType in *.
  set (b := Imperative.readBoard h (Imperative.board s)) in *.
  rewrite bind_look in Hrun. fold b in Hrun.
  destruct (getPiece b src) as [p|] eqn:Hp.
  2:{ exists []. now rewrite app_nil_r. }
  destruct (negb (color_eqb (color p) (Imperative.turn s))) eqn:Hc.
  1:{ exists []. now rewrite app_nil_r. }
  pose proof (getLegalMoves_refines fuel (Imperative.board s) src
                (Imperative.enPassantTarget s) h Hall) as Hg.
  unfold refines in Hg. fold b in Hg.
  unfold Imperative.bind at 1 in Hrun.
  destruct (getLegalMoves fuel b src (Imperative.enPassantTarget s))
    as [legal|] eqn:Hl.
  2:{ now rewrite Hg in Hrun. }
  destruct Hg as [ext1 Hg]. rewrite Hg in Hrun.
  destruct (negb (existsb (fun m => pos_eqb m dst) legal)) eqn:Hin.
  1:{ exists ext1. assumption. }
  rewrite bind_look, bind_clone in Hrun.
  rewrite (readBoard_app _ _ _ Hall) in Hrun. fold b in Hrun.
  set (h1 := h ++ ext1) in *. set (n := List.length (Imperative.board s)) in *.
  assert (Hn : List.length (cloneBoard b) = n)
    by (rewrite cloneBoard_length; apply readBoard_length).
  rewrite bind_look_fresh in Hrun by assumption.
  assert (Hfin : forall rowsF ext,
             List.length rowsF = n ->
             Imperative.deref (h ++ ext1 ++ rowsF ++ ext)
               {| Imperative.board := seq (List.length h1) n;
                  Imperative.turn := opponent (Imperative.turn s);
                  Imperative.status := Imperative.status s;
                  Imperative.moves := [];
                  Imperative.whiteTime := 0;
                  Imperative.blackTime := 0;
                  Imperative.lastMove := None;
                  Imperative.enPassantTarget := None;
                  Imperative.winner := None;
                  Imperative.drawOffer := None |}
             = mkState rowsF (opponent (Imperative.turn s))
                       (Imperative.status s) [] 0 0 None None None None /\
             Imperative.allocated (h ++ ext1 ++ rowsF ++ ext)
                                  (seq (List.length h1) n)).
  { intros rowsF ext HlenF. rewrite !app_assoc. fold h1. split.
    - unfold Imperative.deref.
      cbn [Imperative.board Imperative.turn Imperative.status
           Imperative.moves Imperative.whiteTime Imperative.blackTime
           Imperative.lastMove Imperative.enPassantTarget Imperative.winner
           Imperative.drawOffer].
      rewrite readBoard_app by (now apply allocated_fresh).
      now rewrite readBoard_fresh.
    - apply allocated_app. now apply allocated_fresh. }
  destruct (isEnPassant p (Imperative.enPassantTarget s) dst) eqn:Hep.
  - rewrite (enPassant_not_castling _ _ src _ Hep) in *. exec Hrun.
    destruct (isPromotion p dst); exec Hrun; finish_move Hrun Hfin ext1.
  - exec Hrun.
    destruct (isCastling p src dst); exec Hrun;
      (destruct (isPromotion p dst); exec Hrun; finish_move Hrun Hfin ext1).
Qed.

(** C4.  When [makeMove] rejects (no piece on [from], a piece of the wrong
    colour, or a destination that is not among the legal ones) the call
    returns [null], and the store it leaves is the store it found followed by
    scratch rows: every row array allocated before the call holds what it
    held, so the board of the input state, and with it the whole state
    (turn, move list and the other fields are never assigned to), equals its
    value before the call. *)
Theorem rejection_leaves_state_unchanged fuel h s src dst promo :
  Imperative.allocated h (Imperative.board s) ->
  rejected fuel (Imperative.deref h s) src dst ->
  exists h',
    Imperative.makeMove fuel s src dst promo h = Some (None, h') /\
    Imperative.deref h' s = Imperative.deref h s /\
    (forall l, (l < List.length h)%nat -> nth l h' [] = nth l h []) /\
    (forall br, Imperative.allocated h br ->
                Imperative.readBoard h' br = Imperative.readBoard h br).
Proof.
  intros Hall Hrej.
  apply makeMove_null_iff with (promo := promo) in Hrej.
  pose proof (makeMove_refines fuel s src dst promo h Hall) as Href.
  rewrite Hrej in Href. destruct Href as [ext Href].
  exists (h ++ ext). split; [exact Href|]. split; [|split].
  - unfold Imperative.deref. now rewrite readBoard_app.
  - intros l Hl. now apply app_nth1.
  - intros br Hbr. now apply readBoard_app.
Qed.

Lemma startObject_allocated :
  Imperative.allocated startHeap (Imperative.board startObject).
Proof.
  unfold Imperative.allocated. rewrite Forall_forall.
  intros l Hl. apply in_seq in Hl.
  replace (List.length startHeap) with 8%nat by (vm_compute; reflexivity).
  cbn [Imperative.board startObject] in Hl. lia.
Qed.

Lemma rejection_leaves_state_unchanged_witness :
  rejected 2 (Imperative.deref startHeap startObject) (mkPos 6 4) (mkPos 3 4) /\
  exists h',
    Imperative.makeMove 2 startObject (mkPos 6 4) (mkPos 3 4) None startHeap
    = Some (None, h') /\
    Imperative.deref h' startObject = Imperative.deref startHeap startObject.
Proof.
  assert (Hrej : rejected 2 (Imperative.deref startHeap startObject)
                   (mkPos 6 4) (mkPos 3 4)).
  { right. right.
    exists (mkPiece pawn white None), [mkPos 5 4; mkPos 4 4].
    split; [vm_compute; reflexivity|]. split; [reflexivity|].
    split; [vm_compute; reflexivity|].
    cbn [In]. intros [H | [H | []]]; discriminate. }
  split; [exact Hrej|].
  destruct (rejection_leaves_state_unchanged 2 startHeap startObject
              (mkPos 6 4) (mkPos 3 4) None startObject_allocated Hrej)
    as [h' [Hrun [Hd _]]].
  exists h'. split; assumption.
Defined.

(** ** The iteration bound of the sliding loop *)

Lemma slide_stable (k : nat) :
  forall n m b r c dr dc clr acc,
    (k <= n)%nat -> (k <= m)%nat ->
    isValidPosition (mkPos (r + Z.of_nat k * dr) (c + Z.of_nat k * dc)) = false ->
    slide n b r c dr dc clr acc = slide m b r c dr dc clr acc.
Proof.
  induction k as [|k IH]; intros n m b r c dr dc clr acc Hn Hm Hout.
  - change (Z.of_nat 0) with 0 in Hout.
    rewrite !Z.mul_0_l, !Z.add_0_r in Hout.
    destruct n, m; cbn [slide]; rewrite ?Hout; reflexivity.
  - destruct n as [|n]; [lia|]. destruct m as [|m]; [lia|].
    cbn [slide].
    destruct (isValidPosition (mkPos r c)); [|reflexivity].
    destruct (getPiece b (mkPos r c)); [reflexivity|].
    apply IH; try lia.
    replace (r + dr + Z.of_nat k * dr) with (r + Z.of_nat (S k) * dr) by lia.
    replace (c + dc + Z.of_nat k * dc) with (c + Z.of_nat (S k) * dc) by lia.
    assumption.
Qed.

(** From a square of the grid the loop of [addSlidingMoves] has left the
    grid after at most eight steps: more iterations change nothing. *)
Lemma slide_enough n b pos dr dc clr acc :
  isValidPosition pos = true ->
  -1 <= dr <= 1 -> -1 <= dc <= 1 -> dr <> 0 \/ dc <> 0 ->
  (8 <= n)%nat ->
  slide n b (row pos + dr) (col pos + dc) dr dc clr acc
  = addSlidingMoves b pos dr dc clr acc.
Proof.
  intros Hv Hdr Hdc Hnz Hn. unfold addSlidingMoves.
  apply slide_stable with (k := 7%nat); try lia.
  apply isValidPosition_iff in Hv.
  apply not_true_is_false. rewrite isValidPosition_iff. cbn [row col].
  lia.
Qed.
(** ** A larger call-depth budget never changes a result *)

Lemma below_refl {A} (v : option A) : below v v.
Proof. intros a H; exact H. Qed.

Lemma below_bind {A B} (v v' : option A) (k k' : A -> option B) :
  below v v' -> (forall a, below (k a) (k' a)) ->
  below (match v with Some a => k a | None => None end)
        (match v' with Some a => k' a | None => None end).
Proof.
  intros Hv Hk b H. destruct v as [a|]; [|discriminate].
  rewrite (Hv a eq_refl). now apply Hk.
Qed.

Section Monotone.

Variables attacked attacked' : Board -> Position -> PieceColor -> option bool.
Hypothesis attacked_below :
  forall b p c, below (attacked b p c) (attacked' b p c).

Lemma noneAttacked_mono b r cols c :
  below (noneAttacked attacked b r cols c) (noneAttacked attacked' b r cols c).
Proof.
  induction cols as [|x rest IH]; cbn [noneAttacked].
  - apply below_refl.
  - apply below_bind; [apply attacked_below|].
    intros [|]; [apply below_refl | exact IH].
Qed.

Lemma castleSide_mono b r p corner between safe dest :
  below (castleSide attacked b r p corner between safe dest)
        (castleSide attacked' b r p corner between safe dest).
Proof.
  unfold castleSide.
  destruct (getPiece b (mkPos r corner)) as [rk|]; [|apply below_refl].
  destruct (type_eqb (type rk) rook && negb (moved rk)); [|apply below_refl].
  destruct (forallb _ between); [|apply below_refl].
  apply below_bind; [apply noneAttacked_mono|].
  intros ok. apply below_refl.
Qed.

Lemma getRawMovesF_mono b pos ept :
  below (getRawMovesF attacked b pos ept) (getRawMovesF attacked' b pos ept).
Proof.
  unfold getRawMovesF.
  destruct (getPiece b pos) as [p|]; [|apply below_refl].
  destruct (type p); try apply below_refl.
  unfold kingMoves. destruct (negb (moved p)); [|apply below_refl].
  apply below_bind; [apply castleSide_mono|]. intros ks.
  apply below_bind; [apply castleSide_mono|]. intros qs.
  apply below_refl.
Qed.

End Monotone.

Lemma scanAttack_mono raw raw' b pos c sqs :
  (forall b' p', below (raw b' p') (raw' b' p')) ->
  below (scanAttack raw b pos c sqs) (scanAttack raw' b pos c sqs).
Proof.
  intros Hraw. induction sqs as [|rc rest IH]; cbn [scanAttack].
  - apply below_refl.
  - destruct (board_at b (fst rc) (snd rc)) as [p|]; [|exact IH].
    destruct (color_eqb (color p) c); [|exact IH].
    apply below_bind; [apply Hraw|].
    intros ms. destruct (existsb _ ms); [apply below_refl | exact IH].
Qed.

Lemma isSquareAttacked_step n b pos c :
  below (isSquareAttacked n b pos c) (isSquareAttacked (S n) b pos c).
Proof.
  revert b pos c. induction n as [|n IH]; intros b pos c.
  - intros a H. discriminate.
  - change (below
      (isSquareAttackedF
         (fun b' p' => getRawMovesF (isSquareAttacked n) b' p' None) b pos c)
      (isSquareAttackedF
         (fun b' p' => getRawMovesF (isSquareAttacked (S n)) b' p' None)
         b pos c)).
    unfold isSquareAttackedF. apply scanAttack_mono.
    intros b' p'. now apply getRawMovesF_mono.
Qed.

Lemma isSquareAttacked_mono n m b pos c :
  (n <= m)%nat ->
  below (isSquareAttacked n b pos c) (isSquareAttacked m b pos c).
Proof.
  induction 1 as [|m Hle IH]; [apply below_refl|].
  intros a H. apply isSquareAttacked_step. now apply IH.
Qed.

Lemma isInCheck_mono n m b c :
  (n <= m)%nat -> below (isInCheck n b c) (isInCheck m b c).
Proof.
  intros Hle. unfold isInCheck, isInCheckF.
  destruct (findKing b c); [now apply isSquareAttacked_mono | apply below_refl].
Qed.

Lemma getRawMoves_mono n m b pos ept :
  (n <= m)%nat -> below (getRawMoves n b pos ept) (getRawMoves m b pos ept).
Proof.
  intros Hle. unfold getRawMoves. apply getRawMovesF_mono.
  intros b' p' c'. now apply isSquareAttacked_mono.
Qed.

Lemma filterLegal_mono n m b pos p ept rawMoves :
  (n <= m)%nat ->
  below (filterLegal n b pos p ept rawMoves)
        (filterLegal m b pos p ept rawMoves).
Proof.
  intros Hle. induction rawMoves as [|mv rest IH]; cbn [filterLegal].
  - apply below_refl.
  - apply below_bind; [now apply isInCheck_mono|]. intros chk.
    apply below_bind; [exact IH|]. intros l. apply below_refl.
Qed.

Lemma getLegalMoves_mono n m b pos ept :
  (n <= m)%nat ->
  below (getLegalMoves n b pos ept) (getLegalMoves m b pos ept).
Proof.
  intros Hle. unfold getLegalMoves.
  destruct (getPiece b pos) as [p|]; [|apply below_refl].
  apply below_bind; [now apply getRawMoves_mono|]. intros rawMoves.
  now apply filterLegal_mono.
Qed.

Lemma scanLegal_mono n m b c ept sqs :
  (n <= m)%nat ->
  below (scanLegal n b c ept sqs) (scanLegal m b c ept sqs).
Proof.
  intros Hle. induction sqs as [|rc rest IH]; cbn [scanLegal].
  - apply below_refl.
  - destruct (board_at b (fst rc) (snd rc)) as [p|]; [|exact IH].
    destruct (color_eqb (color p) c); [|exact IH].
    apply below_bind; [now apply getLegalMoves_mono|].
    intros [|x ms]; [exact IH | apply below_refl].
Qed.

(** What [makeMove] returns within one call-depth budget it returns within
    every larger one: the budget only separates the calls that return from
    those that do not. *)
Lemma makeMove_mono n m s src dst promo :
  (n <= m)%nat ->
  below (makeMove n s src dst promo) (makeMove m s src dst promo).
Proof.
  intros Hle. unfold makeMove.
  destruct (getPiece (board s) src) as [p|]; [|apply below_refl].
  destruct (negb (color_eqb (color p) (turn s))); [apply below_refl|].
  apply below_bind; [now apply getLegalMoves_mono|]. intros legal.
  destruct (negb (existsb _ legal)); [apply below_refl|].
  apply below_bind; [now apply scanLegal_mono|]. intros hl.
  apply below_bind; [|intros sw; apply below_refl].
  destruct hl; [apply below_refl|].
  apply below_bind; [now apply isInCheck_mono|]. intros chk.
  apply below_refl.
Qed.
(** ** The rook of a castling move

    [makeMove] spreads [newBoard[from.row][rookFromCol]!] without testing
    it.  On every accepted king move of two columns the king comes from the
    e-file and that corner square holds a rook. *)
Lemma castling_rook_present fuel s src dst promo s' p :
  makeMove fuel s src dst promo = Some (Some s') ->
  getPiece (board s) src = Some p ->
  isCastling p src dst = true ->
  col src = 4 /\ row dst = row src /\
  exists rk,
    board_ix (cloneBoard (board s)) (row src)
             (if col dst >? col src then 7 else 0) = Some rk /\
    type rk = rook.
Proof.
  intros H Hp Hcast. accepted H.
  assert (q = p) by congruence. subst q.
  unfold isCastling in Hcast. apply andb_true_iff in Hcast.
  destruct Hcast as [Hk Habs]. apply type_eqb_eq in Hk. apply Z.eqb_eq in Habs.
  pose proof (getPiece_valid _ _ _ Hp) as Hv.
  pose proof Hv as Hv'. apply isValidPosition_iff in Hv'.
  destruct (getLegalMoves_raw _ _ _ _ _ _ Hp Hl) as [raw [Hraw [_ Hincl]]].
  apply Hincl in Hin. clear Hincl Hscan Hst Hb Hmoves Hlast.
  unfold getRawMoves, getRawMovesF in Hraw. rewrite Hp, Hk in Hraw.
  unfold kingMoves in Hraw.
  assert (Hnear : ~ In dst (stepMoves (board s) src p kingSteps)).
  { intros Hs. apply kingSteps_near in Hs. lia. }
  rewrite cloneBoard_id.
  destruct (negb (moved p)).
  2:{ injection Hraw as <-. contradiction. }
  destruct (castleSide _ (board s) (row src) p 7 _ _ 6) as [ks|] eqn:Hks;
    [|discriminate].
  destruct (castleSide _ (board s) (row src) p 0 _ _ 2) as [qs|] eqn:Hqs;
    [|discriminate].
  injection Hraw as <-.
  apply castleSide_spec in Hks. destruct Hks as [Hk1 Hk2].
  apply castleSide_spec in Hqs. destruct Hqs as [Hq1 Hq2].
  apply in_app_or in Hin. destruct Hin as [Hin | Hin]; [contradiction|].
  apply in_app_or in Hin. destruct Hin as [Hin | Hin].
  - destruct Hk1 as [E | E]; [|rewrite E in Hin; destruct Hin].
    pose proof (proj1 Hk2 E) as [[rk [Hrk [Hrt _]]] _].
    rewrite E in Hin. destruct Hin as [<- | []]. cbn [row col] in *.
    assert (Hc : col src = 4) by lia.
    split; [assumption|]. split; [reflexivity|].
    exists rk. split; [|assumption].
    replace (6 >? col src) with true by (rewrite Hc; reflexivity).
    rewrite <- Hrk. symmetry.
    apply (getPiece_board_ix (board s) (mkPos (row src) 7)).
    apply valid_same_row; [assumption | lia].
  - destruct Hq1 as [E | E]; [|rewrite E in Hin; destruct Hin].
    pose proof (proj1 Hq2 E) as [[rk [Hrk [Hrt _]]] _].
    rewrite E in Hin. destruct Hin as [<- | []]. cbn [row col] in *.
    assert (Hc : col src = 4).
    { assert (Hc0 : col src = 0 \/ col src = 4) by lia.
      destruct Hc0 as [Hc0 | Hc0]; [|assumption].
      exfalso. assert (src = mkPos (row src) 0)
        by (rewrite <- Hc0; destruct src; reflexivity).
      congruence. }
    split; [assumption|]. split; [reflexivity|].
    exists rk. split; [|assumption].
    replace (2 >? col src) with false by (rewrite Hc; reflexivity).
    rewrite <- Hrk. symmetry.
    apply (getPiece_board_ix (board s) (mkPos (row src) 0)).
    apply valid_same_row; [assumption | lia].
Qed.

(** ** Sliding pieces *)

Lemma slide_spec n : forall b r c dr dc clr acc m,
  In m (slide n b r c dr dc clr acc) <->
  In m acc \/
  exists k : nat,
    (k < n)%nat /\
    m = mkPos (r + Z.of_nat k * dr) (c + Z.of_nat k * dc) /\
    isValidPosition m = true /\
    (forall j : nat, (j < k)%nat ->
       isValidPosition (mkPos (r + Z.of_nat j * dr) (c + Z.of_nat j * dc)) = true /\
       getPiece b (mkPos (r + Z.of_nat j * dr) (c + Z.of_nat j * dc)) = None) /\
    match getPiece b m with
    | Some t => color t <> clr
    | None => True
    end.
Proof.
  induction n as [|n IH]; intros b r c dr dc clr acc m; cbn [slide].
  - split; [auto|]. intros [H | [k [Hk _]]]; [assumption | lia].
  - assert (H0 : mkPos (r + Z.of_nat 0 * dr) (c + Z.of_nat 0 * dc) = mkPos r c)
      by (f_equal; lia).
    assert (HS : forall k : nat,
               mkPos (r + dr + Z.of_nat k * dr) (c + dc + Z.of_nat k * dc)
               = mkPos (r + Z.of_nat (S k) * dr) (c + Z.of_nat (S k) * dc))
      by (intros k; f_equal; lia).
    destruct (isValidPosition (mkPos r c)) eqn:Hv.
    + destruct (getPiece b (mkPos r c)) as [t|] eqn:Hg.
      * (* first square occupied *)
        assert (Hstop : forall k : nat,
                  (forall j : nat, (j < k)%nat ->
                     isValidPosition (mkPos (r + Z.of_nat j * dr)
                                            (c + Z.of_nat j * dc)) = true /\
                     getPiece b (mkPos (r + Z.of_nat j * dr)
                                       (c + Z.of_nat j * dc)) = None) ->
                  k = 0%nat).
        { intros k Hpath. destruct k as [|k]; [reflexivity|].
          destruct (Hpath 0%nat) as [_ Hn]; [lia|].
          rewrite H0 in Hn. congruence. }
        destruct (negb (color_eqb (color t) clr)) eqn:Hc.
        -- rewrite in_app_iff. cbn [In]. split.
           ++ intros [H | [H | []]]; [now left|]. right. exists 0%nat.
              rewrite H0. subst m. rewrite Hv, Hg.
              repeat split; try lia.
              intros E. apply color_eqb_eq in E. rewrite E in Hc. discriminate.
           ++ intros [H | [k [Hk [Hm [Hvm [Hpath Hcol]]]]]]; [now left|].
              rewrite (Hstop k Hpath), H0 in Hm. right. now left.
        -- split; [now left|].
           intros [H | [k [Hk [Hm [Hvm [Hpath Hcol]]]]]]; [assumption|].
           exfalso. rewrite (Hstop k Hpath), H0 in Hm. subst m.
           rewrite Hg in Hcol. apply negb_false_iff in Hc.
           apply color_eqb_eq in Hc. contradiction.
      * (* first square empty *)
        rewrite IH. rewrite in_app_iff. cbn [In]. split.
        -- intros [[H | [H | []]] | [k [Hk [Hm [Hvm [Hpath Hcol]]]]]].
           ++ now left.
           ++ right. exists 0%nat. rewrite H0. subst m. rewrite Hv, Hg.
              repeat split; try lia.
           ++ right. exists (S k). rewrite <- HS.
              repeat split; try assumption; try lia.
              all: destruct j as [|j];
                [rewrite H0; assumption
                |rewrite <- HS; apply Hpath; lia].
        -- intros [H | [k [Hk [Hm [Hvm [Hpath Hcol]]]]]]; [left; now left|].
           destruct k as [|k].
           ++ left. right. left. now rewrite Hm, H0.
           ++ right. exists k. rewrite HS.
              repeat split; try assumption; try lia.
              all: rewrite HS; apply Hpath; lia.
    + split; [now left|].
      intros [H | [k [Hk [Hm [Hvm [Hpath Hcol]]]]]]; [assumption|].
      exfalso. destruct k as [|k].
      * rewrite H0 in Hm. subst m. congruence.
      * destruct (Hpath 0%nat) as [Hv0 _]; [lia|].
        rewrite H0 in Hv0. congruence.
Qed.

Lemma fold_left_In {A} (f : list Position -> A -> list Position)
      (R : A -> Position -> Prop) :
  (forall acc d m, In m (f acc d) <-> In m acc \/ R d m) ->
  forall ds acc m,
    In m (fold_left f ds acc) <-> In m acc \/ exists d, In d ds /\ R d m.
Proof.
  intros Hf ds. induction ds as [|d rest IH]; intros acc m; cbn [fold_left].
  - split; [auto|]. intros [H | [d [[] _]]]. assumption.
  - rewrite IH, Hf. split.
    + intros [[H | H] | [d' [Hd HR]]].
      * now left.
      * right. exists d. split; [now left | assumption].
      * right. exists d'. split; [now right | assumption].
    + intros [H | [d' [[<- | Hd] HR]]].
      * left. now left.
      * left. now right.
      * right. exists d'. split; assumption.
Qed.

Lemma queenDirs_unit d :
  In d queenDirs ->
  -1 <= fst d <= 1 /\ -1 <= snd d <= 1 /\ (fst d <> 0 \/ snd d <> 0).
Proof.
  unfold queenDirs, bishopDirs, rookDirs. cbn [app In].
  intros H. repeat (destruct H as [<- | H]; [cbn [fst snd]; lia|]).
  destruct H.
Qed.

Lemma slideDirs_queen t d : In d (slideDirs t) -> In d queenDirs.
Proof.
  unfold queenDirs. destruct t; cbn [slideDirs]; intros H.
  - destruct H.
  - exact H.
  - apply in_or_app. now right.
  - apply in_or_app. now left.
  - destruct H.
  - destruct H.
Qed.

(** One call of [addSlidingMoves]: the squares added along a direction. *)
Lemma addSlidingMoves_spec b pos p d acc m :
  isValidPosition pos = true -> In d queenDirs ->
  (In m (addSlidingMoves b pos (fst d) (snd d) (color p) acc) <->
   In m acc \/
   exists k, 0 < k /\ m = stepFrom pos (fst d) (snd d) k /\
             isValidPosition m = true /\
             clearPath b pos (fst d) (snd d) k /\ notOwn b p m).
Proof.
  intros Hv Hd. unfold addSlidingMoves. rewrite slide_spec.
  apply queenDirs_unit in Hd. destruct d as [dr dc]. cbn [fst snd] in *.
  apply isValidPosition_iff in Hv.
  assert (Hstep : forall j : nat,
            mkPos (row pos + dr + Z.of_nat j * dr) (col pos + dc + Z.of_nat j * dc)
            = stepFrom pos dr dc (Z.of_nat (S j)))
    by (intros j; unfold stepFrom; f_equal; lia).
  split.
  - intros [H | [k [Hk [Hm [Hvm [Hpath Hcol]]]]]]; [now left|]. right.
    exists (Z.of_nat (S k)). rewrite Hstep in Hm.
    repeat split; try assumption; try lia.
    all: destruct (Hpath (Z.to_nat (j - 1))) as [H1 H2]; [lia|];
      rewrite Hstep in H1, H2;
      replace (Z.of_nat (S (Z.to_nat (j - 1)))) with j in H1, H2 by lia;
      assumption.
  - intros [H | [k [Hk [Hm [Hvm [Hpath Hcol]]]]]]; [now left|]. right.
    exists (Z.to_nat (k - 1)).
    assert (Ek : Z.of_nat (S (Z.to_nat (k - 1))) = k) by lia.
    rewrite Hstep, Ek.
    repeat split; try assumption.
    + subst m. apply isValidPosition_iff in Hvm. unfold stepFrom in Hvm.
      cbn [row col] in Hvm. nia.
    + rewrite Hstep. apply Hpath. lia.
    + rewrite Hstep. apply Hpath. lia.
Qed.

(** The destinations of a bishop, a rook or a queen. *)
Lemma getRawMoves_slider fuel b pos ept p :
  getPiece b pos = Some p ->
  type p = bishop \/ type p = rook \/ type p = queen ->
  exists rawMoves,
    getRawMoves fuel b pos ept = Some rawMoves /\
    forall m,
      In m rawMoves <->
      exists d k,
        In d (slideDirs (type p)) /\ 0 < k /\
        m = stepFrom pos (fst d) (snd d) k /\
        isValidPosition m = true /\
        clearPath b pos (fst d) (snd d) k /\ notOwn b p m.
Proof.
  intros Hp Ht. pose proof (getPiece_valid _ _ _ Hp) as Hv.
  unfold getRawMoves, getRawMovesF. rewrite Hp.
  assert (G : forall ds,
            (forall d, In d ds -> In d queenDirs) ->
            forall m,
              In m (fold_left (fun acc d =>
                      addSlidingMoves b pos (fst d) (snd d) (color p) acc)
                    ds []) <->
              exists d k,
                In d ds /\ 0 < k /\
                m = stepFrom pos (fst d) (snd d) k /\
                isValidPosition m = true /\
                clearPath b pos (fst d) (snd d) k /\ notOwn b p m).
  { intros ds Hds m.
    assert (Gen : forall dl acc,
              (forall d, In d dl -> In d queenDirs) ->
              (In m (fold_left (fun acc d =>
                       addSlidingMoves b pos (fst d) (snd d) (color p) acc)
                     dl acc) <->
               In m acc \/
               exists d, In d dl /\
                 exists k, 0 < k /\ m = stepFrom pos (fst d) (snd d) k /\
                   isValidPosition m = true /\
                   clearPath b pos (fst d) (snd d) k /\ notOwn b p m)).
    { induction dl as [|d rest IH]; intros acc Hin; cbn [fold_left].
      - split; [auto|]. intros [H | [d [[] _]]]. assumption.
      - rewrite IH by (intros; apply Hin; now right).
        rewrite addSlidingMoves_spec by (auto; apply Hin; now left).
        split.
        + intros [[H | H] | [d' [Hd HR]]].
          * now left.
          * right. exists d. split; [now left | assumption].
          * right. exists d'. split; [now right | assumption].
        + intros [H | [d' [[<- | Hd] HR]]].
          * left. now left.
          * left. now right.
          * right. exists d'. split; assumption. }
    rewrite (Gen ds [] Hds). split.
    - intros [[] | [d [Hd [k Hk]]]]. exists d, k. tauto.
    - intros [d [k Hk]]. right. exists d. split; [tauto|]. exists k. tauto. }
  destruct Ht as [Ht | [Ht | Ht]]; rewrite Ht; cbn [slideDirs];
    eexists; (split; [reflexivity|]); apply G;
    intros d Hd; apply (slideDirs_queen (type p)); rewrite Ht; exact Hd.
Qed.

(** X1.  Bishop, rook and queen.  The pseudo-legal destinations are exactly
    the squares reached along one of the piece's directions over empty
    squares, the first occupied square included when it holds an enemy
    piece and excluded when it holds a piece of the same colour; the call
    returns whatever the call-depth budget and the en-passant target. *)
Theorem sliding_moves fuel b pos ept p :
  getPiece b pos = Some p ->
  type p = bishop \/ type p = rook \/ type p = queen ->
  exists rawMoves,
    getRawMoves fuel b pos ept = Some rawMoves /\
    forall m,
      In m rawMoves <->
      exists d k,
        In d (slideDirs (type p)) /\ 0 < k /\
        m = stepFrom pos (fst d) (snd d) k /\
        isValidPosition m = true /\
        clearPath b pos (fst d) (snd d) k /\ notOwn b p m.
Proof. exact (getRawMoves_slider fuel b pos ept p). Qed.

(** ** Knight and king steps *)

Lemma pos_ext (m p : Position) : row m = row p -> col m = col p -> m = p.
Proof. destruct m, p; cbn; intros -> ->; reflexivity. Qed.

Lemma notOwn_dec b p m :
  notOwn b p m <->
  match getPiece b m with
  | Some t => negb (color_eqb (color t) (color p)) = true
  | None => True
  end.
Proof.
  unfold notOwn. destruct (getPiece b m) as [t|]; [|tauto].
  rewrite negb_true_iff. split.
  - intros H. destruct (color_eqb (color t) (color p)) eqn:E; [|reflexivity].
    apply color_eqb_eq in E. contradiction.
  - intros H E. apply color_eqb_eq in E. congruence.
Qed.

Lemma stepMoves_spec b pos p offs m :
  In m (stepMoves b pos p offs) <->
  exists d, In d offs /\
            m = mkPos (row pos + fst d) (col pos + snd d) /\
            isValidPosition m = true /\ notOwn b p m.
Proof.
  unfold stepMoves.
  rewrite (fold_left_In _
             (fun d m => m = mkPos (row pos + fst d) (col pos + snd d) /\
                         isValidPosition m = true /\ notOwn b p m)).
  - split; [intros [[] | H]; exact H | intros H; now right].
  - intros acc d x. cbv zeta.
    set (np := mkPos (row pos + fst d) (col pos + snd d)).
    pose proof (notOwn_dec b p np) as Hn.
    destruct (isValidPosition np) eqn:Hv.
    + destruct (getPiece b np) as [t|] eqn:Hg.
      * destruct (negb (color_eqb (color t) (color p))) eqn:Hc.
        -- rewrite in_app_iff. cbn [In]. split.
           ++ intros [H | [<- | []]]; [now left|]. right.
              repeat split; auto. apply Hn. reflexivity.
           ++ intros [H | [-> _]]; [now left|]. right. now left.
        -- split; [now left|]. intros [H | [-> [_ H]]]; [assumption|].
           apply Hn in H. discriminate.
      * rewrite in_app_iff. cbn [In]. split.
        -- intros [H | [<- | []]]; [now left|]. right.
           repeat split; auto. now apply Hn.
        -- intros [H | [-> _]]; [now left|]. right. now left.
    + split; [now left|]. intros [H | [-> [H _]]]; [assumption|].
      congruence.
Qed.

Lemma knightMoves_shape dr dc :
  In (dr, dc) knightMoves <-> Z.abs dr * Z.abs dc = 2.
Proof.
  unfold knightMoves. cbn [In]. split.
  - intros H.
    repeat (destruct H as [H | H]; [injection H as <- <-; reflexivity|]).
    destruct H.
  - intros H.
    assert (Hc : (Z.abs dr = 1 /\ Z.abs dc = 2) \/
                 (Z.abs dr = 2 /\ Z.abs dc = 1)).
    { assert (0 < Z.abs dr) by nia. assert (0 < Z.abs dc) by nia.
      assert (Z.abs dr <= 2) by nia. assert (Z.abs dc <= 2) by nia.
      assert (Z.abs dr = 1 \/ Z.abs dr = 2) by lia.
      lia. }
    assert (Hd : (dr = 1 \/ dr = -1 \/ dr = 2 \/ dr = -2) /\
                 (dc = 1 \/ dc = -1 \/ dc = 2 \/ dc = -2)) by lia.
    destruct Hd as [[-> | [-> | [-> | ->]]] [-> | [-> | [-> | ->]]]];
      cbn in Hc; try lia; tauto.
Qed.

Lemma kingSteps_shape dr dc :
  In (dr, dc) kingSteps <->
  Z.abs dr <= 1 /\ Z.abs dc <= 1 /\ (dr <> 0 \/ dc <> 0).
Proof.
  unfold kingSteps. cbn [In]. split.
  - intros H.
    repeat (destruct H as [H | H]; [injection H as <- <-; cbn; lia|]).
    destruct H.
  - intros [H1 [H2 H3]].
    assert (Hd : (dr = 0 \/ dr = 1 \/ dr = -1) /\
                 (dc = 0 \/ dc = 1 \/ dc = -1)) by lia.
    destruct Hd as [[-> | [-> | ->]] [-> | [-> | ->]]]; try lia; tauto.
Qed.

(** The destinations of a knight. *)
Lemma getRawMoves_knight fuel b pos ept p :
  getPiece b pos = Some p -> type p = knight ->
  exists rawMoves,
    getRawMoves fuel b pos ept = Some rawMoves /\
    forall m,
      In m rawMoves <->
      Z.abs (row m - row pos) * Z.abs (col m - col pos) = 2 /\
      isValidPosition m = true /\ notOwn b p m.
Proof.
  intros Hp Ht. unfold getRawMoves, getRawMovesF. rewrite Hp, Ht.
  eexists. split; [reflexivity|]. intros m. rewrite stepMoves_spec. split.
  - intros [[dr dc] [Hd [-> [Hv Hn]]]]. cbn [fst snd row col] in *.
    apply knightMoves_shape in Hd.
    repeat split; try assumption.
    replace (row pos + dr - row pos) with dr by lia.
    replace (col pos + dc - col pos) with dc by lia. assumption.
  - intros [Hs [Hv Hn]].
    exists (row m - row pos, col m - col pos). cbn [fst snd].
    split; [now apply knightMoves_shape|].
    split; [|split; assumption].
    destruct m as [r c]. cbn [row col]. f_equal; lia.
Qed.

(** X2.  Knight.  The pseudo-legal destinations of a knight are exactly the
    squares of the grid one row and two columns, or two rows and one column,
    away that hold no piece of its colour. *)
Theorem knight_moves fuel b pos ept p :
  getPiece b pos = Some p -> type p = knight ->
  exists rawMoves,
    getRawMoves fuel b pos ept = Some rawMoves /\
    forall m,
      In m rawMoves <->
      Z.abs (row m - row pos) * Z.abs (col m - col pos) = 2 /\
      isValidPosition m = true /\ notOwn b p m.
Proof. exact (getRawMoves_knight fuel b pos ept p). Qed.

(** The destinations of a king. *)
Lemma getRawMoves_king fuel b pos ept p :
  getPiece b pos = Some p -> type p = king ->
  (moved p = true -> exists rawMoves, getRawMoves fuel b pos ept = Some rawMoves) /\
  forall rawMoves,
    getRawMoves fuel b pos ept = Some rawMoves ->
    (forall m,
        Z.abs (row m - row pos) <= 1 -> Z.abs (col m - col pos) <= 1 ->
        m <> pos ->
        (In m rawMoves <-> isValidPosition m = true /\ notOwn b p m)) /\
    (forall m,
        In m rawMoves ->
        isValidPosition m = true /\ notOwn b p m /\
        ((Z.abs (row m - row pos) <= 1 /\ Z.abs (col m - col pos) <= 1 /\
          m <> pos) \/
         (moved p = false /\ row m = row pos /\ (col m = 6 \/ col m = 2)))).
Proof.
  intros Hp Ht. unfold getRawMoves, getRawMovesF. rewrite Hp, Ht.
  unfold kingMoves.
  assert (Hsteps : forall m,
            In m (stepMoves b pos p kingSteps) <->
            (Z.abs (row m - row pos) <= 1 /\ Z.abs (col m - col pos) <= 1 /\
             m <> pos) /\ isValidPosition m = true /\ notOwn b p m).
  { intros m. rewrite stepMoves_spec. split.
    - intros [[dr dc] [Hd [-> [Hv Hn]]]]. cbn [fst snd row col] in *.
      apply kingSteps_shape in Hd.
      repeat split; try assumption; try lia.
      intros E. apply (f_equal row) in E as E1. apply (f_equal col) in E as E2.
      cbn [row col] in E1, E2. lia.
    - intros [[H1 [H2 H3]] [Hv Hn]].
      exists (row m - row pos, col m - col pos). cbn [fst snd].
      split.
      + apply kingSteps_shape. repeat split; try assumption.
        destruct (Z.eq_dec (row m - row pos) 0) as [E1|]; [|now left].
        destruct (Z.eq_dec (col m - col pos) 0) as [E2|]; [|now right].
        exfalso. apply H3. apply pos_ext; lia.
      + split; [|split; assumption].
        destruct m as [r c]. cbn [row col]. f_equal; lia. }
  split.
  - intros Hm. rewrite Hm. cbn [negb]. eexists. reflexivity.
  - intros rawMoves Hraw.
    destruct (moved p) eqn:Hm; cbn [negb] in Hraw.
    + injection Hraw as <-. split.
      * intros m H1 H2 H3. rewrite Hsteps. tauto.
      * intros m Hin. apply Hsteps in Hin. tauto.
    + destruct (castleSide _ b (row pos) p 7 _ _ 6) as [ks|] eqn:Hks;
        [|discriminate].
      destruct (castleSide _ b (row pos) p 0 _ _ 2) as [qs|] eqn:Hqs;
        [|discriminate].
      injection Hraw as <-.
      apply castleSide_spec in Hks. destruct Hks as [Hk1 Hk2].
      apply castleSide_spec in Hqs. destruct Hqs as [Hq1 Hq2].
      pose proof (getPiece_valid _ _ _ Hp) as Hv.
      assert (Hcastle : forall m dest l between safe corner,
                (l = [mkPos (row pos) dest] \/ l = []) ->
                (l = [mkPos (row pos) dest] ->
                 (exists rk, getPiece b (mkPos (row pos) corner) = Some rk /\
                             type rk = rook /\ moved rk = false) /\
                 (forall x, In x between ->
                            getPiece b (mkPos (row pos) x) = None) /\
                 (forall x, In x safe ->
                            isSquareAttacked fuel b (mkPos (row pos) x)
                                             (color p) = Some false)) ->
                In dest between -> 0 <= dest < 8 ->
                In m l ->
                m = mkPos (row pos) dest /\
                isValidPosition m = true /\ notOwn b p m).
      { intros m dest l between safe corner Hl Hcond Hbt Hdest Hin.
        destruct Hl as [E | E]; [|rewrite E in Hin; destruct Hin].
        specialize (Hcond E). rewrite E in Hin. destruct Hin as [<- | []].
        split; [reflexivity|]. split.
        - apply valid_same_row; assumption.
        - unfold notOwn. destruct Hcond as [_ [He _]].
          now rewrite (He dest Hbt). }
      split.
      * intros m H1 H2 H3. rewrite !in_app_iff, Hsteps. split.
        -- intros [H | [H | H]]; [tauto| |].
           ++ eapply Hcastle in H; [tauto | exact Hk1 | apply Hk2
                                    | cbn; tauto | lia].
           ++ eapply Hcastle in H; [tauto | exact Hq1 | apply Hq2
                                    | cbn; tauto | lia].
        -- intros H. left. tauto.
      * intros m Hin. rewrite !in_app_iff in Hin.
        destruct Hin as [H | [H | H]].
        -- apply Hsteps in H. tauto.
        -- eapply Hcastle in H;
             [| exact Hk1 | apply Hk2 | cbn; tauto | lia].
           destruct H as [E [H1 H2]]. repeat split; try assumption.
           right. rewrite E. cbn [row col]. auto.
        -- eapply Hcastle in H;
             [| exact Hq1 | apply Hq2 | cbn; tauto | lia].
           destruct H as [E [H1 H2]]. repeat split; try assumption.
           right. rewrite E. cbn [row col]. auto.
Qed.

(** X3.  King.  Whenever the generation returns, the adjacent squares among
    the king's destinations are exactly those of the grid that hold no piece
    of its colour; a destination that is not adjacent is a castling
    destination, column 6 or 2 of the king's row, offered to an unmoved king
    only; every destination is on the grid and holds no piece of the king's
    colour; and a king that has moved gets its destinations within any
    call-depth budget. *)
Theorem king_moves fuel b pos ept p :
  getPiece b pos = Some p -> type p = king ->
  (moved p = true -> exists rawMoves, getRawMoves fuel b pos ept = Some rawMoves) /\
  forall rawMoves,
    getRawMoves fuel b pos ept = Some rawMoves ->
    (forall m,
        Z.abs (row m - row pos) <= 1 -> Z.abs (col m - col pos) <= 1 ->
        m <> pos ->
        (In m rawMoves <-> isValidPosition m = true /\ notOwn b p m)) /\
    (forall m,
        In m rawMoves ->
        isValidPosition m = true /\ notOwn b p m /\
        ((Z.abs (row m - row pos) <= 1 /\ Z.abs (col m - col pos) <= 1 /\
          m <> pos) \/
         (moved p = false /\ row m = row pos /\ (col m = 6 \/ col m = 2)))).
Proof. exact (getRawMoves_king fuel b pos ept p). Qed.

(** ** Pawns *)

(** The destinations of a pawn. *)
Lemma getRawMoves_pawn fuel b pos ept p :
  getPiece b pos = Some p -> type p = pawn ->
  exists rawMoves,
    getRawMoves fuel b pos ept = Some rawMoves /\
    forall m,
      In m rawMoves <->
      (m = mkPos (row pos + direction (color p)) (col pos) /\
       isValidPosition m = true /\ getPiece b m = None) \/
      (m = mkPos (row pos + 2 * direction (color p)) (col pos) /\
       row pos = pawnStartRow (color p) /\
       getPiece b (mkPos (row pos + direction (color p)) (col pos)) = None /\
       getPiece b m = None) \/
      ((col m = col pos - 1 \/ col m = col pos + 1) /\
       row m = row pos + direction (color p) /\
       isValidPosition m = true /\
       ((exists t, getPiece b m = Some t /\ color t <> color p) \/
        ept = Some m)).
Proof.
  intros Hp Ht. pose proof (getPiece_valid _ _ _ Hp) as Hv.
  unfold getRawMoves, getRawMovesF. rewrite Hp, Ht.
  eexists. split; [reflexivity|]. intros m.
  unfold pawnMoves. set (d := direction (color p)).
  set (fwd := mkPos (row pos + d) (col pos)).
  set (dbl := mkPos (row pos + 2 * d) (col pos)).
  match goal with
  | |- In m (fold_left ?f _ ?init) <-> _ =>
      set (capture := f); set (ahead := init)
  end.
  assert (Hcap : forall acc dc x,
            In x (capture acc dc) <->
            In x acc \/
            (x = mkPos (row pos + d) (col pos + dc) /\
             isValidPosition x = true /\
             ((exists t, getPiece b x = Some t /\ color t <> color p) \/
              ept = Some x))).
  { intros acc dc x. subst capture. cbv beta zeta.
    set (cp := mkPos (row pos + d) (col pos + dc)).
    destruct (isValidPosition cp) eqn:Hcv.
    2:{ split; [now left|]. intros [H | [-> [H _]]]; [assumption|congruence]. }
    assert (H1 : forall x,
              In x match getPiece b cp with
                   | Some target =>
                       if negb (color_eqb (color target) (color p))
                       then acc ++ [cp] else acc
                   | None => acc
                   end <->
              In x acc \/
              (x = cp /\ exists t, getPiece b cp = Some t /\
                                   color t <> color p)).
    { intros y. pose proof (notOwn_dec b p cp) as Hn. unfold notOwn in Hn.
      destruct (getPiece b cp) as [t|].
      - destruct (negb (color_eqb (color t) (color p))) eqn:Hc.
        + rewrite in_app_iff. cbn [In]. split.
          * intros [H | [<- | []]]; [now left|]. right. split; [reflexivity|].
            exists t. split; [reflexivity|]. now apply Hn.
          * intros [H | [-> _]]; [now left|]. right. now left.
        + split; [now left|]. intros [H | [_ [t' [E Hne]]]]; [assumption|].
          injection E as <-. apply Hn in Hne. discriminate.
      - split; [now left|]. intros [H | [_ [t' [E _]]]];
          [assumption | discriminate]. }
    destruct ept as [e|].
    - destruct (pos_eqb cp e) eqn:He.
      + apply pos_eqb_eq in He. subst e.
        rewrite in_app_iff, H1. cbn [In]. split.
        * intros [[H | [-> Hx]] | [<- | []]]; [now left | right | right];
            repeat split; auto.
        * intros [H | [-> _]]; [left; now left|]. right. now left.
      + rewrite H1. split.
        * intros [H | [-> Hx]]; [now left|]. right. repeat split; auto.
        * intros [H | [-> [_ [Hx | Hx]]]]; [now left | right; auto |].
          injection Hx as <-. rewrite pos_eqb_refl in He. discriminate.
    - rewrite H1. split.
      + intros [H | [-> Hx]]; [now left|]. right. repeat split; auto.
      + intros [H | [-> [_ [Hx | Hx]]]]; [now left | right; auto |].
        discriminate. }
  assert (Hahead : forall x,
            In x ahead <->
            (x = fwd /\ isValidPosition x = true /\ getPiece b x = None) \/
            (x = dbl /\ row pos = pawnStartRow (color p) /\
             getPiece b fwd = None /\ getPiece b x = None)).
  { intros x. subst ahead. unfold occupied.
    assert (Hfv : row pos = pawnStartRow (color p) ->
                  isValidPosition fwd = true).
    { intros Hs. apply isValidPosition_iff in Hv. apply isValidPosition_iff.
      subst fwd d. cbn [row col]. rewrite Hs.
      destruct (color p); cbn; lia. }
    destruct (isValidPosition fwd) eqn:Hfwd; cbn [andb].
    2:{ split; [intros []|].
        intros [[-> [H _]] | [_ [Hs _]]]; [congruence|].
        apply Hfv in Hs. discriminate. }
    destruct (getPiece b fwd) as [t|] eqn:Hg; cbn [negb].
    1:{ split; [intros []|].
        intros [[-> [_ H]] | [_ [_ [H _]]]]; congruence. }
    change (match color p with white => 6 | black => 1 end)
      with (pawnStartRow (color p)).
    destruct (row pos =? pawnStartRow (color p)) eqn:Hs.
    - apply Z.eqb_eq in Hs.
      destruct (getPiece b dbl) as [t|] eqn:Hd; cbn [negb In].
      + split.
        * intros [<- | []]. left. auto.
        * intros [[-> _] | [-> [_ [_ H]]]]; [now left | congruence].
      + split.
        * intros [<- | [<- | []]]; [left | right]; auto.
        * intros [[-> _] | [-> _]]; auto.
    - apply Z.eqb_neq in Hs. cbn [In]. split.
      + intros [<- | []]. left. auto.
      + intros [[-> _] | [_ [H _]]]; [now left | contradiction]. }
  cbn [fold_left]. rewrite !Hcap, Hahead.
  subst fwd dbl d. split.
  - intros [[H | H] | H].
    + destruct H as [H | H]; [left | right; left]; exact H.
    + right. right. destruct H as [-> [H1 H2]]. cbn [row col].
      repeat split; auto.
    + right. right. destruct H as [-> [H1 H2]]. cbn [row col].
      repeat split; auto.
  - intros [H | [H | [Hc [Hr [Hvm Hx]]]]].
    + left. left. now left.
    + left. left. now right.
    + destruct Hc as [Hc | Hc].
      * left. right. split; [apply pos_ext; cbn [row col]; lia|]. auto.
      * right. split; [apply pos_ext; cbn [row col]; lia|]. auto.
Qed.

(** X4.  Pawn.  The pseudo-legal destinations of a pawn are exactly: the
    square ahead when it is on the grid and empty; the square two ahead when
    the pawn stands on its starting row and both squares ahead are empty;
    and a square diagonally ahead, on the grid, that holds an enemy piece or
    is the en-passant target.  The call returns within any call-depth
    budget. *)
Theorem pawn_moves fuel b pos ept p :
  getPiece b pos = Some p -> type p = pawn ->
  exists rawMoves,
    getRawMoves fuel b pos ept = Some rawMoves /\
    forall m,
      In m rawMoves <->
      (m = mkPos (row pos + direction (color p)) (col pos) /\
       isValidPosition m = true /\ getPiece b m = None) \/
      (m = mkPos (row pos + 2 * direction (color p)) (col pos) /\
       row pos = pawnStartRow (color p) /\
       getPiece b (mkPos (row pos + direction (color p)) (col pos)) = None /\
       getPiece b m = None) \/
      ((col m = col pos - 1 \/ col m = col pos + 1) /\
       row m = row pos + direction (color p) /\
       isValidPosition m = true /\
       ((exists t, getPiece b m = Some t /\ color t <> color p) \/
        ept = Some m)).
Proof. exact (getRawMoves_pawn fuel b pos ept p). Qed.

(** ** Every pseudo-legal destination *)

Lemma notOwn_other b pos p m :
  getPiece b pos = Some p -> notOwn b p m -> m <> pos.
Proof.
  intros Hp Hn ->. unfold notOwn in Hn. rewrite Hp in Hn. now apply Hn.
Qed.

(** Where a pseudo-legal destination lies, and what it holds. *)
Lemma getRawMoves_on_board fuel b pos ept p rawMoves :
  getPiece b pos = Some p ->
  getRawMoves fuel b pos ept = Some rawMoves ->
  forall m, In m rawMoves ->
            isValidPosition m = true /\ m <> pos /\
            (notOwn b p m \/ (type p = pawn /\ ept = Some m)).
Proof.
  intros Hp Hraw m Hin.
  destruct (type p) eqn:Ht.
  - destruct (getRawMoves_king fuel b pos ept p Hp Ht) as [_ Hk].
    destruct (Hk rawMoves Hraw) as [_ Hm].
    destruct (Hm m Hin) as [Hv [Hn _]].
    repeat split; auto. eapply notOwn_other; eauto.
  - destruct (getRawMoves_slider fuel b pos ept p Hp) as [raw' [Hr Hs]];
      [rewrite Ht; tauto|].
    assert (raw' = rawMoves) by congruence. subst raw'.
    apply Hs in Hin. destruct Hin as [d [k [_ [_ [_ [Hv [_ Hn]]]]]]].
    repeat split; auto. eapply notOwn_other; eauto.
  - destruct (getRawMoves_slider fuel b pos ept p Hp) as [raw' [Hr Hs]];
      [rewrite Ht; tauto|].
    assert (raw' = rawMoves) by congruence. subst raw'.
    apply Hs in Hin. destruct Hin as [d [k [_ [_ [_ [Hv [_ Hn]]]]]]].
    repeat split; auto. eapply notOwn_other; eauto.
  - destruct (getRawMoves_slider fuel b pos ept p Hp) as [raw' [Hr Hs]];
      [rewrite Ht; tauto|].
    assert (raw' = rawMoves) by congruence. subst raw'.
    apply Hs in Hin. destruct Hin as [d [k [_ [_ [_ [Hv [_ Hn]]]]]]].
    repeat split; auto. eapply notOwn_other; eauto.
  - destruct (getRawMoves_knight fuel b pos ept p Hp Ht) as [raw' [Hr Hs]].
    assert (raw' = rawMoves) by congruence. subst raw'.
    apply Hs in Hin. destruct Hin as [_ [Hv Hn]].
    repeat split; auto. eapply notOwn_other; eauto.
  - destruct (getRawMoves_pawn fuel b pos ept p Hp Ht) as [raw' [Hr Hs]].
    assert (raw' = rawMoves) by congruence. subst raw'.
    apply Hs in Hin.
    assert (Hd : direction (color p) = 1 \/ direction (color p) = -1)
      by (destruct (color p); cbn; auto).
    pose proof (getPiece_valid _ _ _ Hp) as Hvp.
    destruct Hin as [[-> [Hv Hg]] | [[-> [Hs1 [Hg1 Hg2]]] | [Hc [Hr1 [Hv Hx]]]]].
    + repeat split; auto.
      * intros E. apply (f_equal row) in E. cbn [row] in E. lia.
      * left. unfold notOwn. now rewrite Hg.
    + repeat split.
      * apply isValidPosition_iff in Hvp. apply isValidPosition_iff.
        cbn [row col]. rewrite Hs1.
        destruct (color p); cbn; lia.
      * intros E. apply (f_equal row) in E. cbn [row] in E. lia.
      * left. unfold notOwn. now rewrite Hg2.
    + repeat split; auto.
      * intros E. rewrite E in Hr1. lia.
      * destruct Hx as [[t [Hg Hne]] | He]; [left | right; auto].
        unfold notOwn. now rewrite Hg.
Qed.

(** X5.  Whatever the piece, a pseudo-legal destination is a square of the
    grid other than the square of origin, and it holds no piece of the
    mover's colour, with one exception: a pawn is offered the en-passant
    target of the call diagonally ahead whatever stands on it. *)
Theorem raw_moves_on_board fuel b pos ept p rawMoves :
  getPiece b pos = Some p ->
  getRawMoves fuel b pos ept = Some rawMoves ->
  forall m, In m rawMoves ->
            isValidPosition m = true /\ m <> pos /\
            (notOwn b p m \/ (type p = pawn /\ ept = Some m)).
Proof. exact (getRawMoves_on_board fuel b pos ept p rawMoves). Qed.

(** ** Legal moves, the king and attacks *)

Lemma filterLegal_iff fuel b pos p ept rawMoves l :
  filterLegal fuel b pos p ept rawMoves = Some l ->
  forall m,
    In m l <->
    In m rawMoves /\
    isInCheck fuel (testBoard b pos p ept m) (color p) = Some false.
Proof.
  revert l. induction rawMoves as [|x rest IH]; intros l H m;
    cbn [filterLegal] in H.
  - injection H as <-. cbn [In]. tauto.
  - destruct (isInCheck fuel (testBoard b pos p ept x) (color p))
      as [chk|] eqn:Hc; [|discriminate].
    destruct (filterLegal fuel b pos p ept rest) as [l0|]; [|discriminate].
    injection H as <-. specialize (IH l0 eq_refl m). cbn [In].
    destruct chk.
    + rewrite IH. split; [tauto|].
      intros [[<- | H] Hm]; [congruence | tauto].
    + cbn [In]. rewrite IH. split.
      * intros [<- | H]; [split; [now left | assumption] | tauto].
      * intros [[<- | H] Hm]; [now left | tauto].
Qed.

(** The legal destinations among the pseudo-legal ones. *)
Lemma getLegalMoves_iff fuel b pos ept :
  (getPiece b pos = None -> getLegalMoves fuel b pos ept = Some []) /\
  (forall p l,
      getPiece b pos = Some p ->
      getLegalMoves fuel b pos ept = Some l ->
      exists rawMoves,
        getRawMoves fuel b pos ept = Some rawMoves /\
        forall m,
          In m l <->
          In m rawMoves /\
          isInCheck fuel (testBoard b pos p ept m) (color p) = Some false).
Proof.
  split.
  - intros H. unfold getLegalMoves. now rewrite H.
  - intros p l Hp Hl.
    destruct (getLegalMoves_raw _ _ _ _ _ _ Hp Hl) as [raw [Hr [Hf _]]].
    exists raw. split; [assumption|]. now apply filterLegal_iff.
Qed.

(** X6.  Legal moves.  An empty square, or a position outside the grid, has
    no legal move.  For a piece, the legal destinations are exactly its
    pseudo-legal destinations after which, on the scratch board of the move,
    the king of the piece's colour is not in check. *)
Theorem legal_moves_spec fuel b pos ept :
  (getPiece b pos = None -> getLegalMoves fuel b pos ept = Some []) /\
  (forall p l,
      getPiece b pos = Some p ->
      getLegalMoves fuel b pos ept = Some l ->
      exists rawMoves,
        getRawMoves fuel b pos ept = Some rawMoves /\
        forall m,
          In m l <->
          In m rawMoves /\
          isInCheck fuel (testBoard b pos p ept m) (color p) = Some false).
Proof. exact (getLegalMoves_iff fuel b pos ept). Qed.

Lemma findKingIn_some b c sqs k :
  incl sqs squares ->
  findKingIn b c sqs = Some k ->
  exists p, getPiece b k = Some p /\ type p = king /\ color p = c.
Proof.
  induction sqs as [|rc rest IH]; intros Hincl H; cbn [findKingIn] in H.
  - discriminate.
  - assert (Hin : In rc squares) by (apply Hincl; now left).
    assert (Hrest : incl rest squares)
      by (intros x Hx; apply Hincl; now right).
    destruct (board_at b (fst rc) (snd rc)) as [p|] eqn:Hat; [|auto].
    destruct (type_eqb (type p) king && color_eqb (color p) c) eqn:E; [|auto].
    injection H as <-. apply andb_true_iff in E. destruct E as [E1 E2].
    exists p. rewrite getPiece_posOf by assumption.
    apply type_eqb_eq in E1. apply color_eqb_eq in E2. auto.
Qed.

Lemma findKingIn_none_inv b c sqs :
  findKingIn b c sqs = None ->
  forall rc p, In rc sqs -> board_at b (fst rc) (snd rc) = Some p ->
               type p = king -> color p <> c.
Proof.
  induction sqs as [|x rest IH]; intros H rc p Hin Hat Hk Hc.
  - destruct Hin.
  - cbn [findKingIn] in H. destruct Hin as [-> | Hin].
    + rewrite Hat, Hk, Hc in H.
      replace (color_eqb c c) with true in H
        by (symmetry; now apply color_eqb_eq).
      discriminate.
    + destruct (board_at b (fst x) (snd x)) as [q|].
      * destruct (type_eqb (type q) king && color_eqb (color q) c);
          [discriminate|]. exact (IH H rc p Hin Hat Hk Hc).
      * exact (IH H rc p Hin Hat Hk Hc).
Qed.

(** X7.  [findKing] returns a square that holds a king of the colour asked
    for, and returns [null] exactly when the grid holds no such king. *)
Theorem findKing_spec b c :
  (forall k, findKing b c = Some k ->
             exists p, getPiece b k = Some p /\ type p = king /\ color p = c) /\
  (findKing b c = None <-> noKing b c).
Proof.
  split; [|split].
  - intros k H. apply (findKingIn_some b c squares k); [apply incl_refl|exact H].
  - intros H pos p Hp Hk.
    destruct (valid_in_squares _ (getPiece_valid _ _ _ Hp)) as [rc [Hin <-]].
    rewrite getPiece_posOf in Hp by assumption.
    exact (findKingIn_none_inv b c squares H rc p Hin Hp Hk).
  - intros H. apply findKingIn_none; [assumption | apply incl_refl].
Qed.

Lemma scanAttack_true raw b pos c sqs :
  scanAttack raw b pos c sqs = Some true ->
  exists rc a ms,
    In rc sqs /\ board_at b (fst rc) (snd rc) = Some a /\ color a = c /\
    raw b (posOf rc) = Some ms /\ In pos ms.
Proof.
  induction sqs as [|x rest IH]; intros H; cbn [scanAttack] in H.
  - discriminate.
  - assert (Hrest : scanAttack raw b pos c rest = Some true ->
              exists rc a ms,
                In rc (x :: rest) /\ board_at b (fst rc) (snd rc) = Some a /\
                color a = c /\ raw b (posOf rc) = Some ms /\ In pos ms).
    { intros Hr. destruct (IH Hr) as (rc & a & ms & Hi & Hx).
      exists rc, a, ms. split; [now right | assumption]. }
    destruct (board_at b (fst x) (snd x)) as [a|] eqn:Hat; [|auto].
    destruct (color_eqb (color a) c) eqn:Hc; [|auto].
    destruct (raw b (posOf x)) as [ms|] eqn:Hr; [|discriminate].
    destruct (existsb (fun m => pos_eqb m pos) ms) eqn:He; [|auto].
    exists x, a, ms. apply color_eqb_eq in Hc. apply existsb_pos_In in He.
    repeat split; auto. now left.
Qed.

Lemma scanAttack_false raw b pos c sqs :
  scanAttack raw b pos c sqs = Some false ->
  forall rc a, In rc sqs -> board_at b (fst rc) (snd rc) = Some a ->
               color a = c ->
               exists ms, raw b (posOf rc) = Some ms /\ ~ In pos ms.
Proof.
  induction sqs as [|x rest IH]; intros H rc a Hin Hat Hc.
  - destruct Hin.
  - cbn [scanAttack] in H. destruct Hin as [-> | Hin].
    + rewrite Hat in H.
      replace (color_eqb (color a) c) with true in H
        by (symmetry; now apply color_eqb_eq).
      destruct (raw b (posOf rc)) as [ms|]; [|discriminate].
      destruct (existsb (fun m => pos_eqb m pos) ms) eqn:He; [discriminate|].
      exists ms. split; [reflexivity|]. intros Hi.
      apply existsb_pos_In in Hi. congruence.
    + assert (Hr : scanAttack raw b pos c rest = Some false).
      { destruct (board_at b (fst x) (snd x)) as [q|]; [|assumption].
        destruct (color_eqb (color q) c); [|assumption].
        destruct (raw b (posOf x)) as [ms|]; [|discriminate].
        destruct (existsb (fun m => pos_eqb m pos) ms);
          [discriminate|assumption]. }
      exact (IH Hr rc a Hin Hat Hc).
Qed.

(** X8.  Attack test.  [isSquareAttacked] answers [true] only when some piece
    of the other colour has the square among its pseudo-legal destinations,
    computed without en-passant target, and [false] only when every piece of
    the other colour has its destinations computed and none contains the
    square. *)
Theorem isSquareAttacked_spec fuel b pos c :
  (isSquareAttacked (S fuel) b pos c = Some true ->
   exists apos a ms,
     getPiece b apos = Some a /\ color a = opponent c /\
     getRawMoves fuel b apos None = Some ms /\ In pos ms) /\
  (isSquareAttacked (S fuel) b pos c = Some false ->
   forall apos a,
     getPiece b apos = Some a -> color a = opponent c ->
     exists ms, getRawMoves fuel b apos None = Some ms /\ ~ In pos ms).
Proof.
  cbn [isSquareAttacked]. unfold isSquareAttackedF. split.
  - intros H. apply scanAttack_true in H.
    destruct H as (rc & a & ms & Hin & Hat & Hc & Hr & Hp).
    exists (posOf rc), a, ms. rewrite getPiece_posOf by assumption. auto.
  - intros H apos a Ha Hc.
    destruct (valid_in_squares _ (getPiece_valid _ _ _ Ha)) as [rc [Hin <-]].
    rewrite getPiece_posOf in Ha by assumption.
    exact (scanAttack_false _ _ _ _ _ H rc a Hin Ha Hc).
Qed.

(** ** What an accepted move does to the board *)

Lemma board_ext (b b' : Board) :
  wfBoard b -> wfBoard b' ->
  (forall pos, isValidPosition pos = true -> getPiece b pos = getPiece b' pos) ->
  b = b'.
Proof.
  intros Hwf Hwf' Hget.
  apply nth_ext with (d := []) (d' := []).
  - destruct Hwf as [-> _], Hwf' as [-> _]. reflexivity.
  - intros r Hr. destruct Hwf as [Hl Hrows]. rewrite Hl in Hr.
    apply nth_ext with (d := None) (d' := None).
    + rewrite !wfBoard_row; auto. split; assumption.
    + intros c Hc. rewrite wfBoard_row in Hc by (auto; split; assumption).
      assert (Hin : In (r, c) squares) by (apply in_squares; lia).
      pose proof (Hget (posOf (r, c))) as H.
      rewrite !getPiece_posOf in H by assumption. apply H.
      apply isValidPosition_iff. cbn [posOf fst snd row col]. lia.
Qed.

Lemma newBoardOf_wf b p src dst ept promo :
  wfBoard b -> wfBoard (newBoardOf b p src dst ept promo).
Proof.
  intros Hwf. unfold newBoardOf.
  destruct (isCastling p src dst), (isEnPassant p ept dst),
    (isPromotion p dst); auto 10 with wf.
Qed.

Lemma legal_not_origin fuel b pos ept p legal m :
  getPiece b pos = Some p ->
  getLegalMoves fuel b pos ept = Some legal -> In m legal ->
  isValidPosition m = true /\ (row pos <> row m \/ col pos <> col m).
Proof.
  intros Hp Hl Hin.
  destruct (getLegalMoves_raw _ _ _ _ _ _ Hp Hl) as [raw [Hr [_ Hincl]]].
  destruct (getRawMoves_on_board _ _ _ _ _ _ Hp Hr m (Hincl m Hin))
    as [Hv [Hne _]].
  split; [assumption|].
  destruct (Z.eq_dec (row pos) (row m)) as [E1|]; [|now left].
  destruct (Z.eq_dec (col pos) (col m)) as [E2|]; [|now right].
  exfalso. apply Hne. now apply pos_ext.
Qed.

(** The last two assignments of [makeMove]: the destination, then the
    origin. *)
Lemma newBoardOf_last_writes b p src dst ept promo :
  wfBoard b ->
  exists X v,
    newBoardOf b p src dst ept promo
    = board_set (board_set X (row dst) (col dst) (Some v))
                (row src) (col src) None /\
    wfBoard X /\ color v = color p /\ hasMoved v = Some true /\
    (isPromotion p dst = false -> v = markMoved p).
Proof.
  intros Hwf. unfold newBoardOf.
  destruct (isPromotion p dst); eexists; eexists;
    (split; [reflexivity|]);
    (split; [destruct (isCastling p src dst), (isEnPassant p ept dst);
             auto 10 with wf|]);
    (split; [reflexivity|]); (split; [reflexivity|]);
    intros E; (discriminate || reflexivity).
Qed.

(** X9.  The squares of origin and destination.  After an accepted move on an
    8x8 board the square of origin is empty and the destination holds a
    piece of the mover's colour marked as moved: the moved piece itself
    unless a pawn is promoted.  Unless the move is flagged en passant, the
    move record carries as captured what stood on the destination. *)
Theorem move_effect fuel s src dst promo s' p :
  wfBoard (board s) ->
  makeMove fuel s src dst promo = Some (Some s') ->
  getPiece (board s) src = Some p ->
  src <> dst /\
  getPiece (board s') src = None /\
  (isPromotion p dst = false ->
   getPiece (board s') dst = Some (markMoved p)) /\
  (exists q, getPiece (board s') dst = Some q /\
             color q = color p /\ hasMoved q = Some true) /\
  (isEnPassant p (enPassantTarget s) dst = false ->
   option_map captured (lastMove s') = Some (getPiece (board s) dst)).
Proof.
  intros Hwf H Hp. accepted H.
  assert (q = p) by congruence. subst q.
  pose proof (getPiece_valid _ _ _ Hp) as Hvs.
  destruct (legal_not_origin _ _ _ _ _ _ _ Hp Hl Hin) as [Hvd Hne].
  destruct (newBoardOf_last_writes (board s) p src dst (enPassantTarget s)
              promo Hwf) as (X & v & HX & HwfX & Hcv & Hmv & Hv).
  rewrite Hb, HX.
  split; [intros E; subst dst; destruct Hne; congruence|].
  split; [|split; [|split]].
  - apply getPiece_set_same; [auto with wf | assumption].
  - intros Hpr. rewrite getPiece_set_other by assumption.
    rewrite getPiece_set_same by assumption. now rewrite (Hv Hpr).
  - rewrite getPiece_set_other by assumption.
    rewrite getPiece_set_same by assumption. exists v. auto.
  - intros Hep. rewrite Hlast. unfold moveOf. rewrite Hep.
    cbn [option_map captured]. now rewrite cloneBoard_id.
Qed.

Lemma getPiece_set_away b r c v pos :
  mkPos r c <> pos -> getPiece (board_set b r c v) pos = getPiece b pos.
Proof.
  intros Hne. apply getPiece_set_other.
  destruct (Z.eq_dec r (row pos)) as [E1|]; [|now left].
  destruct (Z.eq_dec c (col pos)) as [E2|]; [|now right].
  exfalso. apply Hne. apply pos_ext; assumption.
Qed.

(** X10.  The other squares.  An accepted move changes no square other than
    the origin, the destination, the square of the pawn captured en passant
    and, on castling, the two squares of the rook. *)
Theorem move_frame fuel s src dst promo s' p :
  makeMove fuel s src dst promo = Some (Some s') ->
  getPiece (board s) src = Some p ->
  forall pos,
    ~ In pos (touched p src dst (enPassantTarget s)) ->
    getPiece (board s') pos = getPiece (board s) pos.
Proof.
  intros H Hp pos Hout. accepted H.
  assert (q = p) by congruence. subst q.
  rewrite Hb. unfold newBoardOf. unfold touched in Hout.
  assert (Hsrc : mkPos (row src) (col src) <> pos)
    by (intros E; apply Hout; left; rewrite <- E; now destruct src).
  assert (Hdst : mkPos (row dst) (col dst) <> pos)
    by (intros E; apply Hout; right; left; rewrite <- E; now destruct dst).
  rewrite getPiece_set_away by assumption.
  assert (Hstep : forall X v,
            getPiece (board_set X (row dst) (col dst) v) pos = getPiece X pos)
    by (intros; now apply getPiece_set_away).
  destruct (isPromotion p dst); rewrite Hstep.
  all: destruct (isEnPassant p (enPassantTarget s) dst);
    [rewrite getPiece_set_away
       by (intros E; apply Hout; right; right; left; exact E)|].
  all: destruct (isCastling p src dst);
    [rewrite !getPiece_set_away
       by (intros E; apply Hout; rewrite <- E; cbn; tauto)|];
    now rewrite cloneBoard_id.
Qed.

(** X11.  En passant.  When a pawn moves diagonally onto the en-passant target
    of the state, the square beside its origin, in the column of the
    destination, is emptied; what stood there is recorded as captured and
    the move is flagged [enPassant]. *)
Theorem en_passant_capture fuel s src dst promo s' p :
  wfBoard (board s) ->
  makeMove fuel s src dst promo = Some (Some s') ->
  getPiece (board s) src = Some p -> type p = pawn ->
  enPassantTarget s = Some dst -> col dst <> col src ->
  getPiece (board s') (mkPos (row src) (col dst)) = None /\
  option_map captured (lastMove s')
  = Some (getPiece (board s) (mkPos (row src) (col dst))) /\
  option_map enPassant (lastMove s') = Some (Some true).
Proof.
  intros Hwf H Hp Ht Hept Hc. accepted H.
  assert (q = p) by congruence. subst q.
  pose proof (legal_pawn_target _ _ _ _ _ _ _ Hp Ht Hl Hin) as [Hvd Htg].
  assert (Hrow : capturedPawnRow p (row dst) = row src).
  { destruct Htg as [[Hr _] | E]; [|rewrite E in Hc; cbn in Hc; lia].
    unfold capturedPawnRow. rewrite Hr.
    destruct (color p); cbn [direction]; lia. }
  assert (Hep : isEnPassant p (enPassantTarget s) dst = true).
  { unfold isEnPassant. rewrite Ht, Hept, pos_eqb_refl. reflexivity. }
  assert (Hcast : isCastling p src dst = false)
    by now apply enPassant_not_castling with (ept := enPassantTarget s).
  pose proof (getPiece_valid _ _ _ Hp) as Hvs.
  assert (Hvc : isValidPosition (mkPos (row src) (col dst)) = true).
  { apply isValidPosition_iff in Hvs, Hvd. apply isValidPosition_iff.
    cbn [row col]. lia. }
  split; [|split].
  - rewrite Hb. unfold newBoardOf. rewrite Hcast, Hep, Hrow.
    rewrite getPiece_set_other by (cbn [row col]; now right).
    assert (Hrd : row dst <> row src).
    { destruct Htg as [[Hr _] | E]; [|rewrite E in Hc; cbn in Hc; lia].
      rewrite Hr. destruct (color p); cbn [direction]; lia. }
    destruct (isPromotion p dst);
      rewrite getPiece_set_other by (cbn [row col]; now left);
      apply (getPiece_set_same _ (mkPos (row src) (col dst)));
      auto with wf.
  - rewrite Hlast. unfold moveOf. rewrite Hep, Hrow, cloneBoard_id.
    cbn [option_map captured]. f_equal. symmetry.
    now apply (getPiece_board_ix (board s) (mkPos (row src) (col dst))).
  - rewrite Hlast. unfold moveOf. rewrite Hep. reflexivity.
Qed.

(** X12.  The mover's king.  After an accepted move that neither castles nor
    promotes, the new board is the scratch board on which [getLegalMoves]
    tried the move, and on it the king of the side that moved is not in
    check. *)
Theorem own_king_safe fuel s src dst promo s' p :
  wfBoard (board s) ->
  makeMove fuel s src dst promo = Some (Some s') ->
  getPiece (board s) src = Some p ->
  isCastling p src dst = false -> isPromotion p dst = false ->
  board s' = testBoard (board s) src p (enPassantTarget s) dst /\
  isInCheck fuel (board s') (turn s) = Some false.
Proof.
  intros Hwf H Hp Hcast Hpromo. accepted H.
  assert (q = p) by congruence. subst q.
  assert (Heq : newBoardOf (board s) p src dst (enPassantTarget s) promo
                = testBoard (board s) src p (enPassantTarget s) dst).
  { apply board_ext.
    - now apply newBoardOf_wf.
    - unfold testBoard.
      destruct (isEnPassant p (enPassantTarget s) dst); auto 10 with wf.
    - intros pos Hv. unfold newBoardOf, testBoard. rewrite Hcast, Hpromo.
      destruct (isEnPassant p (enPassantTarget s) dst) eqn:Hep.
      + rewrite !getPiece_set by (auto 10 with wf).
        assert (Hne : capturedPawnRow p (row dst) <> row dst)
          by (unfold capturedPawnRow; destruct (color p); lia).
        destruct ((row src =? row pos) && (col src =? col pos));
          destruct ((row dst =? row pos) && (col dst =? col pos)) eqn:Ed;
          destruct ((capturedPawnRow p (row dst) =? row pos) &&
                    (col dst =? col pos)) eqn:Ee; try reflexivity.
        exfalso. apply andb_true_iff in Ed, Ee.
        rewrite !Z.eqb_eq in Ed, Ee. lia.
      + now rewrite !getPiece_set by (auto 10 with wf). }
  rewrite Hb, Heq. split; [reflexivity|].
  destruct (getLegalMoves_iff fuel (board s) src (enPassantTarget s))
    as [_ Hspec].
  destruct (Hspec p legal Hp Hl) as [raw [_ Hiff]].
  apply Hiff in Hin. destruct Hin as [_ Hsafe]. now rewrite <- Hcol.
Qed.

(** ** Sequences of moves *)

Lemma makeMove_history fuel s src dst promo s' :
  makeMove fuel s src dst promo = Some (Some s') ->
  turn s' = opponent (turn s) /\
  (exists m, moves s' = moves s ++ [m] /\ lastMove s' = Some m /\
             from m = src /\ to m = dst) /\
  whiteTime s' = whiteTime s /\ blackTime s' = blackTime s /\
  status s' <> waiting /\
  (wfBoard (board s) -> wfBoard (board s')).
Proof.
  intros H. accepted H.
  split; [assumption|]. split.
  - eexists. split; [exact Hmoves|]. split; [exact Hlast|].
    split; reflexivity.
  - split; [assumption|]. split; [assumption|]. split.
    + destruct hl.
      * destruct Hst as [-> _]. unfold started.
        destruct (status s); discriminate.
      * destruct Hst as [chk [_ [-> _]]]. destruct chk; discriminate.
    + intros Hwf. rewrite Hb. now apply newBoardOf_wf.
Qed.

Lemma last_cons {A} (x d : A) (l : list A) : last (x :: l) d = last l x.
Proof.
  revert x d. induction l as [|y l IH]; intros x d; [reflexivity|].
  change (last (x :: y :: l) d) with (last (y :: l) d).
  now rewrite !IH.
Qed.

(** X13.  A sequence of accepted moves.  The move list grows by exactly the
    moves played, in order, the last one being [lastMove]; the side to move
    alternates with every move; the clocks are not touched; the status is no
    longer [waiting] once a move has been played; and an 8x8 board stays
    8x8. *)
Theorem play_history fuel ms : forall s s',
  playAll fuel s ms = Some s' ->
  (exists played,
      moves s' = moves s ++ played /\
      map (fun m => (from m, to m)) played = ms /\
      lastMove s' = last (map Some played) (lastMove s)) /\
  turn s' = Nat.iter (List.length ms) opponent (turn s) /\
  whiteTime s' = whiteTime s /\ blackTime s' = blackTime s /\
  (ms <> [] -> status s' <> waiting) /\
  (wfBoard (board s) -> wfBoard (board s')).
Proof.
  induction ms as [|[src dst] rest IH]; intros s s' H; cbn [playAll] in H.
  - injection H as <-. split.
    + exists []. rewrite app_nil_r. cbn. auto.
    + split; [reflexivity|]. split; [reflexivity|]. split; [reflexivity|].
      split; [congruence | auto].
  - cbn [fst snd] in H.
    destruct (makeMove fuel s src dst None) as [[s1|]|] eqn:Hm;
      try discriminate.
    apply makeMove_history in Hm.
    destruct Hm as (Ht & (m & Hmv & Hlm & Hf & Hto) & Hw & Hbk & Hst & Hwf).
    destruct (IH s1 s' H)
      as ((played & Hp1 & Hp2 & Hp3) & Ht' & Hw' & Hb' & Hst' & Hwf').
    split.
    + exists (m :: played). split; [|split].
      * rewrite Hp1, Hmv, <- app_assoc. reflexivity.
      * cbn [map]. rewrite Hf, Hto, Hp2. reflexivity.
      * cbn [map]. rewrite last_cons, Hp3, Hlm. reflexivity.
    + split; [|split; [|split; [|split]]].
      * rewrite Ht', Ht. cbn [List.length].
        rewrite Nat.iter_succ_r. reflexivity.
      * congruence.
      * congruence.
      * intros _. destruct rest as [|x rest'].
        -- cbn [playAll] in H. injection H as <-. assumption.
        -- apply Hst'. discriminate.
      * auto.
Qed.

(** ** The board of the new state is a new array *)

Ltac finish_fresh Hrun Hres ext1 :=
  unfold Imperative.bind at 1 in Hrun;
  match type of Hrun with
  | _ = match ?scan with _ => _ end =>
      destruct scan as [[[|] hS]|]; [| |congruence]
  end;
  [ cbv iota beta in Hrun; rewrite bind_ret in Hrun;
    unfold Imperative.ret in Hrun
  | cbv iota beta in Hrun; rewrite bind_assoc, bind_call in Hrun;
    match type of Hrun with
    | _ = match ?chk with _ => _ end =>
        destruct chk; [|congruence]
    end;
    rewrite !bind_ret in Hrun; unfold Imperative.ret in Hrun ];
  rewrite Hrun in Hres; injection Hres as <- _;
  exists ext1; reflexivity.

Lemma makeMove_new_rows fuel s src dst promo h so h' :
  Imperative.allocated h (Imperative.board s) ->
  Imperative.makeMove fuel s src dst promo h = Some (Some so, h') ->
  exists ext1,
    Imperative.board so
    = seq (List.length (h ++ ext1)) (List.length (Imperative.board s)).
Proof.
  intros Hall Hres.
  remember (Imperative.makeMove fuel s src dst promo h) as run eqn:Hrun.
  unfold Imperative.makeMove in Hrun.
  set (b := Imperative.readBoard h (Imperative.board s)) in *.
  rewrite bind_look in Hrun. fold b in Hrun.
  destruct (getPiece b src) as [p|] eqn:Hp.
  2:{ unfold Imperative.ret in Hrun. congruence. }
  destruct (negb (color_eqb (color p) (Imperative.turn s))) eqn:Hc.
  1:{ unfold Imperative.ret in Hrun. congruence. }
  pose proof (getLegalMoves_refines fuel (Imperative.board s) src
                (Imperative.enPassantTarget s) h Hall) as Hg.
  unfold refines in Hg. fold b in Hg.
  unfold Imperative.bind at 1 in Hrun.
  destruct (getLegalMoves fuel b src (Imperative.enPassantTarget s))
    as [legal|] eqn:Hl.
  2:{ rewrite Hg in Hrun. congruence. }
  destruct Hg as [ext1 Hg]. rewrite Hg in Hrun.
  destruct (negb (existsb (fun m => pos_eqb m dst) legal)) eqn:Hin.
  1:{ unfold Imperative.ret in Hrun. congruence. }
  rewrite bind_look, bind_clone in Hrun.
  rewrite (readBoard_app _ _ _ Hall) in Hrun. fold b in Hrun.
  set (n := List.length (Imperative.board s)) in *.
  assert (Hn : List.length (cloneBoard b) = n)
    by (rewrite cloneBoard_length; apply readBoard_length).
  rewrite bind_look_fresh in Hrun by assumption.
  destruct (isEnPassant p (Imperative.enPassantTarget s) dst) eqn:Hep.
  - rewrite (enPassant_not_castling _ _ src _ Hep) in *. exec Hrun.
    destruct (isPromotion p dst); exec Hrun; finish_fresh Hrun Hres ext1.
  - exec Hrun.
    destruct (isCastling p src dst); exec Hrun;
      (destruct (isPromotion p dst); exec Hrun; finish_fresh Hrun Hres ext1).
Qed.

(** X14.  No sharing.  When [makeMove] accepts, the board of the returned
    state is made of row arrays allocated during the call, distinct from one
    another and from every row that existed before; the rows that existed
    before, and with them the input state, hold what they held; and the
    returned state, read in the new store, is the state computed at value
    level. *)
Theorem accepted_move_shares_nothing fuel h s src dst promo s' :
  Imperative.allocated h (Imperative.board s) ->
  makeMove fuel (Imperative.deref h s) src dst promo = Some (Some s') ->
  exists h' so,
    Imperative.makeMove fuel s src dst promo h = Some (Some so, h') /\
    Imperative.deref h' so = s' /\
    Imperative.deref h' s = Imperative.deref h s /\
    (forall br, Imperative.allocated h br ->
                Imperative.readBoard h' br = Imperative.readBoard h br) /\
    NoDup (Imperative.board so) /\
    Forall (fun l => (List.length h <= l < List.length h')%nat)
           (Imperative.board so).
Proof.
  intros Hall Hacc.
  pose proof (makeMove_refines fuel s src dst promo h Hall) as Href.
  rewrite Hacc in Href. destruct Href as (ext & so & Hrun & Hd & Ha).
  destruct (makeMove_new_rows _ _ _ _ _ _ _ _ Hall Hrun) as [ext1 Hb].
  exists (h ++ ext), so.
  split; [assumption|]. split; [assumption|]. split; [|split; [|split]].
  - unfold Imperative.deref. now rewrite readBoard_app.
  - intros br Hbr. now apply readBoard_app.
  - rewrite Hb. apply seq_NoDup.
  - unfold Imperative.allocated in Ha. rewrite Forall_forall in *.
    intros l Hl. split; [|now apply Ha].
    rewrite Hb in Hl. apply in_seq in Hl. rewrite length_app in Hl. lia.
Qed.

(** ** Clock display *)












(** ** Time control strings *)

(** X16.  [createInitialGameState] and [parseTimeControl] read the minutes of a
    time control alike: both clocks start at the parsed minutes times
    sixty, whatever [Number] makes of the string. *)
Theorem initial_clocks_agree_with_parseTimeControl
        (Number : string -> option Z) (timeControl : string) :
  whiteTime (createInitialGameState Number (Some timeControl)) =
    fst (parseTimeControl Number timeControl) * 60 /\
  blackTime (createInitialGameState Number (Some timeControl)) =
    fst (parseTimeControl Number timeControl) * 60.
Proof.
  unfold createInitialGameState, parseTimeControl. cbn [whiteTime blackTime fst].
  pose proof (splitOn_nonempty "+" timeControl) as Hne.
  destruct (splitOn "+" timeControl) as [|seg segs]; [congruence|].
  cbn [hd map nth]. split; reflexivity.
Qed.



(** ** The game clock *)

Lemma countDown_spec clr elapsed prev :
  1 <= elapsed ->
  let r := GameTimer.countDown clr elapsed prev in
  (0 <= prev -> 0 <= fst r <= prev /\ prev - fst r <= elapsed) /\
  (prev <= 0 -> snd r = [] /\ fst r = 0) /\
  (0 < prev -> snd r = [] /\ 0 < fst r \/ snd r = [clr] /\ fst r = 0).
Proof.
  intros He. unfold GameTimer.countDown. cbn [fst snd].
  destruct (Z.max 0 (prev - elapsed) =? 0) eqn:E0;
    [apply Z.eqb_eq in E0 | apply Z.eqb_neq in E0];
    (destruct (prev >? 0) eqn:E1;
     [apply Z.gtb_lt in E1 | rewrite Z.gtb_ltb in E1; apply Z.ltb_ge in E1]);
    cbn [andb].
  - split; [lia|]. split; [lia|]. intros _. right. split; [reflexivity | lia].
  - split; [lia|]. split; [intros _; split; [reflexivity | lia] | lia].
  - split; [lia|]. split; [lia|]. intros _. left. split; [reflexivity | lia].
  - split; [lia|]. split; [intros _; split; [reflexivity | lia] | lia].
Qed.

Lemma tick_spec turn now t :
  let r := GameTimer.tick turn now t in
  GameTimer.timeOf (opponent turn) (fst r) = GameTimer.timeOf (opponent turn) t /\
  (0 <= GameTimer.timeOf turn t ->
   0 <= GameTimer.timeOf turn (fst r) <= GameTimer.timeOf turn t /\
   (GameTimer.timeOf turn t - GameTimer.timeOf turn (fst r)) * 1000
   <= GameTimer.lastUpdate (fst r) - GameTimer.lastUpdate t) /\
  (GameTimer.timeOf turn t <= 0 ->
   snd r = [] /\ GameTimer.timeOf turn (fst r) <= 0) /\
  (0 < GameTimer.timeOf turn t ->
   snd r = [] /\ 0 < GameTimer.timeOf turn (fst r) \/
   snd r = [turn] /\ GameTimer.timeOf turn (fst r) = 0).
Proof.
  unfold GameTimer.tick.
  pose proof (Z.mul_div_le (now - GameTimer.lastUpdate t) 1000 ltac:(lia)) as Hdiv.
  set (elapsed := (now - GameTimer.lastUpdate t) / 1000) in *.
  destruct (elapsed <? 1) eqn:E; [apply Z.ltb_lt in E | apply Z.ltb_ge in E].
  - cbn [fst snd]. split; [reflexivity|]. split; [lia|].
    split; [intros; split; [reflexivity | lia]|].
    intros. left. split; [reflexivity | lia].
  - destruct turn.
    + pose proof (countDown_spec white elapsed (GameTimer.whiteTime t) E) as Hc.
      cbn zeta in Hc.
      destruct (GameTimer.countDown white elapsed (GameTimer.whiteTime t))
        as [newTime calls].
      cbn [fst snd opponent GameTimer.timeOf GameTimer.whiteTime
           GameTimer.blackTime GameTimer.lastUpdate] in *.
      destruct Hc as (H1 & H2 & H3).
      split; [reflexivity|]. split; [intros H; specialize (H1 H); nia|].
      split; [intros H; destruct (H2 H); split; [assumption | lia] | exact H3].
    + pose proof (countDown_spec black elapsed (GameTimer.blackTime t) E) as Hc.
      cbn zeta in Hc.
      destruct (GameTimer.countDown black elapsed (GameTimer.blackTime t))
        as [newTime calls].
      cbn [fst snd opponent GameTimer.timeOf GameTimer.whiteTime
           GameTimer.blackTime GameTimer.lastUpdate] in *.
      destruct Hc as (H1 & H2 & H3).
      split; [reflexivity|]. split; [intros H; specialize (H1 H); nia|].
      split; [intros H; destruct (H2 H); split; [assumption | lia] | exact H3].
Qed.

Lemma run_cons turn now rest t :
  GameTimer.run turn (now :: rest) t =
  (fst (GameTimer.run turn rest (fst (GameTimer.tick turn now t))),
   snd (GameTimer.tick turn now t) ++
   snd (GameTimer.run turn rest (fst (GameTimer.tick turn now t)))).
Proof.
  cbn [GameTimer.run].
  destruct (GameTimer.tick turn now t) as [t1 c1]. cbn [fst snd].
  destruct (GameTimer.run turn rest t1) as [t2 c2]. reflexivity.
Qed.

(** The clocks after a run of the interval callback. *)
Lemma run_bounds turn nows t :
  0 <= GameTimer.timeOf turn t ->
  let t' := fst (GameTimer.run turn nows t) in
  0 <= GameTimer.timeOf turn t' <= GameTimer.timeOf turn t /\
  GameTimer.timeOf (opponent turn) t' = GameTimer.timeOf (opponent turn) t /\
  (GameTimer.timeOf turn t - GameTimer.timeOf turn t') * 1000
  <= GameTimer.lastUpdate t' - GameTimer.lastUpdate t.
Proof.
  revert t. induction nows as [|now rest IH]; intros t H0; cbn zeta.
  - cbn [GameTimer.run fst]. lia.
  - rewrite run_cons. cbn [fst].
    destruct (tick_spec turn now t) as (Ho & Hpos & _).
    destruct (Hpos H0) as (Hb & Hr).
    specialize (IH (fst (GameTimer.tick turn now t)) ltac:(lia)).
    cbn zeta in IH. destruct IH as (IH1 & IH2 & IH3).
    rewrite IH2, Ho. repeat split; lia.
Qed.

(** X18.  While one side is to move, its clock only goes down, never below
    zero and never by more than the time that has passed since the last
    update; the other clock does not move. *)
Theorem clock_never_ahead_of_real_time turn nows t :
  0 <= GameTimer.timeOf turn t ->
  let t' := fst (GameTimer.run turn nows t) in
  0 <= GameTimer.timeOf turn t' <= GameTimer.timeOf turn t /\
  GameTimer.timeOf (opponent turn) t' = GameTimer.timeOf (opponent turn) t /\
  (GameTimer.timeOf turn t - GameTimer.timeOf turn t') * 1000
  <= GameTimer.lastUpdate t' - GameTimer.lastUpdate t.
Proof. exact (run_bounds turn nows t). Qed.

Lemma clock_never_ahead_of_real_time_witness :
  let t := GameTimer.mkClocks 3 600 0 in
  let t' := fst (GameTimer.run white [100; 1200; 1300; 2500; 9000] t) in
  0 <= GameTimer.timeOf white t' <= GameTimer.timeOf white t /\
  GameTimer.timeOf (opponent white) t' = GameTimer.timeOf (opponent white) t /\
  (GameTimer.timeOf white t - GameTimer.timeOf white t') * 1000
  <= GameTimer.lastUpdate t' - GameTimer.lastUpdate t.
Proof.
  apply (clock_never_ahead_of_real_time white [100; 1200; 1300; 2500; 9000]
           (GameTimer.mkClocks 3 600 0)).
  cbn. lia.
Defined.

(** X19.  While one side is to move, [onTimeout] is called at most once, for
    that side, and it is called exactly when a clock that had time left
    has reached zero. *)
Theorem timeout_reported_once turn nows t :
  let r := GameTimer.run turn nows t in
  (snd r = [] \/ snd r = [turn]) /\
  (snd r = [turn] <->
   0 < GameTimer.timeOf turn t /\ GameTimer.timeOf turn (fst r) = 0).
Proof.
  cbn zeta. revert t.
  assert (Hflat : forall nows t, GameTimer.timeOf turn t <= 0 ->
            snd (GameTimer.run turn nows t) = [] /\
            GameTimer.timeOf turn (fst (GameTimer.run turn nows t)) <= 0).
  { induction nows0 as [|now rest IH]; intros t H0.
    - cbn [GameTimer.run fst snd]. split; [reflexivity | lia].
    - rewrite run_cons. cbn [fst snd].
      destruct (tick_spec turn now t) as (_ & _ & Hz & _).
      destruct (Hz H0) as [-> Ht]; cbn [app]; apply IH; lia. }
  induction nows as [|now rest IH]; intros t.
  - cbn [GameTimer.run fst snd]. split; [now left|].
    split; [discriminate | intros [? ?]; lia].
  - rewrite run_cons. cbn [fst snd].
    destruct (tick_spec turn now t) as (_ & _ & Hz & Hp).
    destruct (Z_lt_le_dec 0 (GameTimer.timeOf turn t)) as [Hpos | Hle].
    + destruct (Hp Hpos) as [[-> Ht] | [-> Ht]]; cbn [app].
      * destruct (IH (fst (GameTimer.tick turn now t))) as (IH1 & IH2).
        split; [exact IH1|]. rewrite IH2. split; [intros [_ ?] | intros [_ ?]];
          (split; [assumption | assumption]).
      * destruct (Hflat rest (fst (GameTimer.tick turn now t)) ltac:(lia))
          as (-> & Hfin).
        destruct (run_bounds turn rest
                    (fst (GameTimer.tick turn now t)) ltac:(lia)) as (Hb & _).
        cbn zeta in Hb. split; [now right|].
        split; [intros _; split; [exact Hpos | lia] | reflexivity].
    + destruct (Hflat (now :: rest) t Hle) as (Hs & Hf).
      rewrite run_cons in Hs, Hf. cbn [fst snd] in Hs, Hf. rewrite Hs.
      split; [now left|]. split; [discriminate | intros [? _]; lia].
Qed.

(** ** The room *)

Lemma status_eqb_eq (a b : GameStatus) : status_eqb a b = true <-> a = b.
Proof. destruct a, b; cbn; split; intros H; congruence. Qed.

Lemma isPlaying_some room gameState gs :
  GameRoom.isPlaying room gameState = Some gs ->
  gameState = Some gs /\ status gs = playing /\ room <> None.
Proof.
  unfold GameRoom.isPlaying. destruct room; [|discriminate].
  destruct gameState as [g|]; [|discriminate].
  destruct (status_eqb (status g) playing) eqn:E; [|discriminate].
  intros [= <-]. apply status_eqb_eq in E. repeat split; auto. discriminate.
Qed.

Lemma isPlaying_over room gs :
  status gs <> playing -> GameRoom.isPlaying room (Some gs) = None.
Proof.
  intros H. unfold GameRoom.isPlaying. destruct room; [|reflexivity].
  destruct (status_eqb (status gs) playing) eqn:E; [|reflexivity].
  apply status_eqb_eq in E. contradiction.
Qed.

(** X20.  A game ended by a flag fall, a resignation or an accepted draw was
    being played, and in the state installed no handler does anything
    any more: each of the five returns before [setGameState]. *)
Theorem game_over_is_final room gs pc loser s' :
  GameRoom.handleTimeout room (Some gs) loser = Some s' \/
  GameRoom.handleResign room (Some gs) pc = Some s' \/
  GameRoom.handleAcceptDraw room (Some gs) pc = Some s' ->
  status gs = playing /\ terminal (status s') /\
  board s' = board gs /\ moves s' = moves gs /\
  forall room' pc' loser',
    GameRoom.handleTimeout room' (Some s') loser' = None /\
    GameRoom.handleResign room' (Some s') pc' = None /\
    GameRoom.handleOfferDraw room' (Some s') pc' = None /\
    GameRoom.handleAcceptDraw room' (Some s') pc' = None /\
    GameRoom.handleDeclineDraw room' (Some s') pc' = None.
Proof.
  intros H.
  assert (Hk : status gs = playing /\ terminal (status s') /\
               board s' = board gs /\ moves s' = moves gs).
  { unfold GameRoom.handleTimeout, GameRoom.handleResign,
      GameRoom.handleAcceptDraw, terminal in *.
    destruct (GameRoom.isPlaying room (Some gs)) as [g|] eqn:E.
    2:{ destruct H as [H | [H | H]]; discriminate. }
    apply isPlaying_some in E as ([= <-] & Hp & _).
    destruct H as [H | [H | H]].
    - injection H as <-. cbn. auto 6.
    - destruct pc; [|discriminate]. injection H as <-. cbn. auto 6.
    - destruct pc; [|discriminate]. injection H as <-. cbn. auto 6. }
  destruct Hk as (Hp & Ht & Hb & Hm). repeat (split; [assumption|]).
  assert (Hn : status s' <> playing).
  { unfold terminal in Ht. intuition congruence. }
  intros room' pc' loser'.
  unfold GameRoom.handleTimeout, GameRoom.handleResign,
    GameRoom.handleOfferDraw, GameRoom.handleAcceptDraw,
    GameRoom.handleDeclineDraw.
  rewrite (isPlaying_over room' s' Hn). repeat split; reflexivity.
Qed.

Lemma game_over_is_final_witness :
  status playingState = playing /\ terminal (status resignedState) /\
  GameRoom.handleOfferDraw (Some emptyRoom) (Some resignedState) (Some black)
  = None.
Proof.
  destruct (game_over_is_final (Some emptyRoom) playingState (Some white)
              white resignedState) as (H1 & H2 & _ & _ & H3).
  - right; left. vm_compute. reflexivity.
  - split; [exact H1|]. split; [exact H2|].
    exact (proj1 (proj2 (proj2 (H3 (Some emptyRoom) (Some black) white)))).
Defined.

(** X21.  A draw is offered only when no offer is pending; while the offer is
    pending a second one is refused, and declining it brings back the
    state the game had before the offer. *)
Theorem draw_offer_round_trip room gs pc s1 :
  GameRoom.handleOfferDraw room (Some gs) pc = Some s1 ->
  drawOffer gs = None /\ drawOffer s1 = pc /\ pc <> None /\
  (forall pc', GameRoom.handleOfferDraw room (Some s1) pc' = None) /\
  (forall c, GameRoom.handleDeclineDraw room (Some s1) (Some c) = Some gs).
Proof.
  unfold GameRoom.handleOfferDraw, GameRoom.handleDeclineDraw. intros H.
  destruct (GameRoom.isPlaying room (Some gs)) as [g|] eqn:E; [|discriminate].
  pose proof E as E'. apply isPlaying_some in E' as ([= <-] & Hp & Hr).
  destruct pc as [c0|]; [|discriminate].
  destruct (drawOffer gs) eqn:Hd; [discriminate|].
  injection H as <-.
  assert (E1 : forall x, GameRoom.isPlaying room (Some
            (mkState (board gs) (turn gs) (status gs) (moves gs) (whiteTime gs)
               (blackTime gs) (lastMove gs) (enPassantTarget gs) (winner gs) x))
            = Some (mkState (board gs) (turn gs) (status gs) (moves gs)
               (whiteTime gs) (blackTime gs) (lastMove gs) (enPassantTarget gs)
               (winner gs) x)).
  { intros x. unfold GameRoom.isPlaying in *. destruct room; [|discriminate].
    cbn [status]. destruct (status_eqb (status gs) playing); [reflexivity|discriminate]. }
  split; [reflexivity|]. split; [reflexivity|]. split; [discriminate|].
  split.
  - intros pc'. rewrite E1. destruct pc'; reflexivity.
  - intros c. rewrite E1. cbn [board turn status moves whiteTime blackTime
      lastMove enPassantTarget winner]. destruct gs. cbn in *. congruence.
Qed.

Lemma draw_offer_round_trip_witness :
  drawOffer playingState = None /\
  GameRoom.handleDeclineDraw (Some emptyRoom)
    (Some (withDrawOffer playingState (Some white))) (Some black)
  = Some playingState.
Proof.
  destruct (draw_offer_round_trip (Some emptyRoom) playingState (Some white)
              (withDrawOffer playingState (Some white)))
    as (H1 & _ & _ & _ & H2).
  - reflexivity.
  - split; [exact H1 | exact (H2 black)].
Defined.

(** X22.  The state built from a stored state is the stored state exactly when
    it carries no draw offer and neither clock is at zero; building it
    twice changes nothing more. *)
Theorem parseGameState_identity_iff gs :
  (GameRoom.parseGameState gs = gs <->
   drawOffer gs = None /\ whiteTime gs <> 0 /\ blackTime gs <> 0) /\
  GameRoom.parseGameState (GameRoom.parseGameState gs)
  = GameRoom.parseGameState gs /\
  drawOffer (GameRoom.parseGameState gs) = None /\
  (whiteTime gs = 0 -> whiteTime (GameRoom.parseGameState gs) = 600).
Proof.
  unfold GameRoom.parseGameState, GameRoom.orElse.
  destruct gs as [b t st ms wt bt lm ep w d].
  cbn [board turn status moves whiteTime blackTime lastMove enPassantTarget
       winner drawOffer].
  split; [|split; [|split]].
  - split.
    + intros H. injection H as Hw Hb Hd.
      destruct (wt =? 0) eqn:Ew; [apply Z.eqb_eq in Ew; lia|].
      destruct (bt =? 0) eqn:Eb; [apply Z.eqb_eq in Eb; lia|].
      apply Z.eqb_neq in Ew, Eb. auto.
    + intros (-> & Hw & Hb).
      apply Z.eqb_neq in Hw, Hb. rewrite Hw, Hb. reflexivity.
  - destruct (wt =? 0) eqn:Ew, (bt =? 0) eqn:Eb;
      change (600 =? 0) with false; cbn match; rewrite ?Ew, ?Eb; reflexivity.
  - reflexivity.
  - intros ->. reflexivity.
Qed.

(** X23.  A draw offer does not survive a room update: the state a client
    builds from the state stored with the offer is the one it builds from
    the state stored before the offer. *)
Theorem draw_offer_lost_on_update room gs pc s1 :
  GameRoom.handleOfferDraw room (Some gs) pc = Some s1 ->
  GameRoom.parseGameState s1 = GameRoom.parseGameState gs /\
  drawOffer s1 <> None /\ drawOffer (GameRoom.parseGameState s1) = None.
Proof.
  unfold GameRoom.handleOfferDraw. intros H.
  destruct (GameRoom.isPlaying room (Some gs)) as [g|] eqn:E; [|discriminate].
  apply isPlaying_some in E as ([= <-] & _).
  destruct pc as [c0|]; [|discriminate].
  destruct (drawOffer gs) eqn:Hd; [discriminate|].
  injection H as <-. repeat split. cbn. discriminate.
Qed.

Lemma draw_offer_lost_on_update_witness :
  GameRoom.parseGameState (withDrawOffer playingState (Some white))
  = GameRoom.parseGameState playingState /\
  drawOffer (withDrawOffer playingState (Some white)) <> None /\
  drawOffer (GameRoom.parseGameState (withDrawOffer playingState (Some white)))
  = None.
Proof.
  apply (draw_offer_lost_on_update (Some emptyRoom) playingState (Some white)
           (withDrawOffer playingState (Some white))).
  reflexivity.
Defined.

(** X24.  [makeChessMove] resolves to [true] only for a move of a piece of the
    player's own colour that [makeMove] accepts and the database has
    stored; whenever it resolves to [false] the local game state is the
    one it was called with. *)
Theorem makeChessMove_spec fuel room gameState pc saved src dst promo ok st :
  GameRoom.makeChessMove fuel room gameState pc saved src dst promo
  = Some (ok, st) ->
  (ok = false -> st = gameState) /\
  (ok = true ->
   saved = true /\ room <> None /\
   exists gs p s',
     gameState = Some gs /\ pc = Some (turn gs) /\
     getPiece (board gs) src = Some p /\ pc = Some (color p) /\
     makeMove fuel gs src dst promo = Some (Some s') /\ st = Some s').
Proof.
  unfold GameRoom.makeChessMove. intros H.
  destruct room as [r|]; [|injection H as <- <-; split; [auto | discriminate]].
  destruct gameState as [gs|];
    [|injection H as <- <-; split; [auto | discriminate]].
  destruct pc as [c|]; [|injection H as <- <-; split; [auto | discriminate]].
  destruct (color_eqb (turn gs) c) eqn:Ec; cbn [negb] in H;
    [|injection H as <- <-; split; [auto | discriminate]].
  apply color_eqb_eq in Ec. subst c.
  destruct (makeMove fuel gs src dst promo) as [[s'|]|] eqn:Hm;
    [| injection H as <- <-; split; [auto | discriminate] | discriminate].
  destruct saved; injection H as <- <-.
  - split; [discriminate|]. intros _. split; [reflexivity|].
    split; [discriminate|].
    pose proof Hm as Hacc. accepted Hacc.
    exists gs, q, s'. rewrite Hcol. repeat split; auto.
  - split; [auto | discriminate].
Qed.

Lemma vacant_held seat playerId :
  playerId <> EmptyString -> GameRoom.heldBy seat playerId = true ->
  GameRoom.vacant seat = false.
Proof.
  unfold GameRoom.heldBy, GameRoom.vacant. destruct seat as [s|]; [|discriminate].
  intros Hne H. apply String.eqb_eq in H. subst s.
  now apply String.eqb_neq.
Qed.

(** X25.  Two players who join one after the other with different identifiers
    get different colours, each of them gets the same colour again when
    joining again, and anybody else is refused. *)
Theorem players_get_distinct_colours r a b ca cb r1 r2 :
  a <> EmptyString -> b <> EmptyString -> a <> b ->
  GameRoom.assignColor r a = Some (ca, r1) ->
  GameRoom.assignColor r1 b = Some (cb, r2) ->
  ca <> cb /\
  GameRoom.assignColor r2 a = Some (ca, r2) /\
  GameRoom.assignColor r2 b = Some (cb, r2) /\
  forall c, c <> a -> c <> b -> GameRoom.assignColor r2 c = None.
Proof.
  intros Ha Hb Hab H1 H2.
  assert (Eab : String.eqb a b = false) by now apply String.eqb_neq.
  assert (Eba : String.eqb b a = false)
    by (apply String.eqb_neq; congruence).
  assert (Ea : String.eqb a "" = false) by now apply String.eqb_neq.
  assert (Eb : String.eqb b "" = false) by now apply String.eqb_neq.
  assert (Hseats :
    (ca = white /\ cb = black /\
     r2 = GameRoom.mkRoom (Some a) (Some b)) \/
    (ca = black /\ cb = white /\
     r2 = GameRoom.mkRoom (Some b) (Some a))).
  { destruct r as [w bl]. unfold GameRoom.assignColor in H1.
    cbn [GameRoom.playerWhiteId GameRoom.playerBlackId] in H1.
    destruct (GameRoom.vacant w) eqn:Vw.
    - injection H1 as <- <-. unfold GameRoom.assignColor in H2.
      cbn [GameRoom.playerWhiteId GameRoom.playerBlackId GameRoom.vacant
           GameRoom.heldBy] in H2. rewrite Ea, Eab in H2.
      destruct (GameRoom.vacant bl) eqn:Vb.
      + injection H2 as <- <-. left. auto.
      + destruct (GameRoom.heldBy bl b) eqn:Hh; [|discriminate].
        injection H2 as <- <-. left. repeat split.
        unfold GameRoom.heldBy in Hh. destruct bl as [s|]; [|discriminate].
        apply String.eqb_eq in Hh. now subst.
    - destruct (GameRoom.heldBy w a) eqn:Hw.
      + injection H1 as <- <-.
        unfold GameRoom.heldBy in Hw. destruct w as [s|]; [|discriminate].
        apply String.eqb_eq in Hw. subst s.
        unfold GameRoom.assignColor in H2.
        cbn [GameRoom.playerWhiteId GameRoom.playerBlackId GameRoom.vacant
             GameRoom.heldBy] in H2. rewrite Ea, Eab in H2.
        destruct (GameRoom.vacant bl) eqn:Vb.
        * injection H2 as <- <-. left. auto.
        * destruct (GameRoom.heldBy bl b) eqn:Hh; [|discriminate].
          injection H2 as <- <-. left. repeat split.
          unfold GameRoom.heldBy in Hh. destruct bl as [s|]; [|discriminate].
          apply String.eqb_eq in Hh. now subst.
      + destruct (GameRoom.vacant bl) eqn:Vb.
        * injection H1 as <- <-. unfold GameRoom.assignColor in H2.
          cbn [GameRoom.playerWhiteId GameRoom.playerBlackId] in H2.
          rewrite Vw in H2.
          destruct (GameRoom.heldBy w b) eqn:Hh.
          -- injection H2 as <- <-. right. repeat split.
             unfold GameRoom.heldBy in Hh. destruct w as [s|]; [|discriminate].
             apply String.eqb_eq in Hh. now subst.
          -- cbn [GameRoom.vacant GameRoom.heldBy] in H2.
             rewrite Ea, Eab in H2. discriminate.
        * destruct (GameRoom.heldBy bl a) eqn:Hbl; [|discriminate].
          injection H1 as <- <-.
          unfold GameRoom.heldBy in Hbl. destruct bl as [s|]; [|discriminate].
          apply String.eqb_eq in Hbl. subst s.
          unfold GameRoom.assignColor in H2.
          cbn [GameRoom.playerWhiteId GameRoom.playerBlackId] in H2.
          rewrite Vw in H2.
          destruct (GameRoom.heldBy w b) eqn:Hh.
          -- injection H2 as <- <-. right. repeat split.
             unfold GameRoom.heldBy in Hh. destruct w as [s|]; [|discriminate].
             apply String.eqb_eq in Hh. now subst.
          -- cbn [GameRoom.vacant GameRoom.heldBy] in H2.
             rewrite Ea, Eab in H2. discriminate. }
  destruct Hseats as [(-> & -> & ->) | (-> & -> & ->)];
    (split; [discriminate|]);
    unfold GameRoom.assignColor;
    cbn [GameRoom.playerWhiteId GameRoom.playerBlackId GameRoom.vacant
         GameRoom.heldBy];
    rewrite ?Ea, ?Eb, ?Eab, ?Eba, ?String.eqb_refl;
    (split; [reflexivity|]); (split; [reflexivity|]);
    intros c Hca Hcb;
    assert (E1 : String.eqb a c = false) by (apply String.eqb_neq; congruence);
    assert (E2 : String.eqb b c = false) by (apply String.eqb_neq; congruence);
    rewrite E1, E2; reflexivity.
Qed.

Lemma players_get_distinct_colours_witness :
  white <> black /\
  GameRoom.assignColor
    (GameRoom.mkRoom (Some "player_a"%string) (Some "player_b"%string))
    "player_c"%string = None.
Proof.
  destruct (players_get_distinct_colours emptyRoom
              "player_a"%string "player_b"%string white black
              (GameRoom.mkRoom (Some "player_a"%string) None)
              (GameRoom.mkRoom (Some "player_a"%string) (Some "player_b"%string)))
    as (H1 & _ & _ & H2);
    try discriminate; try reflexivity.
  split; [exact H1 | apply H2; discriminate].
Defined.

(** ** Room codes *)

Lemma charAt_ok k :
  0 <= k < 32 ->
  exists ch, charAt k = String ch EmptyString /\
             In ch (list_ascii_of_string roomCodeChars).
Proof.
  intros Hk.
  assert (Hall : forallb charOk (map Z.of_nat (seq 0 32)) = true)
    by (vm_compute; reflexivity).
  rewrite forallb_forall in Hall.
  assert (Hok : charOk k = true).
  { apply Hall. apply in_map_iff. exists (Z.to_nat k). split; [lia|].
    apply in_seq. lia. }
  unfold charOk in Hok.
  destruct (charAt k) as [|ch [|]]; cbn [list_ascii_of_string] in Hok;
    try discriminate.
  exists ch. split; [reflexivity|].
  apply existsb_exists in Hok as (x & Hx & E).
  apply Ascii.eqb_eq in E. now subst.
Qed.

Lemma chars_app (a b : string) :
  list_ascii_of_string (a ++ b) =
  list_ascii_of_string a ++ list_ascii_of_string b.
Proof. induction a as [|ch r IH]; cbn; [reflexivity | now rewrite IH]. Qed.

Lemma length_chars (s : string) :
  String.length s = List.length (list_ascii_of_string s).
Proof. induction s as [|ch r IH]; cbn; [reflexivity | now rewrite IH]. Qed.

Lemma generateRoomCode_acc draws acc :
  Forall (fun k => 0 <= k < 32) draws ->
  let code := fold_left (fun code k => (code ++ charAt k)%string) draws acc in
  String.length code = (String.length acc + List.length draws)%nat /\
  forall ch, In ch (list_ascii_of_string code) ->
             In ch (list_ascii_of_string acc) \/
             In ch (list_ascii_of_string roomCodeChars).
Proof.
  cbn zeta. revert acc. induction draws as [|k rest IH]; intros acc Hd.
  - cbn [fold_left List.length]. split; [lia | auto].
  - inversion Hd as [|? ? Hk Hrest]; subst. cbn [fold_left List.length].
    destruct (charAt_ok k Hk) as (c0 & -> & Hc0).
    destruct (IH (acc ++ String c0 EmptyString)%string Hrest) as (Hlen & Hin).
    split.
    + rewrite Hlen, !length_chars, chars_app, length_app. cbn. lia.
    + intros ch Hch. destruct (Hin ch Hch) as [H | H]; [|now right].
      rewrite chars_app in H.
      apply in_app_or in H as [H | H]; [now left|].
      cbn in H. destruct H as [<- | []]. now right.
Qed.

(** X26.  A room code has one character for each number drawn, six in the
    program, and every character is one of the thirty-two of the
    alphabet. *)
Theorem generateRoomCode_spec draws :
  Forall (fun k => 0 <= k < 32) draws ->
  String.length (generateRoomCode draws) = List.length draws /\
  forall ch, In ch (list_ascii_of_string (generateRoomCode draws)) ->
             In ch (list_ascii_of_string roomCodeChars).
Proof.
  intros Hd. destruct (generateRoomCode_acc draws EmptyString Hd) as (Hl & Hi).
  split; [exact Hl|]. intros ch Hch.
  destruct (Hi ch Hch) as [[] | H]. exact H.
Qed.

Lemma generateRoomCode_spec_witness :
  String.length (generateRoomCode [0; 31; 7; 7; 24; 13]) = 6%nat.
Proof.
  apply (generateRoomCode_spec [0; 31; 7; 7; 24; 13]).
  repeat (apply Forall_cons; [lia|]). apply Forall_nil.
Defined.

(** ** The board component *)

Section BoardViewProps.

Variable fuel : nat.
Variable b : Board.
Variable t : PieceColor.
Variable playerColor : option PieceColor.
Variable ept : option Position.
Variable disabled : bool.






End BoardViewProps.


(** X28.  Once the game is over, clicks on the board change nothing and call
    nothing, however many there are: the page disables the board for
    every status but [waiting] and [playing]. *)
Theorem no_click_moves_after_game_over fuel s playerColor isSpectator
        opponentJoined ui es :
  terminal (status s) ->
  forallb BoardView.isClick es = true ->
  BoardView.handleAll fuel (board s) (turn s) playerColor (enPassantTarget s)
    (BoardView.boardDisabled isSpectator opponentJoined (status s)) ui es
  = Some (ui, []).
Proof.
  intros Ht.
  assert (E : BoardView.boardDisabled isSpectator opponentJoined (status s)
              = true).
  { unfold BoardView.boardDisabled, terminal in *.
    destruct Ht as [-> | [-> | [-> | ->]]]; cbn; apply orb_true_r. }
  rewrite E. induction es as [|e rest IH]; intros Hes; [reflexivity|].
  cbn [forallb] in Hes. apply andb_true_iff in Hes as [He Hrest].
  destruct e as [r c|pt]; [|discriminate].
  cbn [BoardView.handleAll BoardView.handle].
  unfold BoardView.handleSquareClick at 1. cbn [orb fst snd].
  rewrite (IH Hrest). reflexivity.
Qed.

(** ** The theorems at sample positions *)

Lemma sliding_moves_witness :
  exists rawMoves,
    getRawMoves 2 (board beforeFoolsMate) (mkPos 0 3) None = Some rawMoves /\
    forall m,
      In m rawMoves <->
      exists d k,
        In d (slideDirs queen) /\ 0 < k /\
        m = stepFrom (mkPos 0 3) (fst d) (snd d) k /\
        isValidPosition m = true /\
        clearPath (board beforeFoolsMate) (mkPos 0 3) (fst d) (snd d) k /\
        notOwn (board beforeFoolsMate) (mkPiece queen black None) m.
Proof.
  apply (sliding_moves 2 (board beforeFoolsMate) (mkPos 0 3) None
           (mkPiece queen black None)).
  - vm_compute. reflexivity.
  - right. right. reflexivity.
Defined.

Lemma knight_moves_witness :
  exists rawMoves,
    getRawMoves 2 (board startState) (mkPos 7 6) None = Some rawMoves /\
    forall m,
      In m rawMoves <->
      Z.abs (row m - 7) * Z.abs (col m - 6) = 2 /\
      isValidPosition m = true /\
      notOwn (board startState) (mkPiece knight white None) m.
Proof.
  apply (knight_moves 2 (board startState) (mkPos 7 6) None
           (mkPiece knight white None)).
  - vm_compute. reflexivity.
  - reflexivity.
Defined.

Lemma king_moves_witness :
  isValidPosition (mkPos 7 6) = true /\
  notOwn castlingBoard (mkPiece king white None) (mkPos 7 6) /\
  moved (mkPiece king white None) = false.
Proof.
  destruct (king_moves 2 castlingBoard (mkPos 7 4) None
              (mkPiece king white None)) as [_ Hk].
  - vm_compute. reflexivity.
  - reflexivity.
  - destruct (Hk [mkPos 6 3; mkPos 6 4; mkPos 6 5; mkPos 7 3; mkPos 7 5;
                  mkPos 7 6; mkPos 7 2]) as [_ Hall].
    + vm_compute. reflexivity.
    + destruct (Hall (mkPos 7 6)) as (Hv & Hn & Hc).
      * cbn. auto 10.
      * split; [exact Hv|]. split; [exact Hn | reflexivity].
Defined.

Lemma pawn_moves_witness :
  exists rawMoves,
    getRawMoves 2 (board startState) (mkPos 6 4) None = Some rawMoves /\
    In (mkPos 4 4) rawMoves.
Proof.
  destruct (pawn_moves 2 (board startState) (mkPos 6 4) None
              (mkPiece pawn white None)) as (rawMoves & Hraw & Hiff).
  - vm_compute. reflexivity.
  - reflexivity.
  - exists rawMoves. split; [exact Hraw|]. apply Hiff.
    right. left. repeat split; vm_compute; reflexivity.
Defined.

Lemma raw_moves_on_board_witness :
  isValidPosition (mkPos 4 4) = true /\ mkPos 4 4 <> mkPos 6 4 /\
  (notOwn (board startState) (mkPiece pawn white None) (mkPos 4 4) \/
   (pawn = pawn /\ @None Position = Some (mkPos 4 4))).
Proof.
  apply (raw_moves_on_board 2 (board startState) (mkPos 6 4) None
           (mkPiece pawn white None) [mkPos 5 4; mkPos 4 4]).
  - vm_compute. reflexivity.
  - vm_compute. reflexivity.
  - right. left. reflexivity.
Defined.

Lemma legal_moves_spec_witness :
  getLegalMoves 2 (board startState) (mkPos 4 4) None = Some [].
Proof.
  apply (proj1 (legal_moves_spec 2 (board startState) (mkPos 4 4) None)).
  vm_compute. reflexivity.
Defined.

Lemma findKing_spec_witness :
  exists p, getPiece (board startState) (mkPos 7 4) = Some p /\
            type p = king /\ color p = white.
Proof.
  apply (proj1 (findKing_spec (board startState) white) (mkPos 7 4)).
  vm_compute. reflexivity.
Defined.

Lemma isSquareAttacked_spec_witness :
  exists apos a ms,
    getPiece (board afterFoolsMate) apos = Some a /\
    color a = opponent white /\
    getRawMoves 1 (board afterFoolsMate) apos None = Some ms /\
    In (mkPos 7 4) ms.
Proof.
  apply (proj1 (isSquareAttacked_spec 1 (board afterFoolsMate) (mkPos 7 4)
                  white)).
  vm_compute. reflexivity.
Defined.

Lemma startState_wf : wfBoard (board startState).
Proof. apply wfBoardb_sound. vm_compute. reflexivity. Qed.

Lemma enPassantReady_wf : wfBoard (board enPassantReady).
Proof. apply wfBoardb_sound. vm_compute. reflexivity. Qed.

Lemma afterE4_played :
  makeMove 2 startState (mkPos 6 4) (mkPos 4 4) None = Some (Some afterE4).
Proof. vm_compute. reflexivity. Qed.

Lemma afterEnPassant_played :
  makeMove 2 enPassantReady (mkPos 3 4) (mkPos 2 3) None
  = Some (Some afterEnPassant).
Proof. vm_compute. reflexivity. Qed.

Lemma move_effect_witness :
  getPiece (board afterE4) (mkPos 6 4) = None /\
  getPiece (board afterE4) (mkPos 4 4)
  = Some (markMoved (mkPiece pawn white None)).
Proof.
  destruct (move_effect 2 startState (mkPos 6 4) (mkPos 4 4) None afterE4
              (mkPiece pawn white None) startState_wf afterE4_played)
    as (_ & Hsrc & Hdst & _).
  - vm_compute. reflexivity.
  - split; [exact Hsrc | apply Hdst; vm_compute; reflexivity].
Defined.

Lemma move_frame_witness :
  getPiece (board afterE4) (mkPos 0 4)
  = getPiece (board startState) (mkPos 0 4).
Proof.
  apply (move_frame 2 startState (mkPos 6 4) (mkPos 4 4) None afterE4
           (mkPiece pawn white None) afterE4_played).
  - vm_compute. reflexivity.
  - vm_compute. intros [H | [H | []]]; discriminate.
Defined.

Lemma en_passant_capture_witness :
  getPiece (board afterEnPassant) (mkPos 3 3) = None /\
  option_map captured (lastMove afterEnPassant)
  = Some (getPiece (board enPassantReady) (mkPos 3 3)) /\
  option_map enPassant (lastMove afterEnPassant) = Some (Some true).
Proof.
  apply (en_passant_capture 2 enPassantReady (mkPos 3 4) (mkPos 2 3) None
           afterEnPassant (mkPiece pawn white (Some true))
           enPassantReady_wf afterEnPassant_played).
  - vm_compute. reflexivity.
  - reflexivity.
  - vm_compute. reflexivity.
  - cbn. lia.
Defined.

Lemma own_king_safe_witness :
  board afterE4
  = testBoard (board startState) (mkPos 6 4) (mkPiece pawn white None)
              (enPassantTarget startState) (mkPos 4 4) /\
  isInCheck 2 (board afterE4) (turn startState) = Some false.
Proof.
  apply (own_king_safe 2 startState (mkPos 6 4) (mkPos 4 4) None afterE4
           (mkPiece pawn white None) startState_wf afterE4_played).
  - vm_compute. reflexivity.
  - vm_compute. reflexivity.
  - vm_compute. reflexivity.
Defined.

Lemma afterBe2_played : playAll 2 startState openingMoves = Some afterBe2.
Proof. vm_compute. reflexivity. Qed.

Lemma play_history_witness :
  turn afterBe2 = Nat.iter (List.length openingMoves) opponent (turn startState) /\
  whiteTime afterBe2 = whiteTime startState /\
  blackTime afterBe2 = blackTime startState.
Proof.
  destruct (play_history 2 openingMoves startState afterBe2 afterBe2_played)
    as (_ & Ht & Hw & Hb & _).
  repeat split; assumption.
Defined.

Lemma accepted_move_shares_nothing_witness :
  exists h' so,
    Imperative.makeMove 2 startObject (mkPos 6 4) (mkPos 4 4) None startHeap
    = Some (Some so, h') /\
    Imperative.deref h' so = afterE4 /\
    Imperative.deref h' startObject = Imperative.deref startHeap startObject /\
    NoDup (Imperative.board so).
Proof.
  destruct (accepted_move_shares_nothing 2 startHeap startObject (mkPos 6 4)
              (mkPos 4 4) None afterE4 startObject_allocated)
    as (h' & so & Hrun & Hd & Hold & _ & Hnd & _).
  - vm_compute. reflexivity.
  - exists h', so. repeat split; assumption.
Defined.

Lemma makeChessMove_spec_witness :
  true = true /\
  exists gs p s',
    Some startState = Some gs /\ Some white = Some (turn gs) /\
    getPiece (board gs) (mkPos 6 4) = Some p /\ Some white = Some (color p) /\
    makeMove 2 gs (mkPos 6 4) (mkPos 4 4) None = Some (Some s') /\
    Some afterE4 = Some s'.
Proof.
  destruct (makeChessMove_spec 2 (Some emptyRoom)
              (Some startState) (Some white) true (mkPos 6 4) (mkPos 4 4)
              None true (Some afterE4)) as (_ & H).
  - vm_compute. reflexivity.
  - destruct (H eq_refl) as (Hs & _ & Hx). split; [exact Hs | exact Hx].
Defined.



Lemma no_click_moves_after_game_over_witness :
  BoardView.handleAll 2 (board afterFoolsMate) (turn afterFoolsMate)
    (Some white) (enPassantTarget afterFoolsMate)
    (BoardView.boardDisabled false true (status afterFoolsMate))
    BoardView.noSelection [BoardView.click 6 0; BoardView.click 5 0]
  = Some (BoardView.noSelection, []).
Proof.
  apply (no_click_moves_after_game_over 2 afterFoolsMate (Some white) false
           true BoardView.noSelection [BoardView.click 6 0; BoardView.click 5 0]).
  - left. reflexivity.
  - reflexivity.
Defined.
